(** * External merge sort: a shallow embedding of [external_sort.py]

    The development follows the program bottom-up:

    - [Heapq]     the array-based binary heap of Python's [heapq] module
                  ([_siftdown], [_siftup], [heapify], [heappop],
                  [heapreplace]) and the generator [heapq.merge];
    - [PyStr]     Python's [<] on [str] (lexicographic on code points) and
                  the splitting of a text stream into lines;
    - [Planner]   [ExternalMergeSort._get_pass_params];
    - [Sorter]    the file system, the sorter object and the methods
                  [_make_temp_dir], [_split], [_merge_files], [_merge],
                  [_move_to_save_path] and [sort].

    Lists used as arrays are indexed with stdpp's [!!] and [<[_:=_]>]. *)

From Stdlib Require Import ZArith Lia Sorting.Sorted Reals Lra.
From Stdlib Require Import Ascii String DecimalString DecimalNat.
From stdpp Require Import base list sorting strings gmap.

(** ** Python's [heapq] *)

Module Heapq.
Section defs.
Context {A : Type}.
(** [lt] is Python's [<] on the items of the heap. *)
Variable lt : A -> A -> bool.

(** The [while pos > startpos] loop of [_siftdown]; [newitem] has been
    read from [heap[pos]] before the loop.  Every iteration moves [pos]
    to its parent, so [pos] iterations are enough. *)
Fixpoint _siftdown_loop (fuel : nat) (heap : list A) (startpos pos : nat)
    (newitem : A) : list A :=
  match fuel with
  | O => <[pos := newitem]> heap
  | S fuel' =>
      if startpos <? pos then
        let parentpos := (pos - 1) / 2 in
        match heap !! parentpos with
        | Some parent =>
            if lt newitem parent
            then _siftdown_loop fuel' (<[pos := parent]> heap)
                   startpos parentpos newitem
            else <[pos := newitem]> heap
        | None => <[pos := newitem]> heap
        end
      else <[pos := newitem]> heap
  end.

Definition _siftdown (heap : list A) (startpos pos : nat) : list A :=
  match heap !! pos with
  | Some newitem => _siftdown_loop pos heap startpos pos newitem
  | None => heap
  end.

(** Index of the smaller child: [rightpos] when it exists and
    [not heap[childpos] < heap[rightpos]], else [childpos]. *)
Definition smaller_child (heap : list A) (endpos childpos : nat) : nat :=
  let rightpos := childpos + 1 in
  match heap !! childpos, heap !! rightpos with
  | Some c, Some r =>
      if (rightpos <? endpos) && negb (lt c r) then rightpos else childpos
  | _, _ => childpos
  end.

(** The [while childpos < endpos] loop of [_siftup]: the smaller child
    is moved up until a leaf is hit.  Returns the heap and the leaf. *)
Fixpoint _siftup_loop (fuel : nat) (heap : list A) (endpos pos : nat)
    : list A * nat :=
  match fuel with
  | O => (heap, pos)
  | S fuel' =>
      let childpos := 2 * pos + 1 in
      if childpos <? endpos then
        let childpos := smaller_child heap endpos childpos in
        match heap !! childpos with
        | Some c => _siftup_loop fuel' (<[pos := c]> heap) endpos childpos
        | None => (heap, pos)
        end
      else (heap, pos)
  end.

Definition _siftup (heap : list A) (pos : nat) : list A :=
  let endpos := length heap in
  let startpos := pos in
  match heap !! pos with
  | Some newitem =>
      let '(heap, pos) := _siftup_loop endpos heap endpos pos in
      _siftdown (<[pos := newitem]> heap) startpos pos
  | None => heap
  end.

(** [for i in reversed(range(n//2)): _siftup(x, i)] *)
Definition heapify (x : list A) : list A :=
  foldl _siftup x (reverse (seq 0 (length x / 2))).

(** [heap.pop()]: the list without its last item, and that item. *)
Definition list_pop (heap : list A) : option (list A * A) :=
  match reverse heap with
  | [] => None
  | lastelt :: r => Some (reverse r, lastelt)
  end.

(** [heappop] returns the popped item and the heap left; [None] stands
    for the [IndexError] of popping from an empty list. *)
Definition heappop (heap : list A) : option (A * list A) :=
  match list_pop heap with
  | None => None
  | Some (heap, lastelt) =>
      match heap !! 0 with
      | Some returnitem => Some (returnitem, _siftup (<[0 := lastelt]> heap) 0)
      | None => Some (lastelt, heap)
      end
  end.

(** [heapreplace]: [returnitem = heap[0]; heap[0] = item; _siftup(heap, 0)]. *)
Definition heapreplace (heap : list A) (item : A) : option (A * list A) :=
  match heap !! 0 with
  | Some returnitem => Some (returnitem, _siftup (<[0 := item]> heap) 0)
  | None => None
  end.

(** The pattern of [_split]: heapify, then [len] times [heappop]. *)
Fixpoint pop_all (n : nat) (heap : list A) : list A :=
  match n with
  | O => []
  | S n' =>
      match heappop heap with
      | Some (x, heap') => x :: pop_all n' heap'
      | None => []
      end
  end.

Definition heapsort (block : list A) : list A :=
  pop_all (length block) (heapify block).
End defs.

(** *** [heapq.merge]

    The heap of [merge] holds one list [[value, order, next]] per input
    that is not exhausted, [order] being the index of the input among the
    arguments and [next] the bound [__next__] of its iterator.  An entry
    is modelled by the pair [(value, order)]; the iterators are kept
    apart, as the list of what each input has left to give, and [next] of
    an entry reads the iterator at index [order]. *)
Section merge.
Context {V : Type} `{EqDecision V}.
(** Python's [<] on the lines. *)
Variable lt : V -> V -> bool.

(** Python's [<] on two lists [[value, order, next]]: the first items
    that differ decide.  No two entries of one heap have the same
    [order], so [next] is never compared. *)
Definition entry_lt (a b : V * nat) : bool :=
  if decide (a.1 = b.1) then a.2 <? b.2 else lt a.1 b.1.

(** [next()] on the iterator of input [order]; [None] is [StopIteration]. *)
Definition next_line (its : list (list V)) (order : nat)
    : option (V * list (list V)) :=
  match its !! order with
  | Some (x :: rest) => Some (x, <[order := rest]> its)
  | _ => None
  end.

(** [for order, it in enumerate(map(iter, iterables))]: the first line
    of every input that has one is put on the heap list. *)
Fixpoint merge_prime (order : nat) (iterables : list (list V))
    : list (V * nat) * list (list V) :=
  match iterables with
  | [] => ([], [])
  | it :: more =>
      let '(h, its) := merge_prime (S order) more in
      match it with
      | [] => (h, [] :: its)
      | x :: rest => ((x, order) :: h, rest :: its)
      end
  end.

(** The [while len(h) > 1] loop with its inner [while True] and the
    final single-iterator case; the result is the sequence of yields,
    each with the [order] of the input it was read from (only [value] is
    yielded by the generator, see [merge]).  Every iteration yields one
    item, so the number of lines plus one bounds the iterations. *)
Fixpoint merge_loop (fuel : nat) (h : list (V * nat)) (its : list (list V))
    : list (V * nat) :=
  match fuel with
  | O => []
  | S fuel' =>
      if 1 <? length h then
        match h !! 0 with
        | Some (value, order) =>
            (value, order) ::
            match next_line its order with
            | Some (value', its') =>
                (* [s[0] = next()] updates the list stored at [h[0]];
                   [heapreplace(h, s)] then sifts it *)
                let s := (value', order) in
                match heapreplace entry_lt (<[0 := s]> h) s with
                | Some (_, h') => merge_loop fuel' h' its'
                | None => []
                end
            | None =>
                match heappop entry_lt h with
                | Some (_, h') => merge_loop fuel' h' its
                | None => []
                end
            end
        | None => []
        end
      else
        match h !! 0 with
        | Some (value, order) =>
            (value, order) ::
            ((fun v => (v, order)) <$> default [] (its !! order))
        | None => []
        end
  end.

Definition merge_tagged (iterables : list (list V)) : list (V * nat) :=
  let '(h, its) := merge_prime 0 iterables in
  merge_loop (S (length (concat iterables))) (heapify entry_lt h) its.

(** What the generator [heapq.merge] yields on the given inputs. *)
Definition merge (iterables : list (list V)) : list V :=
  fst <$> merge_tagged iterables.
End merge.
End Heapq.

(** ** Python's [str]: order, lines, formatting

    A text file is modelled by the text that Python's text layer gives
    for it, a [string]; a character is a byte of [ascii], ordered by its
    code as Python orders code points. *)

Module PyStr.

(** [a < b] and [a <= b] on [str]. *)
Definition str_lt (a b : string) : bool := String.ltb a b.
Definition str_le (a b : string) : bool := String.leb a b.

(** [len(s)] *)
Definition len (s : string) : Z := Z.of_nat (String.length s).

Definition newline : ascii := "010"%char.

(** Iterating over a text file gives its lines, each with the newline
    that ends it; only the last line can lack one. *)
Fixpoint lines_of (text : string) : list string :=
  match text with
  | EmptyString => []
  | String c rest =>
      if Ascii.eqb c newline then String c EmptyString :: lines_of rest
      else match lines_of rest with
           | [] => [String c EmptyString]
           | line :: more => String c line :: more
           end
  end.

(** The text that a sequence of [write] calls leaves in a file. *)
Definition written (lines : list string) : string :=
  foldr String.append EmptyString lines.

(** [f.readlines(hint)] on a file of which [lines] are still unread, as
    CPython's [_io._IOBase.readlines] does it: with [hint <= 0] all lines
    are read; else a line is appended to the result, and reading stops
    once [len(line) > hint - length], [length] being the size of the
    lines appended before it.  Returns the block read and the lines left.
    Sizes are counted in characters, as [len] counts them on the [str]
    lines of a file opened in text mode.  The [hint] is one that
    CPython converts to a [Py_ssize_t], that is, below [2 ^ 63]; for a
    larger one the call raises [OverflowError] instead. *)
Fixpoint readlines_loop (hint length : Z) (lines : list string)
    : list string * list string :=
  match lines with
  | [] => ([], [])
  | line :: rest =>
      let line_length := len line in
      if (line_length >? hint - length)%Z then ([line], rest)
      else
        let '(result, rest') := readlines_loop hint (length + line_length) rest in
        (line :: result, rest')
  end.

Definition readlines (hint : Z) (lines : list string)
    : list string * list string :=
  if (hint <=? 0)%Z then (lines, []) else readlines_loop hint 0 lines.

(** ["{}".format(n)] for a natural number. *)
Definition format_nat (n : nat) : string :=
  NilEmpty.string_of_uint (Nat.to_uint n).
End PyStr.

(** ** Python exceptions and results *)

Module Py.
Inductive exn : Set :=
| ValueError | OverflowError | ZeroDivisionError
| UnboundLocalError | FileNotFoundError | OSError.

(** The outcome of evaluating an expression: a value, or an exception. *)
Inductive result (A : Type) : Type :=
| Ok (a : A)
| Raise (e : exn).
Arguments Ok {A} a.
Arguments Raise {A} e.

Definition bind {A B} (m : result A) (k : A -> result B) : result B :=
  match m with
  | Ok a => k a
  | Raise e => Raise e
  end.

(** An [int] that fits a C [int]: the [buffering] argument of [open] is
    converted to one, with an [OverflowError] otherwise. *)
Definition c_int_ok (n : Z) : bool :=
  ((- 2 ^ 31 <=? n) && (n <? 2 ^ 31))%Z.
End Py.

Declare Scope py_scope.
Delimit Scope py_scope with py.
Notation "'let*' x ':=' m 'in' k" := (Py.bind m (fun x => k))
  (at level 10, x pattern, m at level 100, k at level 200) : py_scope.

(** ** The pass planner: [ExternalMergeSort._get_pass_params]

    The planner computes with floating-point numbers.  They are modelled
    by the real numbers they stand for, together with the two special
    values that [numpy] returns instead of raising: an infinity and
    not-a-number.  Rounding of finite values is not modelled, so what
    is stated of the value of a plan is stated for inputs on which the
    rounded and the exact computation agree; the signs of infinities and
    of zero are not modelled either, since every path of the planner that
    meets an infinity ends in an exception whatever the sign. *)

Module Planner.
Import Py.
Local Open Scope py_scope.

Inductive np_float : Type :=
| Fin (x : R)
| Inf
| NaN.

(** [np.log(x)] for a finite [x]: [-inf] at [0], [nan] below. *)
Definition np_log (x : R) : np_float :=
  if Rlt_dec 0 x then Fin (ln x)
  else if Req_dec_T x 0 then Inf else NaN.

(** [x / y] on [np.float64]: division by zero gives an infinity, or
    [nan] for [0 / 0]; no exception is raised. *)
Definition np_div (x y : np_float) : np_float :=
  match x, y with
  | NaN, _ | _, NaN => NaN
  | Inf, Inf => NaN
  | Inf, Fin _ => Inf
  | Fin _, Inf => Fin 0
  | Fin a, Fin b =>
      if Req_dec_T b 0 then (if Req_dec_T a 0 then NaN else Inf)
      else Fin (a / b)
  end.

Definition np_ceil (x : np_float) : np_float :=
  match x with
  | Fin a => Fin (IZR (Zceil a))
  | Inf => Inf
  | NaN => NaN
  end.

(** [int(x)] truncates towards zero; it raises on an infinity and on
    [nan]. *)
Definition trunc (x : R) : Z := if Rlt_dec x 0 then Zceil x else Zfloor x.

Definition py_int (x : np_float) : result Z :=
  match x with
  | Fin a => Ok (trunc a)
  | Inf => Raise OverflowError
  | NaN => Raise ValueError
  end.

(** The least magnitude that does not round to a finite [float]. *)
Definition float_overflow : R := IZR (2 ^ 1024 - 2 ^ 970).

(** [a / b] on two [int]: the quotient as a [float], unless it is too
    large for one. *)
Definition truediv (a b : Z) : result R :=
  if (b =? 0)%Z then Raise ZeroDivisionError
  else if Rle_dec float_overflow (Rabs (IZR a / IZR b)) then Raise OverflowError
  else Ok (IZR a / IZR b)%R.

(** [n ** y] for an [int] [n >= 0] and a [float] [y]. *)
Definition py_pow (n : nat) (y : R) : result R :=
  match n with
  | O => if Rlt_dec y 0 then Raise ZeroDivisionError
         else if Req_dec_T y 0 then Ok 1%R else Ok 0%R
  | S _ => Ok (Rpower (INR n) y)
  end.

Definition _get_pass_params (memory_limit buffer_size : Z)
    (num_split_files : nat) (update_buffer_size : bool)
    : result (Z * Z * Z) :=
  let* q := truediv memory_limit buffer_size in
  let* num_merges :=
    py_int (np_ceil
      (np_div (Fin 1)
         (np_div (np_log (q - 1)) (np_log (INR num_split_files))))) in
  let* e := truediv 1 num_merges in
  let* p := py_pow num_split_files e in
  let* num_files_to_merge := py_int (np_ceil (Fin p)) in
  let* buffer_size :=
    if update_buffer_size then
      let* b := truediv memory_limit (num_files_to_merge + 1) in
      py_int (Fin b)
    else Ok buffer_size in
  Ok (num_merges, num_files_to_merge, buffer_size).
End Planner.

(** ** The sorter: [ExternalMergeSort] *)

Module Sorter.
Import Py PyStr.

(** A record of the calls that move whole files, kept for the
    statements about what a run has done; the program does not read it. *)
Inductive event : Type :=
| MergeFiles (files : list string) (save_path : string)
| Rename (temp_path : string)
| RemoveDirs.

(** Where the [save_path] of a call of [sort] points: at the input file
    itself, or at another path outside the workspace.  The path used
    when no [save_path] is given, [file_path] with [__sorted] before its
    extension, is another path. *)
Inductive destination : Type :=
| Input
| Elsewhere.

(** The attributes of the sorter object, the arguments of the call of
    [sort], and the part of the file system that a run touches: the text
    of [file_path], the directory [temp_dir] when it exists, with the
    text of each file in it by name, and, for a [save_path] that is
    another file than the input, the text of that file when it exists.
    The file system has no limits of its own: what the operating system
    allows in open files, memory and disk space is not modelled. *)
Record world : Type := World {
  memory_limit : Z;
  buffer_size : Z;
  update_buffer_size : bool;
  mode : string;
  num_split_files : nat;
  file_text : string;
  temp_dir : option (gmap string string);
  other_text : option string;
  save_path : destination;
  trace : list event
}.

(** The text at [save_path], when that file exists. *)
Definition saved (w : world) : option string :=
  match save_path w with
  | Input => Some (file_text w)
  | Elsewhere => other_text w
  end.

Definition set_buffer_size (b : Z) (w : world) : world :=
  World (memory_limit w) b (update_buffer_size w) (mode w)
    (num_split_files w) (file_text w) (temp_dir w) (other_text w)
    (save_path w) (trace w).
Definition set_mode (m : string) (w : world) : world :=
  World (memory_limit w) (buffer_size w) (update_buffer_size w) m
    (num_split_files w) (file_text w) (temp_dir w) (other_text w)
    (save_path w) (trace w).
Definition set_num_split_files (n : nat) (w : world) : world :=
  World (memory_limit w) (buffer_size w) (update_buffer_size w) (mode w)
    n (file_text w) (temp_dir w) (other_text w) (save_path w) (trace w).
Definition set_temp_dir (d : option (gmap string string)) (w : world) : world :=
  World (memory_limit w) (buffer_size w) (update_buffer_size w) (mode w)
    (num_split_files w) (file_text w) d (other_text w) (save_path w) (trace w).
Definition set_save_path (p : destination) (w : world) : world :=
  World (memory_limit w) (buffer_size w) (update_buffer_size w) (mode w)
    (num_split_files w) (file_text w) (temp_dir w) (other_text w) p (trace w).
(** A file moved to [save_path] replaces what is there: the input file,
    when [save_path] is the input file. *)
Definition write_saved (text : string) (w : world) : world :=
  World (memory_limit w) (buffer_size w) (update_buffer_size w) (mode w)
    (num_split_files w)
    (match save_path w with Input => text | Elsewhere => file_text w end)
    (temp_dir w)
    (match save_path w with Input => other_text w | Elsewhere => Some text end)
    (save_path w) (trace w).
Definition log (e : event) (w : world) : world :=
  World (memory_limit w) (buffer_size w) (update_buffer_size w) (mode w)
    (num_split_files w) (file_text w) (temp_dir w) (other_text w)
    (save_path w) (trace w ++ [e]).

(** A method runs on a world and leaves a world, also when it raises. *)
Definition M (A : Type) : Type := world -> result A * world.

Definition ret {A} (a : A) : M A := fun w => (Ok a, w).
Definition raise {A} (e : exn) : M A := fun w => (Raise e, w).
Definition bindM {A B} (m : M A) (k : A -> M B) : M B :=
  fun w =>
    match m w with
    | (Ok a, w') => k a w'
    | (Raise e, w') => (Raise e, w')
    end.
Definition get : M world := fun w => (Ok w, w).
Definition modify (f : world -> world) : M unit := fun w => (Ok tt, f w).
Definition lift {A} (r : result A) : M A := fun w => (r, w).

Declare Scope run_scope.
Delimit Scope run_scope with run.
Notation "'let*' x ':=' m 'in' k" := (bindM m (fun x => k))
  (at level 10, x pattern, m at level 100, k at level 200) : run_scope.
Notation "m ';;' k" := (bindM m (fun _ => k))
  (at level 100, k at level 200, right associativity) : run_scope.
Local Open Scope run_scope.

(** [__init__]; [default_buffer_size] is [io.DEFAULT_BUFFER_SIZE] and
    [available] what [psutil.virtual_memory().available] returns. *)
Definition __init__ (default_buffer_size available : Z)
    (memory_limit buffer_size : option Z) (update_buffer_size : bool)
    (file_text : string) (temp_dir : option (gmap string string))
    (saved : option string) : world :=
  let or_else (x : option Z) (d : Z) :=
    match x with
    | Some v => if (v =? 0)%Z then d else v
    | None => d
    end in
  World (or_else memory_limit available)
        (or_else buffer_size default_buffer_size)
        update_buffer_size "" 0 file_text temp_dir saved Elsewhere [].

(** [temp_dir.mkdir(exist_ok=True, parents=True)] *)
Definition _make_temp_dir : M unit :=
  modify (fun w => set_temp_dir (Some (default ∅ (temp_dir w))) w).

(** The name, inside [temp_dir], of the path that [_make_tempfile_path]
    returns.  A call without [pass_index] formats [None]. *)
Definition _make_tempfile_path (file_index : nat) (pass_index : option nat)
    : M string :=
  let* w := get in
  if String.eqb (mode w) "split" then
    ret ("split_" +:+ format_nat file_index +:+ ".txt")
  else if String.eqb (mode w) "merge" then
    ret ("merge_" +:+ from_option format_nat "None" pass_index +:+ "_"
           +:+ format_nat file_index +:+ ".txt")
  else raise ValueError.

(** [open(name, 'w')] in [temp_dir], the [write] calls, and the close. *)
Definition write_file (name text : string) : M unit :=
  let* w := get in
  match temp_dir w with
  | Some d => modify (set_temp_dir (Some (<[name := text]> d)))
  | None => raise FileNotFoundError
  end.

(** The [while block_lines] loop of [_split]; [f] holds the lines of
    the input not read yet.  Every block read by the loop has a line, so
    the number of lines of the input bounds the iterations. *)
Fixpoint _split_loop (fuel : nat) (block_index : nat)
    (block_lines f : list string) : M nat :=
  match fuel with
  | O => ret block_index
  | S fuel' =>
      match block_lines with
      | [] => ret block_index
      | _ :: _ =>
          let heap := Heapq.heapify str_lt block_lines in
          let* save_path := _make_tempfile_path block_index None in
          write_file save_path
            (written (Heapq.pop_all str_lt (length block_lines) heap));;
          let* w := get in
          let '(block_lines, f) := readlines (memory_limit w) f in
          _split_loop fuel' (block_index + 1) block_lines f
      end
  end.

Definition _split : M unit :=
  modify (set_mode "split");;
  let* w := get in
  let f := lines_of (file_text w) in
  let block_index := 0 in
  let '(block_lines, f') := readlines (memory_limit w) f in
  let* block_index := _split_loop (length f) block_index block_lines f' in
  modify (set_num_split_files block_index).

(** [open(file, buffering=self.buffer_size)] for reading: the buffer
    size has to fit a C [int], the file has to exist, and text I/O
    cannot be unbuffered; the three are checked in this order. *)
Definition open_read (file : string) : M unit :=
  let* w := get in
  if negb (c_int_ok (buffer_size w)) then raise OverflowError else
  match temp_dir w with
  | Some d =>
      match d !! file with
      | Some _ =>
          if (buffer_size w =? 0)%Z then raise ValueError else ret tt
      | None => raise FileNotFoundError
      end
  | None => raise FileNotFoundError
  end.

Fixpoint open_all (files : list string) : M unit :=
  match files with
  | [] => ret tt
  | file :: more => open_read file;; open_all more
  end.

(** [os.remove(file_name)] in [temp_dir]. *)
Definition remove (file_name : string) : M unit :=
  let* w := get in
  match temp_dir w with
  | Some d =>
      match d !! file_name with
      | Some _ => modify (set_temp_dir (Some (delete file_name d)))
      | None => raise FileNotFoundError
      end
  | None => raise FileNotFoundError
  end.

Fixpoint remove_all (files : list string) : M unit :=
  match files with
  | [] => ret tt
  | file_name :: more => remove file_name;; remove_all more
  end.

(** [_merge_files].  The inputs are opened first; opening [save_path]
    for writing, with a buffer size that fits a C [int], creates it or
    empties it, and fails after that for a buffer size of 0; the inputs
    are read only then, by the merge, so they are read from the
    directory as it is after that. *)
Definition _merge_files (files : list string) (save_path : string) : M unit :=
  modify (log (MergeFiles files save_path));;
  open_all files;;
  let* w := get in
  if negb (c_int_ok (buffer_size w)) then raise OverflowError else
  write_file save_path "";;
  let* w := get in
  if (buffer_size w =? 0)%Z then raise ValueError else
  let opened_files :=
    (fun file => lines_of (default "" (default ∅ (temp_dir w) !! file)))
      <$> files in
  write_file save_path (written (Heapq.merge str_lt opened_files));;
  remove_all files.

(** [_move_to_save_path]: [os.rename] to [save_path] (given, or derived
    from [file_path]), which replaces the file that is there, then
    [os.removedirs], which fails on a directory that is not empty. *)
Definition _move_to_save_path (temp_path : string) : M unit :=
  let* w := get in
  match temp_dir w with
  | Some d =>
      match d !! temp_path with
      | Some text =>
          modify (fun w => log (Rename temp_path)
                    (write_saved text
                       (set_temp_dir (Some (delete temp_path d)) w)));;
          if decide (delete temp_path d = ∅) then
            modify (fun w => log RemoveDirs (set_temp_dir None w))
          else raise OSError
      | None => raise FileNotFoundError
      end
  | None => raise FileNotFoundError
  end.

Section listing.
(** [iterdir] lists a directory in an order that the program does not
    choose. *)
Variable iterdir : gmap string string -> list string.

(** [for start_index in range(0, num_split_files, num_files_to_merge)],
    for a positive step [X]; [save_path_tmp] is [None] until it is
    assigned. *)
Fixpoint _merge_groups (fuel X : nat) (temp_files : list string)
    (start_index merge_index : nat) (save_path_tmp : option string)
    : M (option string) :=
  match fuel with
  | O => ret save_path_tmp
  | S fuel' =>
      if start_index <? length temp_files then
        let files_to_merge := take X (drop start_index temp_files) in
        let file_index := (start_index + (X - 1)) / X in
        let* save_path_tmp :=
          _make_tempfile_path file_index (Some merge_index) in
        _merge_files files_to_merge save_path_tmp;;
        _merge_groups fuel' X temp_files (start_index + X) merge_index
          (Some save_path_tmp)
      else ret save_path_tmp
  end.

(** One iteration of [for merge_index in range(num_merges)]. *)
Definition _merge_pass (num_files_to_merge : Z) (merge_index : nat)
    (save_path_tmp : option string) : M (option string) :=
  let* w := get in
  match temp_dir w with
  | Some d =>
      let temp_files := iterdir d in
      if (num_files_to_merge =? 0)%Z then raise ValueError
      else if (num_files_to_merge <? 0)%Z then ret save_path_tmp
      else _merge_groups (length temp_files) (Z.to_nat num_files_to_merge)
             temp_files 0 merge_index save_path_tmp
  | None => raise FileNotFoundError
  end.

Fixpoint _merge_passes (count : nat) (num_files_to_merge : Z)
    (merge_index : nat) (save_path_tmp : option string)
    : M (option string) :=
  match count with
  | O => ret save_path_tmp
  | S count' =>
      let* save_path_tmp :=
        _merge_pass num_files_to_merge merge_index save_path_tmp in
      _merge_passes count' num_files_to_merge (merge_index + 1) save_path_tmp
  end.

Definition _merge : M unit :=
  modify (set_mode "merge");;
  let* w := get in
  if num_split_files w =? 1 then _move_to_save_path "split_0.txt"
  else
    let* (num_merges, num_files_to_merge, buffer_size) :=
      lift (Planner._get_pass_params (memory_limit w) (buffer_size w)
              (num_split_files w) (update_buffer_size w)) in
    modify (set_buffer_size buffer_size);;
    let* save_path_tmp :=
      _merge_passes (Z.to_nat num_merges) num_files_to_merge 0 None in
    match save_path_tmp with
    | Some save_path_tmp => _move_to_save_path save_path_tmp
    | None => raise UnboundLocalError
    end.

(** [sort(file_path, save_path)].  The two arguments of the call are
    held by the world: [file_text] is the text of the file at
    [file_path], and [save_path] tells whether the result goes to that
    very file or to another one. *)
Definition sort : M unit :=
  _make_temp_dir;; _split;; _merge.
End listing.
End Sorter.


(** * Specification predicates *)

(** ** Heap order on an array *)

Module HeapSpec.
Section preds.
Context {A : Type}.
Variable lt : A -> A -> bool.

Definition parent (i : nat) : nat := (i - 1) / 2.

(** Every item whose parent sits at index [s] or later is not smaller
    than its parent. *)
Definition heap_from (s : nat) (l : list A) : Prop :=
  forall i x y, 0 < i -> s <= parent i ->
    l !! i = Some x -> l !! parent i = Some y -> lt x y = false.

(** The same, except for the pairs that touch the position [pos]. *)
Definition heap_hole (s pos : nat) (l : list A) : Prop :=
  forall i x y, 0 < i -> s <= parent i -> i <> pos -> parent i <> pos ->
    l !! i = Some x -> l !! parent i = Some y -> lt x y = false.

(** [v] is not above any child of [pos]. *)
Definition below (v : A) (pos : nat) (l : list A) : Prop :=
  forall c x, 0 < c -> parent c = pos -> l !! c = Some x -> lt x v = false.

(** The parent of [pos], when [pos] is below [s], is not above any child
    of [pos]. *)
Definition grand_ok (s pos : nat) (l : list A) : Prop :=
  s < pos -> forall y, l !! parent pos = Some y -> below y pos l.

Definition is_heap (l : list A) : Prop := heap_from 0 l.

(** [pos] lies in the subtree rooted at [s]. *)
Inductive in_subtree (s : nat) : nat -> Prop :=
| in_subtree_root : in_subtree s s
| in_subtree_child c : 0 < c -> in_subtree s (parent c) -> in_subtree s c.

(** [x] is a lower bound of [l] for Python's [<]. *)
Definition lower_bound (x : A) (l : list A) : Prop :=
  forall y, y ∈ l -> lt y x = false.
End preds.
End HeapSpec.

(** ** The k-way merge, stated without a heap

    [pick] names the input to serve next: the one whose current head line
    is least and, when several heads are equal, the earliest of them in
    the list of inputs.  [merge_by_pick] serves the inputs in that order.
    [heapq.merge] is compared with it in [MergeFacts]. *)

Module MergeSpec.
Section spec.
Context {V : Type}.
Variable lt : V -> V -> bool.

Fixpoint pick (order : nat) (streams : list (list V)) : option (V * nat) :=
  match streams with
  | [] => None
  | s :: more =>
      match s, pick (S order) more with
      | [], r => r
      | x :: _, None => Some (x, order)
      | x :: _, Some (y, o) => if lt y x then Some (y, o) else Some (x, order)
      end
  end.

Fixpoint merge_by_pick (fuel : nat) (streams : list (list V))
    : list (V * nat) :=
  match fuel with
  | O => []
  | S fuel' =>
      match pick 0 streams with
      | None => []
      | Some (x, o) => (x, o) :: merge_by_pick fuel' (alter tail o streams)
      end
  end.

(** The current head of every input that has one, with its index. *)
Fixpoint heads (order : nat) (streams : list (list V)) : list (V * nat) :=
  match streams with
  | [] => []
  | [] :: more => heads (S order) more
  | (x :: _) :: more => (x, order) :: heads (S order) more
  end.

(** The lines of every input, each with the index of its input. *)
Fixpoint tagged (order : nat) (streams : list (list V)) : list (V * nat) :=
  match streams with
  | [] => []
  | s :: more => ((fun v => (v, order)) <$> s) ++ tagged (S order) more
  end.
End spec.
End MergeSpec.

(** ** Texts, lines and the blocks of the split phase *)

Module SplitSpec.
Import PyStr.

(** A line with its newline at the end, and nowhere else. *)
Fixpoint is_line (s : string) : bool :=
  match s with
  | EmptyString => false
  | String c rest =>
      if Ascii.eqb c newline then String.eqb rest EmptyString
      else is_line rest
  end.

(** A text of line-terminated records: empty, or ending in a newline. *)
Fixpoint terminated (text : string) : bool :=
  match text with
  | EmptyString => true
  | String c EmptyString => Ascii.eqb c newline
  | String _ rest => terminated rest
  end.

(** An [int] that fits [Py_ssize_t]: [readlines] converts its [hint]
    to one, and raises [OverflowError] otherwise.  What is stated of a
    run that reads the input is stated for such a [memory_limit]. *)
Definition ssize_ok (n : Z) : bool :=
  ((- 2 ^ 63 <=? n) && (n <? 2 ^ 63))%Z.

(** The cumulative size of a block of lines, in characters. *)
Definition block_size (block : list string) : Z :=
  foldr (fun line n => (len line + n)%Z) 0%Z block.

(** The non-empty blocks that the loop of [_split] sees, given the block
    already read and the lines left. *)
Fixpoint split_blocks (fuel : nat) (hint : Z) (block f : list string)
    : list (list string) :=
  match fuel with
  | O => []
  | S fuel' =>
      match block with
      | [] => []
      | _ :: _ =>
          let '(block', f') := readlines hint f in
          block :: split_blocks fuel' hint block' f'
      end
  end.

(** The blocks of a whole text. *)
Definition blocks_of (hint : Z) (text : string) : list (list string) :=
  let f := lines_of text in
  let '(block, f') := readlines hint f in
  split_blocks (length f) hint block f'.

(** The names of the temporary files. *)
Definition split_name (i : nat) : string :=
  "split_" +:+ format_nat i +:+ ".txt".
Definition merge_name (p i : nat) : string :=
  "merge_" +:+ format_nat p +:+ "_" +:+ format_nat i +:+ ".txt".

(** The characters that [format_nat] produces. *)
Definition is_digit (c : ascii) : bool :=
  (48 <=? nat_of_ascii c) && (nat_of_ascii c <=? 57).

(** The chunk files written for a list of blocks, numbered from [i]. *)
Fixpoint chunk_files (i : nat) (blocks : list (list string))
    (d : gmap string string) : gmap string string :=
  match blocks with
  | [] => d
  | block :: more =>
      chunk_files (S i) more
        (<[split_name i := written (Heapq.heapsort str_lt block)]> d)
  end.

(** All the lines held by the files of a directory. *)
Definition lines_in (d : gmap string string) : list string :=
  concat ((fun kv => lines_of kv.2) <$> map_to_list d).

(** A file of the workspace is in order: its lines are complete and
    sorted. *)
Definition sorted_lines (lines : list string) : Prop :=
  StronglySorted (fun a b => str_lt b a = false) lines.
Definition good_text (text : string) : Prop :=
  Forall (fun l => is_line l = true) (lines_of text) /\
  sorted_lines (lines_of text).
End SplitSpec.

(** ** The workspace between two passes *)

Module SortSpec.
Import Py PyStr SplitSpec Sorter.

(** What a method leaves alone when it only works in the workspace. *)
Definition config (w : world) :=
  (memory_limit w, buffer_size w, update_buffer_size w, mode w,
   num_split_files w, file_text w, saved w).

(** No file of the directory has a name of pass [p]. *)
Definition fresh_for (p : nat) (d : gmap string string) : Prop :=
  forall i, d !! merge_name p i = None.

(** The directory holds [n] files, each with complete lines in order,
    and together they hold the lines [L]; no file has a name of pass [p]
    or of a later pass. *)
Definition workspace_ok (p n : nat) (L : list string)
    (d : gmap string string) : Prop :=
  size d = n /\
  map_Forall (fun _ text => good_text text) d /\
  lines_in d ≡ₚ L /\
  forall q, p <= q -> fresh_for q d.

(** The directory without the files named in [files]. *)
Definition without (files : list string) (d : gmap string string)
    : gmap string string :=
  foldl (fun m f => delete f m) d files.

(** The texts of the files named in [files]. *)
Definition texts_of (files : list string) (d : gmap string string)
    : list string :=
  (fun file => default "" (d !! file)) <$> files.

(** What [_merge_files] writes for these inputs. *)
Definition merged (files : list string) (d : gmap string string) : string :=
  written (Heapq.merge str_lt (lines_of <$> texts_of files d)).

(** The number of groups of [X] files among [n] files. *)
Definition groups (n X : nat) : nat := (n + (X - 1)) / X.

(** A buffer size with which [open] opens a text file. *)
Definition opens (b : Z) : Prop := c_int_ok b = true /\ b <> 0%Z.

(** The buffer size that the planner returns for a fan-in of [n]. *)
Definition planned_buffer (w : world) (n : nat) : Z :=
  if update_buffer_size w then (memory_limit w / (Z.of_nat n + 1))%Z
  else buffer_size w.

(** The runs that need one pass at most.  The input makes one chunk; or
    it makes [n] chunks and a buffer for each of them and one more fit
    in memory, [(n + 1) * buffer_size <= memory_limit], for a memory
    limit that a [float] holds exactly and a planned buffer size that
    fits a C [int].  In both cases [memory_limit] fits [Py_ssize_t]. *)
Definition one_pass (w : world) : Prop :=
  let n := length (blocks_of (memory_limit w) (file_text w)) in
  ssize_ok (memory_limit w) = true /\
  (n = 1 \/
   ((0 < buffer_size w)%Z /\
    ((Z.of_nat n + 1) * buffer_size w <= memory_limit w)%Z /\
    (memory_limit w < 2 ^ 53)%Z /\
    c_int_ok (planned_buffer w n) = true)).
End SortSpec.

(** ** Concrete inputs used in the examples *)

Module Samples.
Import PyStr Sorter.

(** One possible listing order of a directory: the order of its map. *)
Definition listdir (d : gmap string string) : list string :=
  (map_to_list d).*1.

Definition nl : string := String newline EmptyString.

(** The example of the specification: four lines, two per chunk. *)
Definition fruit : string :=
  "banana" +:+ nl +:+ "apple" +:+ nl +:+ "cherry" +:+ nl +:+ "apple" +:+ nl.
Definition fruit_world : world :=
  __init__ 8192 1000000 (Some 12%Z) (Some 4%Z) true fruit None None.

(** Two lines in one chunk, not in order. *)
Definition ba : string := "b" +:+ nl +:+ "a" +:+ nl.
Definition ba_world : world :=
  __init__ 8192 1000000 (Some 100%Z) (Some 4%Z) true ba None None.

(** An empty input, with the default buffer size. *)
Definition empty_world : world :=
  __init__ 8192 1000000 None None true EmptyString None None.


(** A workspace with two sorted files, ready for a merge. *)
Definition two_files_world : world :=
  World 100 4 true "merge" 2 EmptyString
    (Some (<["x.txt" := "a" +:+ nl +:+ "c" +:+ nl]>
             (<["y.txt" := "a" +:+ nl +:+ "b" +:+ nl]> ∅)))
    None Elsewhere [].
End Samples.


(** * The generator of test files ([generate_file.py]) *)

Module Generator.
Import Py PyStr.

(** numpy's global generator, as the raw draws it will hand out and the
    number of draws taken so far.  Any sequence of outcomes is the run on
    some [draws]. *)
Record rng : Type := Rng { draws : nat -> nat; taken : nat }.

Definition next_draw (g : rng) : nat * rng :=
  (draws g (taken g), Rng (draws g) (S (taken g))).

(** [string.ascii_letters] as a list. *)
Definition VOCABULARY : list ascii :=
  list_ascii_of_string "abcdefghijklmnopqrstuvwxyzABCDEFGHIJKLMNOPQRSTUVWXYZ".

(** [np.random.randint(low, high)]: an integer of [[low, high)], of
    [[0, low)] when [high] is [None]; [ValueError] on an empty range. *)
Definition randint (low : Z) (high : option Z) (g : rng) : result Z * rng :=
  let '(lo, hi) := match high with
                   | Some h => (low, h)
                   | None => (0%Z, low)
                   end in
  if (hi <=? lo)%Z then (Raise ValueError, g)
  else
    let '(x, g') := next_draw g in
    (Ok (lo + Z.of_nat x mod (hi - lo))%Z, g').

(** [np.random.choice(a, size=size, replace=True)] on a list [a]. *)
Fixpoint choice_loop (a : list ascii) (size : nat) (g : rng)
    : list ascii * rng :=
  match size with
  | O => ([], g)
  | S size' =>
      let '(x, g1) := next_draw g in
      let '(chars, g2) := choice_loop a size' g1 in
      (nth (x mod length a) a "a"%char :: chars, g2)
  end.

Definition choice (a : list ascii) (size : Z) (g : rng)
    : result (list ascii) * rng :=
  if (size <? 0)%Z then (Raise ValueError, g)
  else if decide (a = [] /\ size <> 0%Z) then (Raise ValueError, g)
  else
    let '(chars, g') := choice_loop a (Z.to_nat size) g in
    (Ok chars, g').

Definition generate_random_string (string_len : Z) (g : rng)
    : result string * rng :=
  match choice VOCABULARY string_len g with
  | (Ok chars, g') => (Ok (string_of_list_ascii chars), g')
  | (Raise e, g') => (Raise e, g')
  end.

(** The loop of [generate_text_file]; [text] is what the file holds so
    far.  The file keeps it when the loop raises. *)
Fixpoint write_lines (num_lines : nat) (max_string_len : option Z)
    (text : string) (g : rng) : result unit * string * rng :=
  match num_lines with
  | O => (Ok tt, text, g)
  | S num_lines' =>
      match randint 1 max_string_len g with
      | (Raise e, g1) => (Raise e, text, g1)
      | (Ok string_len, g1) =>
          match generate_random_string string_len g1 with
          | (Raise e, g2) => (Raise e, text, g2)
          | (Ok s, g2) =>
              let current_string := s +:+ String newline EmptyString in
              write_lines num_lines' max_string_len
                (text +:+ current_string) g2
          end
      end
  end.

(** [generate_text_file]: the outcome, the text of the file at
    [file_path] after the call, and the generator. *)
Definition generate_text_file (num_lines : Z) (max_string_len : option Z)
    (g : rng) : result unit * string * rng :=
  write_lines (Z.to_nat num_lines) max_string_len EmptyString g.

(** A letter of [string.ascii_letters]. *)
Definition is_letter (c : ascii) : bool :=
  let n := nat_of_ascii c in
  ((97 <=? n) && (n <=? 122)) || ((65 <=? n) && (n <=? 90)).

(** A line that [generate_text_file] can write for a bound [m]: letters,
    at least one and fewer than [m], then the newline. *)
Definition generated_line (m : Z) (line : string) : Prop :=
  exists s,
    line = s +:+ String newline EmptyString /\
    Forall (fun c => is_letter c = true) (list_ascii_of_string s) /\
    (1 <= len s < m)%Z.
End Generator.

(** * The command line of [external_sort.py] *)

Module Cli.
Import Py PyStr Sorter.

(** [bool(s)] on a [str], the conversion [argparse] applies for
    [type=bool]. *)
Definition py_bool (s : string) : bool := negb (String.eqb s EmptyString).

(** The options as [argparse] leaves them: the two sizes converted by
    [int], and [--update-buffer-size] with the text given for it. *)
Record args : Type := Args {
  arg_memory_limit : option Z;
  arg_buffer_size : option Z;
  arg_update_buffer_size : option string
}.

(** The sorter that the script builds from the options. *)
Definition merge_sort (default_buffer_size available : Z) (a : args)
    (file_text : string) (temp_dir : option (gmap string string))
    (saved : option string) : world :=
  __init__ default_buffer_size available
    (arg_memory_limit a) (arg_buffer_size a)
    (from_option py_bool true (arg_update_buffer_size a))
    file_text temp_dir saved.
End Cli.

(** * What a run leaves alone *)

Module FrameSpec.
Import Py PyStr Sorter.

(** What no method assigns: the destination of the call and two
    settings of the sorter; and the input file, for a destination that
    is another file. *)
Definition same_input (w w' : world) : Prop :=
  save_path w' = save_path w /\
  memory_limit w' = memory_limit w /\
  update_buffer_size w' = update_buffer_size w /\
  (save_path w = Elsewhere -> file_text w' = file_text w).

(** A method that leaves them alone, whatever its outcome. *)
Definition keeps {A} (m : M A) : Prop :=
  forall w r w', m w = (r, w') -> same_input w w'.

(** No newline in a string. *)
Fixpoint no_newline (s : string) : bool :=
  match s with
  | EmptyString => true
  | String c rest => negb (Ascii.eqb c newline) && no_newline rest
  end.
End FrameSpec.

(** * More concrete inputs *)

Module MoreSamples.
Import PyStr Sorter Samples.

(** Five lines: three chunks under a memory limit of 12. *)
Definition five : string := fruit +:+ "date" +:+ nl.

(** A workspace left behind with one file in it. *)
Definition stale_dir : gmap string string := <["old.txt" := "zebra" +:+ nl]> ∅.
Definition stale_world : world :=
  __init__ 8192 1000000 (Some 12%Z) (Some 4%Z) true five (Some stale_dir) None.
Definition stale_small_world : world :=
  __init__ 8192 1000000 (Some 100%Z) (Some 4%Z) true ba (Some stale_dir) None.

(** Two chunks, and room for two buffers only. *)
Definition tight_world : world :=
  __init__ 8192 1000000 (Some 12%Z) (Some 6%Z) true fruit None None.

(** The example of the specification, sorted in place:
    [sort(file_path, save_path=file_path)]. *)
Definition in_place_world : world := set_save_path Input fruit_world.

(** An input whose last line has no newline. *)
Definition open_ended_world : world :=
  __init__ 8192 1000000 (Some 100%Z) (Some 4%Z) true
    ("b" +:+ nl +:+ "a") None None.

(** A generator that draws 0, 1, 2, ... and the file that
    [generate_text_file] writes with it for two lines shorter than 3. *)
Definition count_rng : Generator.rng := Generator.Rng (fun i => i) 0.
Definition generated_text : string :=
  (Generator.generate_text_file 2 (Some 3%Z) count_rng).1.2.
Definition generated_world : world :=
  __init__ 8192 1000000 (Some 100%Z) (Some 4%Z) true generated_text None None.
End MoreSamples.


(** * Theory of the binary heap *)

Example heapify_ex :
  Heapq.heapify Nat.ltb [5; 3; 8; 1; 9; 2; 7] = [1; 3; 2; 5; 9; 8; 7].
Proof. reflexivity. Qed.

Example heapsort_ex :
  Heapq.heapsort Nat.ltb [5; 3; 8; 1; 9; 2; 7; 3] = [1; 2; 3; 3; 5; 7; 8; 9].
Proof. reflexivity. Qed.

Example merge_ex :
  Heapq.merge_tagged Nat.ltb [[1; 4; 4]; []; [2; 4]; [0; 1; 9]] =
  [(0, 3); (1, 0); (1, 3); (2, 2); (4, 0); (4, 0); (4, 2); (9, 3)].
Proof. reflexivity. Qed.

Module HeapFacts.
Import Heapq HeapSpec.

Lemma parent_lt i : 0 < i -> parent i < i.
Proof.
  intros Hi. unfold parent.
  pose proof (Nat.div_mod_eq (i - 1) 2) as E.
  pose proof (Nat.mod_upper_bound (i - 1) 2). lia.
Qed.

Lemma parent_children c p :
  0 < c -> (parent c = p <-> c = 2 * p + 1 \/ c = 2 * p + 2).
Proof.
  intros Hc. unfold parent.
  pose proof (Nat.div_mod_eq (c - 1) 2) as E.
  pose proof (Nat.mod_upper_bound (c - 1) 2). lia.
Qed.

Lemma in_subtree_le s pos : in_subtree s pos -> s <= pos.
Proof.
  induction 1 as [|c Hc _ IH]; [done|]. pose proof (parent_lt c Hc). lia.
Qed.

Lemma in_subtree_parent s pos :
  in_subtree s pos -> s < pos -> in_subtree s (parent pos).
Proof. destruct 1; [lia|done]. Qed.

Section order.
Context {A : Type} (lt : A -> A -> bool).
Hypothesis lt_irrefl : forall a, lt a a = false.
Hypothesis lt_trans : forall a b c, lt a b = true -> lt b c = true -> lt a c = true.
Hypothesis lt_total : forall a b, lt a b = false -> lt b a = false -> a = b.

Lemma lt_asym a b : lt a b = true -> lt b a = false.
Proof.
  intros Hab. destruct (lt b a) eqn:Hba; [|done].
  by rewrite <- (lt_irrefl a), (lt_trans a b a).
Qed.

Lemma lt_le_trans a b c : lt a b = true -> lt c b = false -> lt c a = false.
Proof.
  intros Hab Hbc. destruct (lt c a) eqn:Hca; [|done].
  by rewrite <- Hbc, (lt_trans c a b).
Qed.

Lemma le_trans a b c : lt b a = false -> lt c b = false -> lt c a = false.
Proof.
  intros Hab Hbc. destruct (lt a b) eqn:E.
  - by eapply lt_le_trans.
  - by rewrite (lt_total a b).
Qed.

(** *** [_siftdown]: bubbling [newitem] up from [pos] towards [startpos] *)

Lemma heap_hole_fill s newitem l pos :
  pos < length l ->
  heap_hole lt s pos l -> below lt newitem pos l ->
  (0 < pos -> s <= parent pos ->
     forall y, l !! parent pos = Some y -> lt newitem y = false) ->
  heap_from lt s (<[pos := newitem]> l).
Proof.
  intros Hlen Hh Hb Hp i x y Hi Hs Hx Hy.
  destruct (decide (i = pos)) as [->|Hne].
  - rewrite list_lookup_insert_eq in Hx by done.
    rewrite list_lookup_insert_ne in Hy by (pose proof (parent_lt pos); lia).
    simplify_eq. by apply Hp.
  - rewrite list_lookup_insert_ne in Hx by done.
    destruct (decide (parent i = pos)) as [E|Hne'].
    + rewrite E, list_lookup_insert_eq in Hy by done. simplify_eq. eauto.
    + rewrite list_lookup_insert_ne in Hy by done. eauto.
Qed.

Lemma _siftdown_loop_S fuel l s pos newitem :
  _siftdown_loop lt (S fuel) l s pos newitem =
  if s <? pos then
    match l !! parent pos with
    | Some par =>
        if lt newitem par
        then _siftdown_loop lt fuel (<[pos := par]> l) s (parent pos) newitem
        else <[pos := newitem]> l
    | None => <[pos := newitem]> l
    end
  else <[pos := newitem]> l.
Proof. reflexivity. Qed.

Lemma _siftdown_loop_spec s newitem fuel : forall l pos,
  pos <= fuel -> pos < length l -> in_subtree s pos ->
  heap_hole lt s pos l -> below lt newitem pos l -> grand_ok lt s pos l ->
  heap_from lt s (_siftdown_loop lt fuel l s pos newitem) /\
  _siftdown_loop lt fuel l s pos newitem ≡ₚ <[pos := newitem]> l.
Proof.
  induction fuel as [|fuel IH]; intros l pos Hfuel Hlen Hs Hh Hb Hg.
  { split; [|reflexivity]. apply heap_hole_fill; auto; lia. }
  rewrite _siftdown_loop_S.
  pose proof (in_subtree_le _ _ Hs) as Hsle.
  destruct (s <? pos) eqn:Hlt; [apply Nat.ltb_lt in Hlt|apply Nat.ltb_ge in Hlt].
  2:{ split; [|reflexivity]. apply heap_hole_fill; auto.
      intros Hpos. pose proof (parent_lt pos Hpos). lia. }
  pose proof (parent_lt pos ltac:(lia)) as Hpp.
  destruct (l !! parent pos) as [par|] eqn:Hpar.
  2:{ apply lookup_ge_None in Hpar. lia. }
  destruct (lt newitem par) eqn:Hcmp.
  2:{ split; [|reflexivity]. apply heap_hole_fill; auto. intros _ _ y ?. by simplify_eq. }
  pose proof (in_subtree_parent _ _ Hs Hlt) as Hsp.
  pose proof (in_subtree_le _ _ Hsp) as Hsple.
  destruct (IH (<[pos := par]> l) (parent pos)) as [IH1 IH2].
  - lia.
  - rewrite length_insert. lia.
  - done.
  - (* the hole moves to the parent *)
    intros i x y Hi Hsi Hne Hne' Hx Hy.
    destruct (decide (i = pos)) as [->|Hnp]; [done|].
    rewrite list_lookup_insert_ne in Hx by done.
    destruct (decide (parent i = pos)) as [E|Hnp'].
    + rewrite E, list_lookup_insert_eq in Hy by done. simplify_eq.
      eapply (Hg Hlt); eauto.
    + rewrite list_lookup_insert_ne in Hy by done. eauto.
  - (* [newitem] is below both children of the parent *)
    intros c x Hc Hcp Hx.
    destruct (decide (c = pos)) as [->|Hnp].
    + rewrite list_lookup_insert_eq in Hx by done. simplify_eq.
      by apply lt_asym.
    + rewrite list_lookup_insert_ne in Hx by done.
      apply (lt_le_trans _ par); [done|].
      apply (Hh c x par); auto; try lia; by rewrite Hcp.
  - (* the grandparent is below both children of the parent *)
    intros Hgt y Hy c x Hc Hcp Hx.
    pose proof (parent_lt (parent pos) ltac:(lia)).
    rewrite list_lookup_insert_ne in Hy by lia.
    pose proof (in_subtree_parent _ _ Hsp Hgt) as Hspp.
    pose proof (in_subtree_le _ _ Hspp).
    assert (lt par y = false) as Hpy.
    { apply (Hh (parent pos) par y); auto; lia. }
    destruct (decide (c = pos)) as [->|Hnp].
    + rewrite list_lookup_insert_eq in Hx by done. by simplify_eq.
    + rewrite list_lookup_insert_ne in Hx by done.
      apply (le_trans _ par); [done|].
      apply (Hh c x par); auto; try lia; by rewrite Hcp.
  - split; [done|]. rewrite IH2.
    rewrite <- (list_insert_insert_eq l pos par newitem).
    apply Permutation_insert_swap.
    + apply list_lookup_insert_eq. done.
    + by rewrite list_lookup_insert_ne by lia.
Qed.

(** *** [_siftup]: the smaller child moves up until a leaf is reached *)

Lemma _siftup_loop_S fuel l endpos pos :
  _siftup_loop lt (S fuel) l endpos pos =
  if 2 * pos + 1 <? endpos then
    match l !! smaller_child lt l endpos (2 * pos + 1) with
    | Some c => _siftup_loop lt fuel (<[pos := c]> l) endpos
                  (smaller_child lt l endpos (2 * pos + 1))
    | None => (l, pos)
    end
  else (l, pos).
Proof. reflexivity. Qed.

Lemma smaller_child_spec l pos :
  2 * pos + 1 < length l ->
  exists x,
    l !! smaller_child lt l (length l) (2 * pos + 1) = Some x /\
    0 < smaller_child lt l (length l) (2 * pos + 1) /\
    parent (smaller_child lt l (length l) (2 * pos + 1)) = pos /\
    below lt x pos l.
Proof.
  intros Hlen. unfold smaller_child.
  destruct (l !! (2 * pos + 1)) as [c|] eqn:Hc.
  2:{ apply lookup_ge_None in Hc. lia. }
  assert (forall k, k = 2 * pos + 1 \/ k = 2 * pos + 2 -> 0 < k /\ parent k = pos)
    as Hkids.
  { intros k Hk. split; [lia|]. apply parent_children; lia. }
  destruct (l !! (2 * pos + 1 + 1)) as [r|] eqn:Hr.
  - destruct (2 * pos + 1 + 1 <? length l) eqn:Hlt; simpl.
    2:{ apply Nat.ltb_ge in Hlt. apply lookup_lt_Some in Hr. lia. }
    destruct (lt c r) eqn:Hcr; simpl.
    + exists c. split; [done|]. destruct (Hkids (2 * pos + 1)) as [? ?]; [lia|].
      do 2 (split; [done|]). intros k x Hk Hpk Hx.
      apply parent_children in Hpk as [->| ->]; [| |done]; simplify_eq; [done|].
      replace (2 * pos + 2) with (2 * pos + 1 + 1) in Hx by lia.
      simplify_eq. by apply lt_asym.
    + exists r. split; [done|]. destruct (Hkids (2 * pos + 1 + 1)) as [? ?]; [lia|].
      do 2 (split; [done|]). intros k x Hk Hpk Hx.
      apply parent_children in Hpk as [->| ->]; [| |done]; simplify_eq; [done|].
      replace (2 * pos + 2) with (2 * pos + 1 + 1) in Hx by lia.
      by simplify_eq.
  - exists c. split; [done|]. destruct (Hkids (2 * pos + 1)) as [? ?]; [lia|].
    do 2 (split; [done|]). intros k x Hk Hpk Hx.
    apply parent_children in Hpk as [->| ->]; [| |done]; simplify_eq; [done|].
    replace (2 * pos + 2) with (2 * pos + 1 + 1) in Hx by lia. congruence.
Qed.

Lemma _siftup_loop_spec s newitem fuel : forall l pos l' pos',
  length l <= fuel + pos -> pos < length l -> in_subtree s pos ->
  heap_hole lt s pos l -> grand_ok lt s pos l ->
  _siftup_loop lt fuel l (length l) pos = (l', pos') ->
  length l' = length l /\ pos' < length l /\ in_subtree s pos' /\
  length l <= 2 * pos' + 1 /\ heap_hole lt s pos' l' /\
  <[pos' := newitem]> l' ≡ₚ <[pos := newitem]> l.
Proof.
  induction fuel as [|fuel IH]; intros l pos l' pos' Hfuel Hlen Hs Hh Hg Hrun.
  { lia. }
  rewrite _siftup_loop_S in Hrun.
  destruct (2 * pos + 1 <? length l) eqn:Hlt;
    [apply Nat.ltb_lt in Hlt|apply Nat.ltb_ge in Hlt].
  2:{ by simplify_eq. }
  destruct (smaller_child_spec l pos Hlt) as (x & Hx & Hc0 & Hcp & Hbelow).
  set (c := smaller_child lt l (length l) (2 * pos + 1)) in *.
  rewrite Hx in Hrun.
  pose proof (lookup_lt_Some _ _ _ Hx) as Hclen.
  pose proof (parent_lt c Hc0) as Hpc. rewrite Hcp in Hpc.
  pose proof (in_subtree_le _ _ Hs) as Hsle.
  rewrite <- (length_insert l pos x) in Hrun.
  apply IH in Hrun; rewrite ?length_insert in *.
  - destruct Hrun as (H1 & H2 & H3 & H4 & H5 & H6).
    do 5 (split; [done|]). rewrite H6.
    rewrite <- (list_insert_insert_eq l pos x newitem).
    apply Permutation_insert_swap.
    + by apply list_lookup_insert_eq.
    + by rewrite list_lookup_insert_ne by lia.
  - lia.
  - done.
  - apply in_subtree_child; [done|by rewrite Hcp].
  - intros i a b Hi Hsi Hne Hne' Ha Hb.
    destruct (decide (i = pos)) as [->|Hnp].
    + rewrite list_lookup_insert_eq in Ha by done. simplify_eq.
      pose proof (parent_lt pos Hi).
      rewrite list_lookup_insert_ne in Hb by lia.
      apply (Hg ltac:(lia) b Hb c a); auto.
    + rewrite list_lookup_insert_ne in Ha by done.
      destruct (decide (parent i = pos)) as [E|Hnp'].
      * rewrite E, list_lookup_insert_eq in Hb by done. simplify_eq.
        by apply (Hbelow i).
      * rewrite list_lookup_insert_ne in Hb by done. eauto.
  - intros _ y Hy d a Hd Hdp Ha.
    rewrite Hcp, list_lookup_insert_eq in Hy by done. simplify_eq.
    pose proof (parent_lt d Hd).
    rewrite list_lookup_insert_ne in Ha by lia.
    apply (Hh d a y); auto; try lia; by rewrite Hdp.
Qed.

Lemma _siftup_spec s l :
  heap_from lt (S s) l -> s < length l ->
  heap_from lt s (_siftup lt l s) /\ _siftup lt l s ≡ₚ l.
Proof.
  intros Hheap Hlen. unfold _siftup.
  destruct (l !! s) as [newitem|] eqn:Hnew.
  2:{ apply lookup_ge_None in Hnew. lia. }
  destruct (_siftup_loop lt (length l) l (length l) s) as [l1 p1] eqn:Hrun.
  apply (_siftup_loop_spec s newitem) in Hrun
    as (Hl1 & Hp1 & Hsub & Hleaf & Hhole & Hperm).
  - unfold _siftdown. rewrite list_lookup_insert_eq by lia.
    destruct (_siftdown_loop_spec s newitem p1 (<[p1 := newitem]> l1) p1)
      as [Hres Hperm'].
    + done.
    + rewrite length_insert. lia.
    + done.
    + intros i x y Hi Hsi Hne Hne' Hx Hy.
      rewrite list_lookup_insert_ne in Hx, Hy by done. eauto.
    + intros c x Hc Hcp Hx. apply parent_children in Hcp; [|done].
      apply lookup_lt_Some in Hx. rewrite length_insert in Hx. lia.
    + intros _ y _ c x Hc Hcp Hx. apply parent_children in Hcp; [|done].
      apply lookup_lt_Some in Hx. rewrite length_insert in Hx. lia.
    + split; [done|].
      rewrite Hperm', list_insert_insert_eq, Hperm.
      by rewrite list_insert_id.
  - lia.
  - done.
  - constructor.
  - intros i x y Hi Hsi Hne Hne' Hx Hy. apply (Hheap i x y); auto. lia.
  - intros Hlt. lia.
Qed.

(** *** [heapify] *)

Lemma heap_from_leaves s (l : list A) : length l <= 2 * s + 1 -> heap_from lt s l.
Proof.
  intros Hlen i x y Hi Hs Hx _. apply lookup_lt_Some in Hx.
  pose proof (proj1 (parent_children i (parent i) Hi) eq_refl). lia.
Qed.

Lemma foldl__siftup_spec m : forall l,
  m <= length l -> heap_from lt m l ->
  is_heap lt (foldl (_siftup lt) l (reverse (seq 0 m))) /\
  foldl (_siftup lt) l (reverse (seq 0 m)) ≡ₚ l.
Proof.
  induction m as [|m IH]; intros l Hlen Hheap; [done|].
  rewrite seq_S, reverse_snoc. simpl.
  destruct (_siftup_spec m l Hheap) as [H1 H2]; [lia|].
  destruct (IH (_siftup lt l m)) as [H3 H4].
  - rewrite H2. lia.
  - done.
  - split; [done|]. by rewrite H4.
Qed.

Lemma heapify_spec l : is_heap lt (heapify lt l) /\ heapify lt l ≡ₚ l.
Proof.
  unfold heapify. apply foldl__siftup_spec.
  - pose proof (Nat.div_mod_eq (length l) 2). lia.
  - apply heap_from_leaves.
    pose proof (Nat.div_mod_eq (length l) 2).
    pose proof (Nat.mod_upper_bound (length l) 2). lia.
Qed.

(** *** The root of a heap is a minimum *)

Lemma is_heap_root l r : is_heap lt l -> l !! 0 = Some r -> lower_bound lt r l.
Proof.
  intros Hheap Hr y [i Hi]%list_elem_of_lookup. revert y Hi.
  induction (lt_wf i) as [i _ IH]. intros x Hx.
  destruct (decide (i = 0)) as [->|Hne]; [by simplify_eq|].
  pose proof (parent_lt i ltac:(lia)) as Hp.
  destruct (lookup_lt_is_Some_2 l (parent i)) as [y Hy].
  { apply lookup_lt_Some in Hx. lia. }
  apply (le_trans _ y); [by eapply IH|].
  apply (Hheap i x y); auto; lia.
Qed.

(** *** [heappop] and [heapreplace] *)

Lemma list_pop_Some (h init : list A) lastelt :
  list_pop h = Some (init, lastelt) <-> h = init ++ [lastelt].
Proof.
  unfold list_pop. split.
  - destruct (reverse h) as [|x r] eqn:E; [done|]. intros ?; simplify_eq.
    by rewrite <- (reverse_involutive h), E, reverse_cons.
  - intros ->. by rewrite reverse_snoc, reverse_involutive.
Qed.

Lemma heap_from_1_insert l x : is_heap lt l -> heap_from lt 1 (<[0 := x]> l).
Proof.
  intros Hheap i a b Hi Hs Ha Hb.
  rewrite list_lookup_insert_ne in Ha, Hb by lia. apply (Hheap i); auto; lia.
Qed.

Lemma is_heap_app l k : is_heap lt (l ++ k) -> is_heap lt l.
Proof.
  intros Hheap i a b Hi Hs Ha Hb.
  apply (Hheap i); auto; try lia; by apply lookup_app_l_Some.
Qed.

Lemma heappop_spec h x h' :
  is_heap lt h -> heappop lt h = Some (x, h') ->
  is_heap lt h' /\ h ≡ₚ x :: h' /\ lower_bound lt x h.
Proof.
  intros Hheap. unfold heappop.
  destruct (list_pop h) as [[init lastelt]|] eqn:Hpop; [|done].
  apply list_pop_Some in Hpop as ->.
  destruct init as [|r t]; simpl; intros [= <- <-].
  - split; [by intros i ? ? ? ? ?|]. split; [done|].
    intros y ->%list_elem_of_singleton. done.
  - destruct (_siftup_spec 0 (lastelt :: t)) as [H1 H2].
    + apply (heap_from_1_insert (r :: t) lastelt). by eapply is_heap_app.
    + simpl. lia.
    + split; [done|]. split; [|by apply is_heap_root].
      rewrite H2. by rewrite <- Permutation_cons_append.
Qed.

Lemma heappop_is_Some h : h <> [] -> is_Some (heappop lt h).
Proof.
  intros Hne. unfold heappop.
  destruct (list_pop h) as [[init lastelt]|] eqn:Hpop.
  - destruct (init !! 0); eauto.
  - unfold list_pop in Hpop. destruct (reverse h) eqn:E; [|done].
    apply (f_equal reverse) in E. rewrite reverse_involutive in E. done.
Qed.

Lemma heapreplace_spec h item x h' :
  is_heap lt h -> heapreplace lt h item = Some (x, h') ->
  is_heap lt h' /\ item :: h ≡ₚ x :: h' /\ lower_bound lt x h.
Proof.
  intros Hheap. unfold heapreplace.
  destruct h as [|r t]; simpl; intros [= <- <-].
  destruct (_siftup_spec 0 (item :: t)) as [H1 H2].
  - by apply (heap_from_1_insert (r :: t) item).
  - simpl. lia.
  - split; [done|]. split; [|by apply is_heap_root].
    rewrite H2. apply Permutation_swap.
Qed.

(** *** Heap sort *)

Lemma pop_all_spec n : forall h,
  is_heap lt h -> length h = n ->
  StronglySorted (fun a b => lt b a = false) (pop_all lt n h) /\
  pop_all lt n h ≡ₚ h.
Proof.
  induction n as [|n IH]; intros h Hheap Hlen; simpl.
  { split; [constructor|]. by destruct h. }
  destruct (heappop_is_Some h) as [[x h'] Hpop].
  { by destruct h. }
  rewrite Hpop.
  destruct (heappop_spec h x h' Hheap Hpop) as (H1 & H2 & H3).
  destruct (IH h' H1) as [H4 H5].
  { apply Permutation_length in H2. simpl in H2. lia. }
  split.
  - constructor; [done|]. apply Forall_forall. intros y Hy.
    apply H3. rewrite H2, <- H5. by right.
  - by rewrite H2, H5.
Qed.

Lemma heapsort_spec l :
  StronglySorted (fun a b => lt b a = false) (heapsort lt l) /\
  heapsort lt l ≡ₚ l.
Proof.
  destruct (heapify_spec l) as [H1 H2]. unfold heapsort.
  destruct (pop_all_spec (length l) (heapify lt l) H1) as [H3 H4].
  - by rewrite H2.
  - split; [done|]. by rewrite H4.
Qed.
End order.
End HeapFacts.


(** * Theory of [heapq.merge] *)

Module MergeFacts.
Import Heapq HeapSpec HeapFacts MergeSpec.

Section order.
Context {V : Type} `{EqDecision V} (lt : V -> V -> bool).
Hypothesis lt_irrefl : forall a, lt a a = false.
Hypothesis lt_trans : forall a b c, lt a b = true -> lt b c = true -> lt a c = true.
Hypothesis lt_total : forall a b, lt a b = false -> lt b a = false -> a = b.

Abbreviation elt := (entry_lt lt).

(** [<] on the entries is a strict total order as well. *)
Lemma entry_lt_irrefl a : elt a a = false.
Proof. unfold entry_lt. rewrite decide_True by done. apply Nat.ltb_irrefl. Qed.

Lemma entry_lt_trans a b c : elt a b = true -> elt b c = true -> elt a c = true.
Proof.
  destruct a as [a i], b as [b j], c as [c k]. unfold entry_lt. simpl.
  repeat case_decide; subst; try done.
  - rewrite !Nat.ltb_lt. lia.
  - intros Hab Hba. by rewrite (lt_asym lt lt_irrefl lt_trans _ _ Hab) in Hba.
  - eauto.
Qed.

Lemma entry_lt_total a b : elt a b = false -> elt b a = false -> a = b.
Proof.
  destruct a as [a i], b as [b j]. unfold entry_lt. simpl.
  repeat case_decide; subst; try done.
  - rewrite !Nat.ltb_ge. intros. f_equal. lia.
  - intros. exfalso. eauto.
Qed.


Lemma lower_bound_unique (l : list (V * nat)) a b :
  a ∈ l -> b ∈ l -> lower_bound elt a l -> lower_bound elt b l -> a = b.
Proof. intros Ha Hb Hla Hlb. apply entry_lt_total; auto. Qed.

(** *** The heads of the inputs *)

Lemma heads_order_ge k (ss : list (list V)) e : e ∈ heads k ss -> k <= e.2.
Proof.
  revert k. induction ss as [|[|x s] ss IH]; intros k; simpl.
  - by intros ?%elem_of_nil.
  - intros ?%IH. lia.
  - intros [->|?%IH]%elem_of_cons; simpl; lia.
Qed.

Lemma heads_insert_cons k (ss : list (list V)) i x r :
  i < length ss ->
  heads k (<[i := x :: r]> ss) ≡ₚ (x, k + i) :: heads k (<[i := []]> ss).
Proof.
  revert k i. induction ss as [|s ss IH]; intros k [|i] Hlen; simpl in *; try lia.
  - by rewrite Nat.add_0_r.
  - replace (k + S i) with (S k + i) by lia.
    destruct s; rewrite IH by lia; [done|]. apply Permutation_swap.
Qed.

Lemma heads_lookup k (ss : list (list V)) i x r :
  ss !! i = Some (x :: r) ->
  heads k ss ≡ₚ (x, k + i) :: heads k (<[i := []]> ss).
Proof.
  intros Hi. rewrite <- (list_insert_id ss i (x :: r)) at 1 by done.
  apply heads_insert_cons. by eapply lookup_lt_Some.
Qed.

Lemma elem_of_heads k (ss : list (list V)) x o :
  (x, o) ∈ heads k ss -> exists r, k <= o /\ ss !! (o - k) = Some (x :: r).
Proof.
  revert k. induction ss as [|[|y s] ss IH]; intros k; simpl.
  - by intros ?%elem_of_nil.
  - intros (r & ? & Hr)%IH. exists r. split; [lia|].
    by replace (o - k) with (S (o - S k)) by lia.
  - intros [[= -> ->]|(r & ? & Hr)%IH]%elem_of_cons.
    + exists s. by rewrite Nat.sub_diag.
    + exists r. split; [lia|].
      by replace (o - k) with (S (o - S k)) by lia.
Qed.

Lemma heads_nil k (ss : list (list V)) :
  heads k ss = [] -> concat ss = [].
Proof.
  revert k. induction ss as [|[|y s] ss IH]; intros k; simpl; eauto. done.
Qed.

(** *** [pick] returns the least entry among the heads *)

Lemma pick_None k (ss : list (list V)) : pick lt k ss = None -> heads k ss = [].
Proof.
  revert k. induction ss as [|[|x s] ss IH]; intros k; simpl; eauto.
  destruct (pick lt (S k) ss) as [[y o]|]; [|done]. by destruct (lt y x).
Qed.

Lemma pick_Some k (ss : list (list V)) m :
  pick lt k ss = Some m -> m ∈ heads k ss /\ lower_bound elt m (heads k ss).
Proof.
  revert k m. induction ss as [|[|x s] ss IH]; intros k m; simpl; [done|by eauto|].
  destruct (pick lt (S k) ss) as [[y o]|] eqn:Hp.
  - destruct (IH _ _ Hp) as [Hin Hlow].
    pose proof (heads_order_ge _ _ _ Hin) as Hge. simpl in Hge.
    destruct (lt y x) eqn:Hyx; intros [= <-].
    + split; [by right|]. intros e [->|He]%elem_of_cons; [|by apply Hlow].
      unfold entry_lt; simpl. case_decide as Hxy; [|by eapply lt_asym].
      subst. by rewrite lt_irrefl in Hyx.
    + split; [by left|]. intros e [->|He]%elem_of_cons.
      { apply entry_lt_irrefl. }
      (* [e] is not below [(y, o)], which is not below [(x, k)] *)
      apply (le_trans elt entry_lt_trans entry_lt_total _ (y, o));
        [|by apply Hlow].
      unfold entry_lt; simpl. case_decide; [|done]. apply Nat.ltb_ge. lia.
  - intros [= <-]. apply pick_None in Hp. rewrite Hp.
    split; [by left|]. intros e ->%list_elem_of_singleton. apply entry_lt_irrefl.
Qed.

Lemma pick_is_Some k (ss : list (list V)) : heads k ss <> [] -> is_Some (pick lt k ss).
Proof.
  intros Hne. destruct (pick lt k ss) eqn:Hp; [eauto|]. by apply pick_None in Hp.
Qed.


(** *** [merge_by_pick] on a single input that is left *)

Lemma alter_tail_lookup (ss : list (list V)) o s :
  ss !! o = Some s -> alter tail o ss = <[o := tail s]> ss.
Proof.
  revert o. induction ss as [|t ss IH]; intros [|o] Ho; simplify_eq/=; [done|].
  f_equal. by apply IH.
Qed.

Lemma pick_first (ss : list (list V)) o x r :
  ss !! o = Some (x :: r) -> heads 0 (<[o := []]> ss) = [] ->
  pick lt 0 ss = Some (x, o).
Proof.
  intros Ho Hrest. pose proof (heads_lookup 0 ss o x r Ho) as Hh.
  rewrite Hrest in Hh. apply Permutation_singleton_r in Hh.
  destruct (pick_is_Some 0 ss) as [m Hm]; [by rewrite Hh|].
  apply pick_Some in Hm as Hin. destruct Hin as [Hin _].
  rewrite Hh in Hin. apply list_elem_of_singleton in Hin. by subst.
Qed.

Lemma merge_by_pick_S fuel (ss : list (list V)) :
  merge_by_pick lt (S fuel) ss =
  match pick lt 0 ss with
  | None => []
  | Some (x, o) => (x, o) :: merge_by_pick lt fuel (alter tail o ss)
  end.
Proof. reflexivity. Qed.

Lemma merge_by_pick_single fuel : forall (ss : list (list V)) o l,
  ss !! o = Some l -> heads 0 (<[o := []]> ss) = [] -> length l < fuel ->
  merge_by_pick lt fuel ss = (fun v => (v, o)) <$> l.
Proof.
  induction fuel as [|fuel IH]; intros ss o l Ho Hrest Hlen; [lia|].
  simpl. destruct l as [|x l].
  - rewrite list_insert_id in Hrest by done.
    destruct (pick lt 0 ss) as [m|] eqn:Hm; [|done].
    apply pick_Some in Hm as [Hin _]. rewrite Hrest in Hin.
    by apply elem_of_nil in Hin.
  - rewrite (pick_first ss o x l) by done. simpl. f_equal.
    rewrite (alter_tail_lookup ss o (x :: l)) by done. simpl.
    apply IH.
    + apply list_lookup_insert_eq. by eapply lookup_lt_Some.
    + by rewrite list_insert_insert_eq.
    + simpl in Hlen. lia.
Qed.

(** *** [heapq.merge] serves the inputs as [pick] says *)

Lemma merge_prime_spec k (ss : list (list V)) :
  merge_prime k ss = (heads k ss, tail <$> ss).
Proof.
  revert k. induction ss as [|[|x s] ss IH]; intros k; simpl; [done|..];
    by rewrite IH.
Qed.

Lemma merge_loop_S fuel (h : list (V * nat)) (its : list (list V)) :
  merge_loop lt (S fuel) h its =
  if 1 <? length h then
    match h !! 0 with
    | Some (value, order) =>
        (value, order) ::
        match next_line its order with
        | Some (value', its') =>
            match heapreplace elt (<[0 := (value', order)]> h) (value', order) with
            | Some (_, h') => merge_loop lt fuel h' its'
            | None => []
            end
        | None =>
            match heappop elt h with
            | Some (_, h') => merge_loop lt fuel h' its
            | None => []
            end
        end
    | None => []
    end
  else
    match h !! 0 with
    | Some (value, order) =>
        (value, order) :: ((fun v => (v, order)) <$> default [] (its !! order))
    | None => []
    end.
Proof. reflexivity. Qed.

Lemma concat_lookup_length (ss : list (list V)) o s :
  ss !! o = Some s ->
  length (concat ss) = length s + length (concat (<[o := []]> ss)).
Proof.
  revert o. induction ss as [|t ss IH]; intros [|o] Ho; simplify_eq/=.
  - rewrite length_app. lia.
  - rewrite !length_app, (IH o) by done. lia.
Qed.

Lemma merge_loop_refines fuel : forall h (ss : list (list V)),
  is_heap elt h -> h ≡ₚ heads 0 ss -> length (concat ss) < fuel ->
  merge_loop lt fuel h (tail <$> ss) = merge_by_pick lt fuel ss.
Proof.
  induction fuel as [|fuel IH]; intros h ss Hheap Hperm Hfuel; [lia|].
  rewrite merge_loop_S.
  destruct h as [|[v o] h].
  { (* no input has a line left *)
    simpl. apply Permutation_nil_l in Hperm.
    destruct (pick lt 0 ss) as [m|] eqn:Hm; [|done].
    apply pick_Some in Hm as [Hin _]. rewrite <- Hperm in Hin.
    by apply elem_of_nil in Hin. }
  (* the root of the heap is the entry that [pick] names *)
  assert ((v, o) ∈ heads 0 ss) as Hin by (rewrite <- Hperm; by left).
  destruct (elem_of_heads _ _ _ _ Hin) as (r & _ & Ho).
  rewrite Nat.sub_0_r in Ho.
  pose proof (heads_lookup 0 ss o v r Ho) as Hh. simpl in Hh.
  assert (h ≡ₚ heads 0 (<[o := []]> ss)) as Hrest.
  { apply Permutation_cons_inv with (v, o). by rewrite <- Hh. }
  assert (pick lt 0 ss = Some (v, o)) as Hpick.
  { destruct (pick_is_Some 0 ss) as [m Hm].
    { intros E. rewrite E in Hin. by apply elem_of_nil in Hin. }
    rewrite Hm. f_equal. apply pick_Some in Hm as [Hm1 Hm2].
    apply (lower_bound_unique (heads 0 ss)); auto.
    intros e He. rewrite <- Hperm in He.
    by apply (is_heap_root elt entry_lt_irrefl entry_lt_trans entry_lt_total
                ((v, o) :: h)). }
  pose proof (lookup_lt_Some _ _ _ Ho) as Holen.
  change (((v, o) :: h) !! 0) with (Some (v, o)). cbv beta iota.
  destruct (1 <? length ((v, o) :: h)) eqn:Hlen;
    [apply Nat.ltb_lt in Hlen|apply Nat.ltb_ge in Hlen].
  2:{ (* a single input is left *)
    destruct h; [|simpl in Hlen; lia].
    apply Permutation_nil_l in Hrest. symmetry in Hrest.
    rewrite list_lookup_fmap, Ho. simpl default.
    change ((v, o) :: ((fun v0 => (v0, o)) <$> r))
      with ((fun v0 => (v0, o)) <$> (v :: r)).
    symmetry. apply merge_by_pick_single; auto.
    rewrite (concat_lookup_length ss o (v :: r)) in Hfuel by done. lia. }
  rewrite merge_by_pick_S, Hpick. f_equal.
  rewrite (alter_tail_lookup ss o (v :: r)) by done. simpl.
  unfold next_line. rewrite list_lookup_fmap, Ho. simpl.
  assert (length (concat (<[o := r]> ss)) < fuel) as Hfuel'.
  { rewrite (concat_lookup_length ss o (v :: r)) in Hfuel by done.
    rewrite (concat_lookup_length (<[o := r]> ss) o r)
      by (by apply list_lookup_insert_eq).
    rewrite list_insert_insert_eq. simpl in Hfuel. lia. }
  destruct r as [|v' r'].
  - (* the input is exhausted: [heappop] *)
    destruct (heappop_is_Some elt ((v, o) :: h)) as [[x h'] Hpop]; [done|].
    rewrite Hpop.
    destruct (heappop_spec elt entry_lt_irrefl entry_lt_trans entry_lt_total
                _ _ _ Hheap Hpop) as (Hh' & Hp' & Hlow).
    assert (x = (v, o)) as ->.
    { apply (lower_bound_unique ((v, o) :: h)); auto.
      - rewrite Hp'. by left.
      - by left.
      - by apply (is_heap_root elt entry_lt_irrefl entry_lt_trans entry_lt_total). }
    apply Permutation_cons_inv in Hp'.
    rewrite <- (IH h' (<[o := []]> ss)); auto.
    + f_equal. rewrite list_fmap_insert. simpl.
      symmetry. apply list_insert_id. by rewrite list_lookup_fmap, Ho.
    + by rewrite <- Hp'.
  - (* the input gives its next line: [heapreplace] *)
    simpl.
    destruct (_siftup_spec elt entry_lt_irrefl entry_lt_trans entry_lt_total
                0 ((v', o) :: h)) as [Hh' Hp'].
    { by apply (heap_from_1_insert elt ((v, o) :: h) (v', o)). }
    { simpl. lia. }
    rewrite <- (IH (_siftup elt ((v', o) :: h) 0) (<[o := v' :: r']> ss)); auto.
    + f_equal. by rewrite list_fmap_insert.
    + rewrite Hp', heads_insert_cons by done. simpl. by rewrite Hrest.
Qed.

Lemma merge_tagged_refines (ss : list (list V)) :
  merge_tagged lt ss = merge_by_pick lt (S (length (concat ss))) ss.
Proof.
  unfold merge_tagged. rewrite merge_prime_spec.
  destruct (heapify_spec elt entry_lt_irrefl entry_lt_trans entry_lt_total
              (heads 0 ss)) as [H1 H2].
  apply merge_loop_refines; auto.
Qed.


(** *** The merged sequence is a permutation of the inputs *)

Lemma tagged_lookup k (ss : list (list V)) o x r :
  ss !! o = Some (x :: r) ->
  tagged k ss ≡ₚ (x, k + o) :: tagged k (<[o := r]> ss).
Proof.
  revert k o. induction ss as [|s ss IH]; intros k [|o] Ho; simplify_eq/=.
  - by rewrite Nat.add_0_r.
  - rewrite (IH (S k) o) by done. replace (S k + o) with (k + S o) by lia.
    by rewrite Permutation_middle.
Qed.

Lemma elem_of_tagged k (ss : list (list V)) y j :
  (y, j) ∈ tagged k ss -> exists s, k <= j /\ ss !! (j - k) = Some s /\ y ∈ s.
Proof.
  revert k. induction ss as [|s ss IH]; intros k; simpl.
  - by intros ?%elem_of_nil.
  - intros [Hin|Hin]%elem_of_app.
    + apply list_elem_of_fmap in Hin as (v & [= -> ->] & Hv).
      exists s. by rewrite Nat.sub_diag.
    + apply IH in Hin as (t & ? & Ht & ?). exists t. split; [lia|].
      by replace (j - k) with (S (j - S k)) by lia.
Qed.

Lemma fst_tagged k (ss : list (list V)) : fst <$> tagged k ss = concat ss.
Proof.
  revert k. induction ss as [|s ss IH]; intros k; simpl; [done|].
  rewrite fmap_app, IH, <- list_fmap_compose. f_equal.
  by rewrite <- (list_fmap_id s) at 2.
Qed.

Lemma tagged_nil k (ss : list (list V)) : concat ss = [] -> tagged k ss = [].
Proof.
  intros Hnil. apply (fmap_nil_inv fst). by rewrite fst_tagged.
Qed.

Lemma pick_lookup (ss : list (list V)) x o :
  pick lt 0 ss = Some (x, o) -> exists r, ss !! o = Some (x :: r).
Proof.
  intros [Hin _]%pick_Some. apply elem_of_heads in Hin as (r & _ & Hr).
  exists r. by rewrite Nat.sub_0_r in Hr.
Qed.

Lemma merge_by_pick_tagged fuel : forall ss : list (list V),
  length (concat ss) <= fuel -> merge_by_pick lt fuel ss ≡ₚ tagged 0 ss.
Proof.
  induction fuel as [|fuel IH]; intros ss Hfuel.
  { simpl. rewrite tagged_nil; [done|]. apply nil_length_inv. lia. }
  rewrite merge_by_pick_S. destruct (pick lt 0 ss) as [[x o]|] eqn:Hp.
  - destruct (pick_lookup _ _ _ Hp) as [r Ho].
    rewrite (alter_tail_lookup ss o (x :: r)) by done. simpl.
    rewrite (tagged_lookup 0 ss o x r Ho). simpl. f_equiv. apply IH.
    rewrite (concat_lookup_length ss o (x :: r)) in Hfuel by done.
    rewrite (concat_lookup_length (<[o := r]> ss) o r)
      by (apply list_lookup_insert_eq; by eapply lookup_lt_Some).
    rewrite list_insert_insert_eq. simpl in Hfuel. lia.
  - apply pick_None, heads_nil in Hp. by rewrite tagged_nil.
Qed.

Lemma merge_by_pick_subseteq fuel : forall (ss : list (list V)) e,
  e ∈ merge_by_pick lt fuel ss -> e ∈ tagged 0 ss.
Proof.
  induction fuel as [|fuel IH]; intros ss e; [by intros ?%elem_of_nil|].
  rewrite merge_by_pick_S. destruct (pick lt 0 ss) as [[x o]|] eqn:Hp;
    [|by intros ?%elem_of_nil].
  destruct (pick_lookup _ _ _ Hp) as [r Ho].
  rewrite (alter_tail_lookup ss o (x :: r)) by done. simpl.
  rewrite (tagged_lookup 0 ss o x r Ho). simpl.
  intros [->|Hin]%elem_of_cons; [by left|]. right. by apply IH.
Qed.

(** *** Sorted inputs give a sorted sequence, equal lines in the order
    of their inputs *)

Lemma pick_lower_bound (ss : list (list V)) m :
  Forall (StronglySorted (fun a b => lt b a = false)) ss ->
  pick lt 0 ss = Some m -> lower_bound elt m (tagged 0 ss).
Proof.
  intros Hsorted [Hin Hlow]%pick_Some [y j] Hy.
  apply elem_of_tagged in Hy as (s & _ & Hs & Hy). rewrite Nat.sub_0_r in Hs.
  destruct s as [|hj tj]; [by apply elem_of_nil in Hy|].
  apply (le_trans elt entry_lt_trans entry_lt_total _ (hj, j)).
  - apply Hlow. rewrite (heads_lookup 0 ss j hj tj Hs). by left.
  - unfold entry_lt. simpl. case_decide; [apply Nat.ltb_irrefl|].
    apply elem_of_cons in Hy as [->|Hy]; [done|].
    rewrite Forall_lookup in Hsorted. specialize (Hsorted _ _ Hs).
    apply StronglySorted_inv in Hsorted as [_ Hall].
    rewrite Forall_forall in Hall. by apply Hall.
Qed.

Lemma merge_by_pick_sorted fuel : forall ss : list (list V),
  Forall (StronglySorted (fun a b => lt b a = false)) ss ->
  StronglySorted (fun a b => elt b a = false) (merge_by_pick lt fuel ss).
Proof.
  induction fuel as [|fuel IH]; intros ss Hsorted; [constructor|].
  rewrite merge_by_pick_S. destruct (pick lt 0 ss) as [[x o]|] eqn:Hp;
    [|constructor].
  destruct (pick_lookup _ _ _ Hp) as [r Ho].
  pose proof (pick_lower_bound ss _ Hsorted Hp) as Hlow.
  rewrite (alter_tail_lookup ss o (x :: r)) by done. simpl.
  constructor.
  - apply IH. apply Forall_insert; [done|].
    rewrite Forall_lookup in Hsorted. specialize (Hsorted _ _ Ho).
    by apply StronglySorted_inv in Hsorted as [? _].
  - apply Forall_forall. intros e He%merge_by_pick_subseteq.
    apply Hlow. rewrite (tagged_lookup 0 ss o x r Ho). by right.
Qed.

Lemma entry_sorted_fst (l : list (V * nat)) :
  StronglySorted (fun a b => elt b a = false) l ->
  StronglySorted (fun a b => lt b a = false) (fst <$> l).
Proof.
  induction 1 as [|a l Hl IH Hall]; simpl; constructor; [done|].
  apply Forall_fmap. eapply Forall_impl; [exact Hall|].
  intros b. unfold entry_lt. simpl. case_decide as E; [|done].
  intros _. rewrite E. apply lt_irrefl.
Qed.

(** *** What [heapq.merge] yields *)

Lemma merge_Permutation (ss : list (list V)) : merge lt ss ≡ₚ concat ss.
Proof.
  unfold merge. rewrite merge_tagged_refines.
  rewrite merge_by_pick_tagged by lia. by rewrite fst_tagged.
Qed.

Lemma merge_sorted (ss : list (list V)) :
  Forall (StronglySorted (fun a b => lt b a = false)) ss ->
  StronglySorted (fun a b => lt b a = false) (merge lt ss).
Proof.
  intros Hsorted. unfold merge. rewrite merge_tagged_refines.
  by apply entry_sorted_fst, merge_by_pick_sorted.
Qed.

End order.
End MergeFacts.


(** * Theory of strings, lines and blocks *)

Module StrFacts.
Import PyStr SplitSpec.

(** ** [<] on [str] is a strict total order *)

Lemma ascii_compare_refl c : Ascii.compare c c = Eq.
Proof. apply N.compare_refl. Qed.

Lemma ascii_compare_lt_trans a b c :
  Ascii.compare a b = Lt -> Ascii.compare b c = Lt -> Ascii.compare a c = Lt.
Proof. unfold Ascii.compare. rewrite !N.compare_lt_iff. lia. Qed.

Lemma compare_refl s : String.compare s s = Eq.
Proof. induction s as [|c s IH]; simpl; [done|]. by rewrite ascii_compare_refl. Qed.

Lemma compare_lt_trans a : forall b c,
  String.compare a b = Lt -> String.compare b c = Lt -> String.compare a c = Lt.
Proof.
  induction a as [|x a IH]; intros [|y b] [|z c]; simpl; try done.
  destruct (Ascii.compare x y) eqn:Hxy; try done.
  - apply Ascii.compare_eq_iff in Hxy as ->.
    destruct (Ascii.compare y z); try done. by apply IH.
  - destruct (Ascii.compare y z) eqn:Hyz; try done.
    + apply Ascii.compare_eq_iff in Hyz as <-. by rewrite Hxy.
    + by rewrite (ascii_compare_lt_trans x y z).
Qed.

Lemma str_lt_irrefl a : str_lt a a = false.
Proof. unfold str_lt, String.ltb. by rewrite compare_refl. Qed.

Lemma str_lt_trans a b c :
  str_lt a b = true -> str_lt b c = true -> str_lt a c = true.
Proof.
  unfold str_lt, String.ltb.
  destruct (String.compare a b) eqn:Hab; try done.
  destruct (String.compare b c) eqn:Hbc; try done.
  by rewrite (compare_lt_trans a b c).
Qed.

Lemma str_lt_total a b : str_lt a b = false -> str_lt b a = false -> a = b.
Proof.
  unfold str_lt, String.ltb. rewrite (String.compare_antisym b a).
  destruct (String.compare a b) eqn:Hab; try done.
  intros _ _. by apply String.compare_eq_iff.
Qed.

(** [a <= b] is [not b < a]. *)
Lemma str_le_lt a b : str_le a b = negb (str_lt b a).
Proof.
  unfold str_le, str_lt, String.leb, String.ltb.
  rewrite (String.compare_antisym a b). by destruct (String.compare b a).
Qed.

(** ** Lines of a text *)

Lemma written_lines_of text : written (lines_of text) = text.
Proof.
  induction text as [|c text IH]; simpl; [done|].
  destruct (Ascii.eqb c newline).
  - simpl. by rewrite IH.
  - destruct (lines_of text) as [|l more]; simpl in *; by rewrite <- IH.
Qed.

Lemma lines_of_app_line l text :
  is_line l = true -> lines_of (l +:+ text) = l :: lines_of text.
Proof.
  induction l as [|c l IH]; simpl; [done|].
  destruct (Ascii.eqb c newline).
  - by intros ->%String.eqb_eq.
  - intros Hl. by rewrite IH.
Qed.

Lemma lines_of_written lines :
  Forall (fun l => is_line l = true) lines -> lines_of (written lines) = lines.
Proof.
  induction 1 as [|l lines Hl _ IH]; simpl; [done|].
  by rewrite lines_of_app_line, IH.
Qed.

Lemma lines_of_nil text : lines_of text = [] -> text = EmptyString.
Proof. intros E. by rewrite <- (written_lines_of text), E. Qed.

Lemma lines_of_terminated text :
  terminated text = true -> Forall (fun l => is_line l = true) (lines_of text).
Proof.
  induction text as [|c text IH]; [constructor|]. intros Hterm.
  assert (text <> EmptyString -> terminated text = true) as Hrest.
  { simpl in Hterm. by destruct text. }
  simpl. destruct (Ascii.eqb c newline) eqn:Hc.
  - constructor; [simpl; by rewrite Hc|].
    destruct text; [constructor|]. by apply IH, Hrest.
  - destruct text as [|c' text]; [simpl in Hterm; congruence|].
    specialize (IH (Hrest ltac:(done))).
    destruct (lines_of (String c' text)) as [|l more] eqn:E.
    { by apply lines_of_nil in E. }
    apply Forall_cons in IH as [Hl Hmore].
    constructor; [|done]. simpl. by rewrite Hc.
Qed.

Lemma terminated_written lines :
  Forall (fun l => is_line l = true) lines -> terminated (written lines) = true.
Proof.
  induction 1 as [|l lines Hl _ IH]; simpl; [done|].
  induction l as [|c l IHl]; [done|]. simpl in *.
  destruct (Ascii.eqb c newline) eqn:Hc.
  - apply String.eqb_eq in Hl as ->. simpl.
    destruct (written lines); [done|exact IH].
  - specialize (IHl Hl). destruct (l +:+ written lines) eqn:E; [|done].
    by destruct l.
Qed.

(** ** [readlines] *)

Lemma block_size_app b1 b2 : block_size (b1 ++ b2) = (block_size b1 + block_size b2)%Z.
Proof. induction b1 as [|l b1 IH]; simpl; [done|]. rewrite IH. lia. Qed.

Lemma block_size_nonneg b : (0 <= block_size b)%Z.
Proof. induction b as [|l b IH]; simpl; unfold len; lia. Qed.

Lemma readlines_loop_app hint lines : forall length block rest,
  readlines_loop hint length lines = (block, rest) -> lines = block ++ rest.
Proof.
  induction lines as [|l lines IH]; intros n block rest; simpl.
  { by intros [= <- <-]. }
  destruct (len l >? hint - n)%Z; [by intros [= <- <-]|].
  destruct (readlines_loop hint (n + len l) lines) as [b r] eqn:E.
  intros [= <- <-]. simpl. f_equal. by eapply IH.
Qed.

Lemma readlines_app hint lines block rest :
  readlines hint lines = (block, rest) -> lines = block ++ rest.
Proof.
  unfold readlines. destruct (hint <=? 0)%Z.
  - intros [= <- <-]. by rewrite app_nil_r.
  - apply readlines_loop_app.
Qed.

Lemma readlines_nil hint lines rest :
  readlines hint lines = ([], rest) -> lines = [].
Proof.
  unfold readlines. destruct (hint <=? 0)%Z; [by intros [= <- <-]|].
  destruct lines as [|l lines]; [done|]. simpl.
  destruct (len l >? hint - 0)%Z; [done|].
  by destruct (readlines_loop hint (0 + len l) lines).
Qed.





(** ** The blocks of the split phase *)

Lemma split_blocks_S fuel hint block f :
  split_blocks (S fuel) hint block f =
  match block with
  | [] => []
  | _ :: _ => block :: split_blocks fuel hint (readlines hint f).1 (readlines hint f).2
  end.
Proof. simpl. destruct block; [done|]. by destruct (readlines hint f). Qed.

Lemma split_blocks_concat hint fuel : forall block f,
  (block = [] -> f = []) -> (block <> [] -> length f < fuel) ->
  concat (split_blocks fuel hint block f) = block ++ f.
Proof.
  induction fuel as [|fuel IH]; intros block f Hnil Hfuel.
  { destruct block; [by rewrite Hnil|]. specialize (Hfuel ltac:(done)). lia. }
  rewrite split_blocks_S. destruct block as [|l block]; [by rewrite Hnil|].
  destruct (readlines hint f) as [b' f'] eqn:E. simpl.
  pose proof (readlines_app _ _ _ _ E) as Hf.
  rewrite IH.
  - by rewrite Hf.
  - intros ->. apply readlines_nil in E. subst f. by destruct f'.
  - intros Hb'. specialize (Hfuel ltac:(done)). subst f.
    rewrite length_app in Hfuel. destruct b'; [done|]. simpl in Hfuel. lia.
Qed.

Lemma blocks_of_concat hint text :
  concat (blocks_of hint text) = lines_of text.
Proof.
  unfold blocks_of. destruct (readlines hint (lines_of text)) as [b f'] eqn:E.
  pose proof (readlines_app _ _ _ _ E) as Hf.
  rewrite split_blocks_concat.
  - done.
  - intros ->. apply readlines_nil in E. rewrite E in Hf. by destruct f'.
  - intros Hb. rewrite Hf, length_app. destruct b; [done|]. simpl. lia.
Qed.

Lemma split_blocks_nonempty hint fuel : forall block f,
  Forall (fun b => b <> []) (split_blocks fuel hint block f).
Proof.
  induction fuel as [|fuel IH]; intros block f; [constructor|].
  rewrite split_blocks_S. destruct block; [constructor|].
  constructor; [done|apply IH].
Qed.






(** ** The names of the temporary files are pairwise distinct *)

Lemma string_of_uint_sep d1 : forall d2 c r1 r2,
  is_digit c = false ->
  NilEmpty.string_of_uint d1 +:+ String c r1 =
  NilEmpty.string_of_uint d2 +:+ String c r2 ->
  d1 = d2 /\ r1 = r2.
Proof.
  induction d1 as [|d1 IH|d1 IH|d1 IH|d1 IH|d1 IH|d1 IH|d1 IH|d1 IH|d1 IH|d1 IH];
    intros [|d2|d2|d2|d2|d2|d2|d2|d2|d2|d2] c r1 r2 Hc; simpl; intros E;
    first [ by injection E as ->
          | exfalso; injection E as E1 E2; subst c; discriminate Hc
          | discriminate E
          | injection E as E; by destruct (IH _ _ _ _ Hc E) as [-> ->] ].
Qed.

Lemma to_uint_inj n m : Nat.to_uint n = Nat.to_uint m -> n = m.
Proof.
  intros E. by rewrite <- (DecimalNat.Unsigned.of_to n), E, DecimalNat.Unsigned.of_to.
Qed.

Lemma split_name_inj i j : split_name i = split_name j -> i = j.
Proof.
  unfold split_name, format_nat. intros E. simpl in E.
  injection E as E. apply string_of_uint_sep in E as [E _]; [|done].
  by apply to_uint_inj.
Qed.

Lemma merge_name_inj p i q j : merge_name p i = merge_name q j -> p = q /\ i = j.
Proof.
  unfold merge_name, format_nat. intros E. simpl in E.
  injection E as E. apply string_of_uint_sep in E as [E1 E2]; [|done].
  apply string_of_uint_sep in E2 as [E2 _]; [|done].
  split; by apply to_uint_inj.
Qed.

Lemma split_merge_ne i p j : split_name i <> merge_name p j.
Proof. done. Qed.

Example split_name_0 : split_name 0 = "split_0.txt".
Proof. reflexivity. Qed.

(** ** The lines held by a directory *)

Lemma lines_in_empty : lines_in ∅ = [].
Proof. unfold lines_in. by rewrite map_to_list_empty. Qed.

Lemma lines_in_insert (d : gmap string string) k t :
  d !! k = None -> lines_in (<[k := t]> d) ≡ₚ lines_of t ++ lines_in d.
Proof.
  intros Hk. unfold lines_in. by rewrite map_to_list_insert.
Qed.

Lemma lines_in_delete (d : gmap string string) k t :
  d !! k = Some t -> lines_in d ≡ₚ lines_of t ++ lines_in (delete k d).
Proof.
  intros Hk. unfold lines_in. by rewrite <- (map_to_list_delete d k t).
Qed.

End StrFacts.


(** * Theory of the pass planner *)

Module PlanFacts.
Import Py Planner.
Local Open Scope R_scope.

(** ** Logarithms and roots against integer powers *)

Lemma ln_le_iff x y : 0 < x -> 0 < y -> (ln x <= ln y <-> x <= y).
Proof.
  intros Hx Hy. split.
  - intros [Hlt|Heq]; [left; by apply ln_lt_inv|right; by apply ln_inv].
  - intros [Hlt|Heq]; [left; by apply ln_increasing|right; by rewrite Heq].
Qed.

Lemma ln_lt_iff x y : 0 < x -> 0 < y -> (ln x < ln y <-> x < y).
Proof.
  intros Hx Hy. split; [by apply ln_lt_inv|by apply ln_increasing].
Qed.

Lemma ln_pos a : 1 < a -> 0 < ln a.
Proof. intros Ha. rewrite <- ln_1. apply ln_increasing; lra. Qed.

Lemma log_ratio_le a n k :
  1 < a -> 0 < n -> (ln n / ln a <= INR k <-> n <= a ^ k).
Proof.
  intros Ha Hn. pose proof (ln_pos a Ha) as Hla.
  assert (0 < a ^ k) as Hak by (apply pow_lt; lra).
  rewrite <- (ln_le_iff n (a ^ k)) by done. rewrite ln_pow by lra.
  split; intros H.
  - apply (Rmult_le_compat_r (ln a)) in H; [|lra].
    unfold Rdiv in H. rewrite Rmult_assoc, Rinv_l in H by lra. lra.
  - apply (Rmult_le_reg_r (ln a)); [done|].
    unfold Rdiv. rewrite Rmult_assoc, Rinv_l by lra. lra.
Qed.

Lemma log_ratio_lt a n k :
  1 < a -> 0 < n -> (INR k < ln n / ln a <-> a ^ k < n).
Proof.
  intros Ha Hn. pose proof (log_ratio_le a n k Ha Hn) as [H1 H2].
  split; intros H.
  - apply Rnot_le_lt. intros Hle. apply H2 in Hle. lra.
  - apply Rnot_le_lt. intros Hle. apply H1 in Hle. lra.
Qed.

Lemma root_le n k x :
  0 < n -> (0 < k)%nat -> 0 < x -> (Rpower n (1 / INR k) <= x <-> n <= x ^ k).
Proof.
  intros Hn Hk Hx. assert (0 < INR k) as HkR by (by apply lt_0_INR).
  assert (0 < x ^ k) as Hxk by (by apply pow_lt).
  rewrite <- (ln_le_iff n (x ^ k)) by done. rewrite ln_pow by done.
  rewrite <- (ln_le_iff (Rpower n (1 / INR k)) x) by (done || apply exp_pos).
  unfold Rpower. rewrite ln_exp.
  split; intros H.
  - apply (Rmult_le_compat_l (INR k)) in H; [|lra].
    replace (INR k * (1 / INR k * ln n)) with (ln n) in H by (field; lra). lra.
  - apply (Rmult_le_reg_l (INR k)); [done|].
    replace (INR k * (1 / INR k * ln n)) with (ln n) by (field; lra). lra.
Qed.

Lemma root_lt n k x :
  0 < n -> (0 < k)%nat -> 0 <= x -> (x < Rpower n (1 / INR k) <-> x ^ k < n).
Proof.
  intros Hn Hk [Hx| <-].
  - pose proof (root_le n k x Hn Hk Hx) as [H1 H2].
    split; intros H; apply Rnot_le_lt; intros Hle; [apply H2 in Hle|apply H1 in Hle]; lra.
  - rewrite pow_i by done. split; intros _; [done|apply exp_pos].
Qed.

(** [n <= ((m - b) / b) ^ k] and [n <= x ^ k], read on the integers. *)

Lemma ratio_pow (m b : Z) (k : nat) :
  (0 < b)%Z ->
  (IZR m / IZR b - 1) ^ k = IZR ((m - b) ^ Z.of_nat k) / IZR (b ^ Z.of_nat k).
Proof.
  intros Hb. assert (0 < IZR b) as HbR by (by apply IZR_lt).
  replace (IZR m / IZR b - 1) with (IZR (m - b) * / IZR b)
    by (rewrite minus_IZR; field; lra).
  by rewrite Rpow_mult_distr, pow_inv, !pow_IZR.
Qed.

Lemma ratio_pow_le (m b : Z) (n k : nat) :
  (0 < b)%Z ->
  (INR n <= (IZR m / IZR b - 1) ^ k <->
   (Z.of_nat n * b ^ Z.of_nat k <= (m - b) ^ Z.of_nat k)%Z).
Proof.
  intros Hb. rewrite ratio_pow by done. rewrite INR_IZR_INZ.
  assert (0 < IZR (b ^ Z.of_nat k)) as Hpow.
  { apply IZR_lt. apply Z.pow_pos_nonneg; lia. }
  split; intros H.
  - apply le_IZR. rewrite mult_IZR.
    apply (Rmult_le_compat_r (IZR (b ^ Z.of_nat k))) in H; [|lra].
    unfold Rdiv in H. rewrite Rmult_assoc, Rinv_l in H by lra. lra.
  - apply IZR_le in H. rewrite mult_IZR in H.
    apply (Rmult_le_reg_r (IZR (b ^ Z.of_nat k))); [done|].
    unfold Rdiv. rewrite Rmult_assoc, Rinv_l by lra. lra.
Qed.

Lemma ratio_pow_lt (m b : Z) (n k : nat) :
  (0 < b)%Z ->
  ((IZR m / IZR b - 1) ^ k < INR n <->
   ((m - b) ^ Z.of_nat k < Z.of_nat n * b ^ Z.of_nat k)%Z).
Proof.
  intros Hb. pose proof (ratio_pow_le m b n k Hb) as [H1 H2].
  split; intros H.
  - apply Z.nle_gt. intros Hle. apply H2 in Hle. lra.
  - apply Rnot_le_lt. intros Hle. apply H1 in Hle. lia.
Qed.

Lemma int_pow_le (x : Z) (n k : nat) :
  INR n <= IZR x ^ k <-> (Z.of_nat n <= x ^ Z.of_nat k)%Z.
Proof.
  rewrite pow_IZR, INR_IZR_INZ. split; [apply le_IZR|apply IZR_le].
Qed.

Lemma int_pow_lt (x : Z) (n k : nat) :
  IZR x ^ k < INR n <-> (x ^ Z.of_nat k < Z.of_nat n)%Z.
Proof.
  rewrite pow_IZR, INR_IZR_INZ. split; [apply lt_IZR|apply IZR_lt].
Qed.

(** ** The integer operations of the planner *)

Lemma trunc_IZR z : trunc (IZR z) = z.
Proof.
  unfold trunc. destruct (Rlt_dec (IZR z) 0).
  - apply Zceil_eq. lra.
  - apply ZfloorZ.
Qed.

Lemma trunc_div (m d : Z) :
  (0 <= m)%Z -> (0 < d)%Z -> trunc (IZR m / IZR d) = (m / d)%Z.
Proof.
  intros Hm Hd. unfold trunc.
  assert (0 < IZR d) as HdR by (by apply IZR_lt).
  assert (0 <= IZR m / IZR d) as Hq.
  { apply Rmult_le_pos; [by apply IZR_le|]. left. by apply Rinv_0_lt_compat. }
  destruct (Rlt_dec (IZR m / IZR d) 0); [lra|].
  apply Zfloor_eq.
  pose proof (Z.div_mod m d ltac:(lia)) as Hdm.
  pose proof (Z.mod_pos_bound m d Hd) as Hmod.
  assert (IZR m = IZR d * IZR (m / d) + IZR (m mod d)) as E.
  { rewrite <- mult_IZR, <- plus_IZR. by f_equal. }
  assert (0 <= IZR (m mod d) < IZR d) as [Hr1 Hr2].
  { split; [apply IZR_le|apply IZR_lt]; lia. }
  rewrite E. split.
  - apply (Rmult_le_reg_r (IZR d)); [done|].
    unfold Rdiv. rewrite Rmult_assoc, Rinv_l by lra. lra.
  - apply (Rmult_lt_reg_r (IZR d)); [done|].
    unfold Rdiv. rewrite Rmult_assoc, Rinv_l by lra. lra.
Qed.

Lemma np_log_pos x : 0 < x -> np_log x = Fin (ln x).
Proof. intros Hx. unfold np_log. by destruct (Rlt_dec 0 x). Qed.

Lemma np_log_0 : np_log 0 = Inf.
Proof.
  unfold np_log. destruct (Rlt_dec 0 0); [lra|].
  by destruct (Req_dec_T 0 0).
Qed.

Lemma np_div_Fin a b : b <> 0 -> np_div (Fin a) (Fin b) = Fin (a / b).
Proof. intros Hb. unfold np_div. by destruct (Req_dec_T b 0). Qed.

Lemma np_div_Fin_0 a : a <> 0 -> np_div (Fin a) (Fin 0) = Inf.
Proof.
  intros Ha. unfold np_div. destruct (Req_dec_T 0 0); [|done].
  by destruct (Req_dec_T a 0).
Qed.

Lemma py_pow_pos n y : (0 < n)%nat -> py_pow n y = Ok (Rpower (INR n) y).
Proof. intros Hn. unfold py_pow. destruct n; [lia|done]. Qed.

(** ** The plan for a configuration with [memory_limit / buffer_size > 2] *)

Lemma float_overflow_big : IZR (2 ^ 1023) < float_overflow.
Proof. unfold float_overflow. apply IZR_lt. by vm_compute. Qed.

Lemma truediv_Ok (a b : Z) :
  (0 <= a < 2 ^ 1023)%Z -> (0 < b)%Z -> truediv a b = Ok (IZR a / IZR b).
Proof.
  intros [Ha1 Ha2] Hb. unfold truediv.
  rewrite (proj2 (Z.eqb_neq b 0)) by lia.
  destruct (Rle_dec _ _) as [Hbig|_]; [|done]. exfalso.
  pose proof float_overflow_big as Hf.
  assert (0 <= IZR a)%R as Ha1' by (by apply IZR_le).
  assert (IZR a < IZR (2 ^ 1023))%R as Ha2' by (by apply IZR_lt).
  assert (1 <= IZR b)%R as Hb' by (apply IZR_le; lia).
  assert (IZR a / IZR b <= IZR a)%R as Hq.
  { apply (Rmult_le_reg_r (IZR b)); [lra|].
    replace (IZR a / IZR b * IZR b) with (IZR a) by (field; lra). nra. }
  assert (0 <= IZR a / IZR b)%R as Hq0.
  { apply Rmult_le_pos; [done|]. apply Rlt_le, Rinv_0_lt_compat. lra. }
  rewrite Rabs_pos_eq in Hbig by done. lra.
Qed.

Lemma truediv_1 (K : Z) : (1 <= K)%Z -> truediv 1 K = Ok (1 / IZR K).
Proof. intros HK. apply truediv_Ok; [|lia]. split; [lia|by vm_compute]. Qed.

Section plan.
Variables (memory_limit buffer_size : Z) (num_split_files : nat).
Variable update_buffer_size : bool.
Hypothesis buffer_pos : (0 < buffer_size)%Z.
Hypothesis ratio_gt_2 : (2 * buffer_size < memory_limit)%Z.
Hypothesis chunks_ge_2 : (2 <= num_split_files)%nat.
Hypothesis memory_finite : (memory_limit < 2 ^ 1023)%Z.

Lemma ratio_gt_1 : 1 < IZR memory_limit / IZR buffer_size - 1.
Proof.
  assert (0 < IZR buffer_size) as HB by (by apply IZR_lt).
  assert (2 * IZR buffer_size < IZR memory_limit) as HM.
  { rewrite <- mult_IZR. by apply IZR_lt. }
  assert (2 < IZR memory_limit / IZR buffer_size); [|lra].
  apply (Rmult_lt_reg_r (IZR buffer_size)); [done|].
  replace (IZR memory_limit / IZR buffer_size * IZR buffer_size)
    with (IZR memory_limit) by (field; lra).
  lra.
Qed.

Lemma chunks_gt_1 : 1 < INR num_split_files.
Proof. apply lt_1_INR. lia. Qed.

Lemma num_merges_pos :
  (1 <= Zceil (ln (INR num_split_files) /
               ln (IZR memory_limit / IZR buffer_size - 1)))%Z.
Proof.
  pose proof (ln_pos _ ratio_gt_1) as Hla. pose proof (ln_pos _ chunks_gt_1) as Hln.
  match goal with |- (1 <= Zceil ?x)%Z =>
    pose proof (Zceil_bound x) as [_ Hb]; assert (0 < x) as Hx end.
  { apply Rmult_lt_0_compat; [done|]. by apply Rinv_0_lt_compat. }
  apply Z.lt_pred_le. change (Z.pred 1) with 0%Z. apply lt_IZR. lra.
Qed.

Lemma num_files_pos K :
  (1 <= Zceil (Rpower (INR num_split_files) (1 / IZR K)))%Z.
Proof.
  match goal with |- (1 <= Zceil ?x)%Z =>
    pose proof (Zceil_bound x) as [_ Hb]; assert (0 < x) as Hx by apply exp_pos end.
  apply Z.lt_pred_le. change (Z.pred 1) with 0%Z. apply lt_IZR. lra.
Qed.

(** The planner returns, and what it returns. *)
Lemma _get_pass_params_value :
  _get_pass_params memory_limit buffer_size num_split_files update_buffer_size =
  let K := Zceil (ln (INR num_split_files) /
                  ln (IZR memory_limit / IZR buffer_size - 1)) in
  let X := Zceil (Rpower (INR num_split_files) (1 / IZR K)) in
  Ok (K, X, if update_buffer_size then (memory_limit / (X + 1))%Z
            else buffer_size).
Proof.
  pose proof ratio_gt_1 as Ha. pose proof chunks_gt_1 as Hn.
  pose proof (ln_pos _ Ha) as Hla. pose proof (ln_pos _ Hn) as Hln.
  pose proof num_merges_pos as HK.
  unfold _get_pass_params.
  rewrite (truediv_Ok memory_limit buffer_size) by lia. cbn [bind].
  rewrite np_log_pos by lra. rewrite np_log_pos by lra.
  rewrite np_div_Fin by lra. rewrite np_div_Fin.
  2:{ unfold Rdiv. apply Rmult_integral_contrapositive_currified; [lra|].
      apply Rinv_neq_0_compat. lra. }
  replace (1 / (ln (IZR memory_limit / IZR buffer_size - 1) /
                ln (INR num_split_files)))
    with (ln (INR num_split_files) /
          ln (IZR memory_limit / IZR buffer_size - 1)) by (field; lra).
  cbn [np_ceil py_int bind]. rewrite trunc_IZR.
  set (K := Zceil _) in *.
  rewrite (truediv_1 K) by lia. cbn [bind].
  rewrite py_pow_pos by lia.
  cbn [bind np_ceil py_int]. rewrite trunc_IZR.
  pose proof (num_files_pos K) as HX.
  set (X := Zceil (Rpower _ _)) in *. cbv zeta.
  destruct update_buffer_size; [|done].
  rewrite (truediv_Ok memory_limit (X + 1)) by lia. cbn [bind py_int].
  rewrite trunc_div by lia. done.
Qed.

(** The number of passes [K] is the least with
    [N <= (M / B - 1) ^ K], the fan-in [X] the least with [N <= X ^ K]. *)
Lemma num_merges_char (K : Z) :
  (1 <= K)%Z ->
  (Zceil (ln (INR num_split_files) /
          ln (IZR memory_limit / IZR buffer_size - 1)) = K <->
   ((memory_limit - buffer_size) ^ (K - 1)
      < Z.of_nat num_split_files * buffer_size ^ (K - 1) /\
    Z.of_nat num_split_files * buffer_size ^ K
      <= (memory_limit - buffer_size) ^ K)%Z).
Proof.
  intros HK. pose proof ratio_gt_1 as Ha. pose proof chunks_gt_1 as Hn.
  rewrite <- (Z2Nat.id K) at 4 5 by lia.
  rewrite <- (Z2Nat.id (K - 1)) by lia.
  rewrite <- ratio_pow_le, <- ratio_pow_lt by done.
  rewrite <- log_ratio_le, <- log_ratio_lt by lra.
  rewrite !INR_IZR_INZ, !Z2Nat.id by lia. rewrite minus_IZR.
  split.
  - intros <-. match goal with |- context [Zceil ?x] =>
      pose proof (Zceil_bound x) end. lra.
  - intros [H1 H2]. apply Zceil_eq. lra.
Qed.

Lemma num_files_char (K X : Z) :
  (1 <= K)%Z -> (1 <= X)%Z ->
  (Zceil (Rpower (INR num_split_files) (1 / IZR K)) = X <->
   ((X - 1) ^ K < Z.of_nat num_split_files <= X ^ K)%Z).
Proof.
  intros HK HX. pose proof chunks_gt_1 as Hn.
  rewrite <- (Z2Nat.id K) at 2 3 by lia.
  rewrite <- int_pow_le, <- int_pow_lt.
  assert (IZR K = INR (Z.to_nat K)) as EK by (by rewrite INR_IZR_INZ, Z2Nat.id by lia).
  assert (1 <= IZR X) as HXR by (by apply IZR_le).
  rewrite EK.
  rewrite <- root_le, <- root_lt; try lra; try lia.
  2:{ rewrite minus_IZR. lra. }
  rewrite minus_IZR. split.
  - intros <-. match goal with |- context [Zceil ?x] =>
      pose proof (Zceil_bound x) end. lra.
  - intros [H1 H2]. apply Zceil_eq. lra.
Qed.

(** The plan, evaluated: any [K] and [X] with these bounds are the ones
    returned. *)
Lemma _get_pass_params_eval (K X : Z) :
  (1 <= K)%Z -> (1 <= X)%Z ->
  ((memory_limit - buffer_size) ^ (K - 1)
     < Z.of_nat num_split_files * buffer_size ^ (K - 1))%Z ->
  (Z.of_nat num_split_files * buffer_size ^ K
     <= (memory_limit - buffer_size) ^ K)%Z ->
  ((X - 1) ^ K < Z.of_nat num_split_files <= X ^ K)%Z ->
  _get_pass_params memory_limit buffer_size num_split_files update_buffer_size =
  Ok (K, X, if update_buffer_size then (memory_limit / (X + 1))%Z
            else buffer_size).
Proof.
  intros HK HX H1 H2 H3. rewrite _get_pass_params_value. cbv zeta.
  rewrite (proj2 (num_merges_char K HK)) by done.
  by rewrite (proj2 (num_files_char K X HK HX)).
Qed.

End plan.

(** ** The planner on no chunk at all *)

Lemma _get_pass_params_0 memory_limit buffer_size update_buffer_size :
  exists e, _get_pass_params memory_limit buffer_size 0 update_buffer_size
            = Raise e.
Proof.
  unfold _get_pass_params, truediv.
  destruct (buffer_size =? 0)%Z; [by eexists|].
  destruct (Rle_dec _ _); [by eexists|]. cbn [bind].
  change (INR 0) with 0. rewrite np_log_0.
  destruct (np_log (IZR memory_limit / IZR buffer_size - 1)) as [x| |].
  - change (np_div (Fin x) Inf) with (Fin 0).
    rewrite np_div_Fin_0 by lra. by eexists.
  - by eexists.
  - by eexists.
Qed.

Lemma _get_pass_params_0_overflow memory_limit buffer_size update_buffer_size :
  (0 < buffer_size < memory_limit)%Z ->
  _get_pass_params memory_limit buffer_size 0 update_buffer_size
  = Raise OverflowError.
Proof.
  intros [HB HM]. unfold _get_pass_params, truediv.
  rewrite (proj2 (Z.eqb_neq buffer_size 0)) by lia.
  destruct (Rle_dec _ _); [done|]. cbn [bind].
  change (INR 0) with 0. rewrite np_log_0, np_log_pos.
  - change (np_div (Fin ?x) Inf) with (Fin 0).
    by rewrite np_div_Fin_0 by lra.
  - assert (0 < IZR buffer_size) as HbR by (by apply IZR_lt).
    assert (IZR buffer_size < IZR memory_limit) as HmR by (by apply IZR_lt).
    assert (1 < IZR memory_limit / IZR buffer_size); [|lra].
    apply (Rmult_lt_reg_r (IZR buffer_size)); [done|].
    replace (IZR memory_limit / IZR buffer_size * IZR buffer_size)
      with (IZR memory_limit) by (field; lra).
    lra.
Qed.

End PlanFacts.


(** * Theory of the sorter *)

Module SortFacts.
Import Py PyStr SplitSpec Sorter SortSpec StrFacts.
Local Open Scope run_scope.

(** ** Running a method *)

Lemma bindM_Ok {A B} (m : M A) (k : A -> M B) w a w' :
  m w = (Ok a, w') -> bindM m k w = k a w'.
Proof. unfold bindM. by intros ->. Qed.

Lemma bindM_Raise {A B} (m : M A) (k : A -> M B) w e w' :
  m w = (Raise e, w') -> bindM m k w = (Raise e, w').
Proof. unfold bindM. by intros ->. Qed.

Lemma set_temp_dir_id w d : temp_dir w = Some d -> set_temp_dir (Some d) w = w.
Proof. destruct w. simpl. by intros ->. Qed.

Lemma set_temp_dir_twice d1 d2 w :
  set_temp_dir d2 (set_temp_dir d1 w) = set_temp_dir d2 w.
Proof. done. Qed.

Lemma saved_write_saved text w : saved (write_saved text w) = Some text.
Proof. unfold saved, write_saved. cbn. by destruct (save_path w). Qed.

Lemma saved_log e w : saved (log e w) = saved w.
Proof. done. Qed.

Lemma saved_set_temp_dir d w : saved (set_temp_dir d w) = saved w.
Proof. done. Qed.

Lemma saved_set_mode m w : saved (set_mode m w) = saved w.
Proof. done. Qed.

Lemma saved_set_num_split_files n w : saved (set_num_split_files n w) = saved w.
Proof. done. Qed.

Lemma saved_set_buffer_size b w : saved (set_buffer_size b w) = saved w.
Proof. done. Qed.

(** The text at [save_path] after the two calls of [_move_to_save_path]. *)
Lemma saved_moved name text d w :
  saved (log RemoveDirs
           (set_temp_dir None
              (log (Rename name)
                 (write_saved text (set_temp_dir d w))))) = Some text.
Proof.
  by rewrite saved_log, saved_set_temp_dir, saved_log, saved_write_saved.
Qed.

Lemma config_inv w' w :
  config w' = config w ->
  memory_limit w' = memory_limit w /\ buffer_size w' = buffer_size w /\
  update_buffer_size w' = update_buffer_size w /\ mode w' = mode w /\
  num_split_files w' = num_split_files w /\ file_text w' = file_text w /\
  saved w' = saved w.
Proof. unfold config. intros [= ? ? ? ? ? ? ?]. by split_and!. Qed.

(** ** Names *)

Lemma _make_tempfile_path_split w i o :
  mode w = "split" -> _make_tempfile_path i o w = (Ok (split_name i), w).
Proof. intros Hm. unfold _make_tempfile_path, bindM, get. by rewrite Hm. Qed.

Lemma _make_tempfile_path_merge w i p :
  mode w = "merge" ->
  _make_tempfile_path i (Some p) w = (Ok (merge_name p i), w).
Proof. intros Hm. unfold _make_tempfile_path, bindM, get. by rewrite Hm. Qed.

Lemma write_file_Ok w d name text :
  temp_dir w = Some d ->
  write_file name text w = (Ok tt, set_temp_dir (Some (<[name := text]> d)) w).
Proof. intros Hd. unfold write_file, bindM, get. by rewrite Hd. Qed.

Lemma bind_write_file {B} name text (k : unit -> M B) d w :
  temp_dir w = Some d ->
  bindM (write_file name text) k w
  = k tt (set_temp_dir (Some (<[name := text]> d)) w).
Proof. intros Hd. by rewrite (bindM_Ok _ _ _ _ _ (write_file_Ok _ _ _ _ Hd)). Qed.

(** ** [_split] writes one sorted chunk file per block *)

Lemma _split_loop_spec fuel : forall bi block f w d,
  temp_dir w = Some d -> mode w = "split" ->
  _split_loop fuel bi block f w =
  (Ok (bi + length (split_blocks fuel (memory_limit w) block f)),
   set_temp_dir
     (Some (chunk_files bi (split_blocks fuel (memory_limit w) block f) d)) w).
Proof.
  induction fuel as [|fuel IH]; intros bi block f w d Hd Hm.
  { simpl. unfold ret. by rewrite Nat.add_0_r, set_temp_dir_id. }
  rewrite split_blocks_S. destruct block as [|l block].
  { simpl. unfold ret. by rewrite Nat.add_0_r, set_temp_dir_id. }
  cbn [_split_loop].
  rewrite (bindM_Ok _ _ _ _ _ (_make_tempfile_path_split w bi None Hm)).
  erewrite bindM_Ok; [|by apply write_file_Ok].
  unfold bindM at 1, get at 1. cbn [memory_limit set_temp_dir].
  destruct (readlines (memory_limit w) f) as [block' f'] eqn:E.
  cbn [fst snd].
  erewrite IH; [|done..].
  cbn [length chunk_files memory_limit set_temp_dir].
  f_equal; [f_equal; lia|].
  rewrite Nat.add_1_r. done.
Qed.

Lemma _split_spec w d :
  temp_dir w = Some d ->
  _split w =
  (Ok tt,
   set_num_split_files (length (blocks_of (memory_limit w) (file_text w)))
     (set_temp_dir
        (Some (chunk_files 0 (blocks_of (memory_limit w) (file_text w)) d))
        (set_mode "split" w))).
Proof.
  intros Hd. unfold _split, blocks_of.
  unfold bindM at 1, modify at 1. unfold bindM at 1, get at 1.
  cbn [memory_limit file_text set_mode].
  destruct (readlines (memory_limit w) (lines_of (file_text w))) as [b f'].
  erewrite bindM_Ok; [|by apply _split_loop_spec]. done.
Qed.

(** ** The chunk files *)

Lemma heapsort_sorted block : sorted_lines (Heapq.heapsort str_lt block).
Proof.
  apply (HeapFacts.heapsort_spec str_lt str_lt_irrefl str_lt_trans str_lt_total).
Qed.

Lemma heapsort_Permutation block : Heapq.heapsort str_lt block ≡ₚ block.
Proof.
  apply (HeapFacts.heapsort_spec str_lt str_lt_irrefl str_lt_trans str_lt_total).
Qed.

Lemma good_text_written lines :
  Forall (fun l => is_line l = true) lines -> sorted_lines lines ->
  good_text (written lines).
Proof. intros Hl Hs. unfold good_text. by rewrite lines_of_written. Qed.

Lemma good_text_chunk block :
  Forall (fun l => is_line l = true) block ->
  good_text (written (Heapq.heapsort str_lt block)).
Proof.
  intros Hl. apply good_text_written; [|apply heapsort_sorted].
  by rewrite heapsort_Permutation.
Qed.

Lemma chunk_files_lookup_lt bs : forall i d name,
  (forall j, i <= j -> name <> split_name j) ->
  chunk_files i bs d !! name = d !! name.
Proof.
  induction bs as [|b bs IH]; intros i d name Hne; simpl; [done|].
  rewrite IH by (intros j Hj; apply Hne; lia).
  apply lookup_insert_ne. intros E. by apply (Hne i).
Qed.

Lemma chunk_files_lookup bs : forall i d j b,
  bs !! j = Some b ->
  chunk_files i bs d !! split_name (i + j)
  = Some (written (Heapq.heapsort str_lt b)).
Proof.
  induction bs as [|b' bs IH]; intros i d [|j] b Hb; simplify_eq/=.
  - rewrite Nat.add_0_r, chunk_files_lookup_lt.
    + apply lookup_insert_eq.
    + intros j Hj E%split_name_inj. lia.
  - replace (i + S j) with (S i + j) by lia. by apply IH.
Qed.

Lemma chunk_files_size bs : forall i d,
  (forall j, i <= j -> d !! split_name j = None) ->
  size (chunk_files i bs d) = length bs + size d.
Proof.
  induction bs as [|b bs IH]; intros i d Hfree; simpl; [done|].
  rewrite IH.
  - rewrite map_size_insert_None by (by apply Hfree). lia.
  - intros j Hj. rewrite lookup_insert_ne; [apply Hfree; lia|].
    intros E%split_name_inj. lia.
Qed.

Lemma chunk_files_lines bs : forall i d,
  (forall j, i <= j -> d !! split_name j = None) ->
  Forall (Forall (fun l => is_line l = true)) bs ->
  lines_in (chunk_files i bs d) ≡ₚ concat bs ++ lines_in d.
Proof.
  induction bs as [|b bs IH]; intros i d Hfree Hl; simpl; [done|].
  apply Forall_cons in Hl as [Hb Hbs].
  rewrite IH; [|intros j Hj|done].
  - rewrite lines_in_insert by (by apply Hfree).
    rewrite lines_of_written by (by rewrite heapsort_Permutation).
    rewrite heapsort_Permutation. rewrite <- (assoc (++)).
    rewrite (assoc (++) (concat bs)), (comm (++) (concat bs) b).
    by rewrite <- (assoc (++)).
  - rewrite lookup_insert_ne; [apply Hfree; lia|].
    intros E%split_name_inj. lia.
Qed.

Lemma chunk_files_good bs : forall i d,
  map_Forall (fun _ text => good_text text) d ->
  Forall (Forall (fun l => is_line l = true)) bs ->
  map_Forall (fun _ text => good_text text) (chunk_files i bs d).
Proof.
  induction bs as [|b bs IH]; intros i d Hd Hl; simpl; [done|].
  apply Forall_cons in Hl as [Hb Hbs]. apply IH; [|done].
  apply map_Forall_insert_2; [by apply good_text_chunk|done].
Qed.

Lemma chunk_files_fresh bs i d q :
  fresh_for q d -> fresh_for q (chunk_files i bs d).
Proof.
  intros Hd k. rewrite chunk_files_lookup_lt; [apply Hd|].
  intros j _ E. by apply (split_merge_ne j q k).
Qed.

Lemma blocks_of_lines hint text :
  terminated text = true ->
  Forall (Forall (fun l => is_line l = true)) (blocks_of hint text).
Proof.
  intros Ht%lines_of_terminated. rewrite <- (blocks_of_concat hint) in Ht.
  induction (blocks_of hint text) as [|b bs IH]; [constructor|].
  simpl in Ht. apply Forall_app in Ht as [? ?]. constructor; auto.
Qed.

(** After the split phase the workspace holds the lines of the input. *)
Lemma split_workspace_ok hint text :
  terminated text = true ->
  workspace_ok 0 (length (blocks_of hint text)) (lines_of text)
    (chunk_files 0 (blocks_of hint text) ∅).
Proof.
  intros Ht. pose proof (blocks_of_lines hint text Ht) as Hl.
  split; [|split; [|split]].
  - rewrite chunk_files_size by (intros; apply lookup_empty).
    rewrite map_size_empty. lia.
  - apply chunk_files_good; [apply map_Forall_empty|done].
  - rewrite chunk_files_lines; [|intros; apply lookup_empty|done].
    by rewrite lines_in_empty, app_nil_r, blocks_of_concat.
  - intros q _. apply chunk_files_fresh. intros i. apply lookup_empty.
Qed.

(** ** [_merge_files] *)

Lemma without_lookup files : forall (d : gmap string string) k,
  without files d !! k = if decide (k ∈ files) then None else d !! k.
Proof.
  unfold without. induction files as [|f files IH]; intros d k; cbn [foldl].
  { destruct (decide (k ∈ [])) as [Hk|]; [by apply elem_of_nil in Hk|done]. }
  rewrite IH. destruct (decide (k = f)) as [->|Hne].
  - rewrite lookup_delete_eq.
    destruct (decide (f ∈ f :: files)) as [|Hn]; [by case_decide|].
    exfalso. apply Hn. by left.
  - rewrite lookup_delete_ne by done.
    destruct (decide (k ∈ files)) as [?|?], (decide (k ∈ f :: files)) as [?|?];
      try done; set_solver.
Qed.

Lemma without_insert_ne files (d : gmap string string) k t :
  k ∉ files -> without files (<[k := t]> d) = <[k := t]> (without files d).
Proof.
  intros Hk. apply map_eq. intros j.
  destruct (decide (j = k)) as [->|Hne].
  - by rewrite lookup_insert_eq, without_lookup, decide_False, lookup_insert_eq.
  - rewrite lookup_insert_ne, !without_lookup by done.
    case_decide; [done|]. by rewrite lookup_insert_ne.
Qed.

Lemma open_all_Ok files : forall w d,
  temp_dir w = Some d -> opens (buffer_size w) ->
  (forall f, f ∈ files -> is_Some (d !! f)) ->
  open_all files w = (Ok tt, w).
Proof.
  induction files as [|f files IH]; intros w d Hd Hb Hin; simpl; [done|].
  destruct (Hin f) as [t Ht]; [by left|].
  erewrite bindM_Ok.
  - eapply IH; eauto. intros g Hg. apply Hin. by right.
  - destruct Hb as [Hc Hb]. unfold open_read, bindM, get.
    rewrite Hc, Hd, Ht. cbn [negb].
    by rewrite (proj2 (Z.eqb_neq _ _) Hb).
Qed.

Lemma remove_all_inv files : forall w w' d,
  temp_dir w = Some d -> remove_all files w = (Ok tt, w') ->
  w' = set_temp_dir (Some (without files d)) w.
Proof.
  induction files as [|f files IH]; intros w w' d Hd; simpl.
  { unfold ret. intros [= <-]. by rewrite set_temp_dir_id. }
  unfold bindM at 1, remove at 1, bindM at 1, get at 1. rewrite Hd.
  destruct (d !! f) as [t|]; [|done]. unfold modify.
  intros Hrun. eapply IH in Hrun; [|done]. by rewrite Hrun.
Qed.

Lemma remove_all_Ok files : forall w d,
  temp_dir w = Some d -> NoDup files ->
  (forall f, f ∈ files -> is_Some (d !! f)) ->
  remove_all files w = (Ok tt, set_temp_dir (Some (without files d)) w).
Proof.
  induction files as [|f files IH]; intros w d Hd Hnd Hin; simpl.
  { unfold ret. by rewrite set_temp_dir_id. }
  apply NoDup_cons in Hnd as [Hf Hnd].
  destruct (Hin f) as [t Ht]; [by left|].
  unfold bindM at 1, remove at 1, bindM at 1, get at 1. rewrite Hd, Ht.
  unfold modify. erewrite IH; [done|done|done|].
  intros g Hg. rewrite lookup_delete_ne by (intros ->; done).
  apply Hin. by right.
Qed.

Lemma texts_of_insert_ne files (d : gmap string string) k t :
  k ∉ files -> texts_of files (<[k := t]> d) = texts_of files d.
Proof.
  intros Hk. unfold texts_of. apply list_fmap_ext. intros i f Hf.
  rewrite lookup_insert_ne; [done|]. intros ->.
  apply Hk. by eapply list_elem_of_lookup_2.
Qed.

Lemma _merge_files_Ok files save_path w d :
  temp_dir w = Some d -> opens (buffer_size w) -> NoDup files ->
  (forall f, f ∈ files -> is_Some (d !! f)) -> save_path ∉ files ->
  _merge_files files save_path w =
  (Ok tt,
   set_temp_dir (Some (<[save_path := merged files d]> (without files d)))
     (log (MergeFiles files save_path) w)).
Proof.
  intros Hd Hb Hnd Hin Hsp. unfold _merge_files.
  unfold bindM at 1, modify at 1.
  rewrite (bindM_Ok _ _ _ tt (log (MergeFiles files save_path) w))
    by (by eapply open_all_Ok).
  destruct Hb as [Hc Hb].
  unfold bindM at 1, get at 1. cbn [buffer_size log]. rewrite Hc. cbn [negb].
  rewrite (bind_write_file _ _ _ d) by done.
  unfold bindM at 1, get at 1.
  cbn [buffer_size temp_dir set_temp_dir log]. cbn [default].
  rewrite (proj2 (Z.eqb_neq _ _) Hb).
  rewrite (bind_write_file _ _ _ (<[save_path := ""]> d)) by done.
  cbn [set_temp_dir]. rewrite insert_insert_eq.
  etrans.
  { eapply remove_all_Ok; [reflexivity|done|].
    intros f Hf. rewrite lookup_insert_ne by (intros ->; done). by apply Hin. }
  rewrite !set_temp_dir_twice, without_insert_ne by done.
  do 4 f_equal. unfold merged, texts_of. rewrite <- list_fmap_compose.
  do 2 f_equal. apply list_fmap_ext. intros i f Hf. simpl.
  rewrite lookup_insert_ne; [done|]. intros ->.
  apply Hsp. by eapply list_elem_of_lookup_2.
Qed.

(** A merge that returns has deleted every one of its inputs. *)
Lemma _merge_files_removes files save_path w w' :
  _merge_files files save_path w = (Ok tt, w') ->
  exists d', temp_dir w' = Some d' /\ forall f, f ∈ files -> d' !! f = None.
Proof.
  unfold _merge_files. unfold bindM at 1, modify at 1.
  unfold bindM at 1.
  destruct (open_all files _) as [[[]|e] w1] eqn:Hopen; [|done].
  unfold bindM at 1, get at 1.
  destruct (negb (c_int_ok (buffer_size w1))); [done|].
  unfold bindM at 1, write_file at 1, bindM at 1, get at 1.
  destruct (temp_dir w1) as [d1|] eqn:Hd1; [|done]. unfold modify at 1.
  unfold bindM at 1, get at 1. cbn [buffer_size set_temp_dir].
  destruct (buffer_size w1 =? 0)%Z; [done|].
  unfold bindM at 1, write_file at 1, bindM at 1, get at 1.
  cbn [temp_dir set_temp_dir]. unfold modify at 1. cbn [set_temp_dir].
  intros Hrun. eapply remove_all_inv in Hrun; [|done].
  subst w'. eexists. split; [done|].
  intros f Hf. by rewrite without_lookup, decide_True.
Qed.

(** ** What a merge does to the workspace *)

Lemma texts_of_delete_ne files (d : gmap string string) k :
  k ∉ files -> texts_of files (delete k d) = texts_of files d.
Proof.
  intros Hk. unfold texts_of. apply list_fmap_ext. intros i f Hf.
  rewrite lookup_delete_ne; [done|]. intros ->.
  apply Hk. by eapply list_elem_of_lookup_2.
Qed.

Lemma texts_of_cons f files (d : gmap string string) :
  texts_of (f :: files) d = default "" (d !! f) :: texts_of files d.
Proof. done. Qed.

Lemma without_cons f files (d : gmap string string) :
  without (f :: files) d = without files (delete f d).
Proof. done. Qed.

Lemma lines_in_without files : forall d : gmap string string,
  NoDup files -> (forall f, f ∈ files -> is_Some (d !! f)) ->
  lines_in d ≡ₚ
  concat (lines_of <$> texts_of files d) ++ lines_in (without files d).
Proof.
  induction files as [|f files IH]; intros d Hnd Hin; [done|].
  apply NoDup_cons in Hnd as [Hf Hnd].
  destruct (Hin f) as [t Ht]; [by left|].
  rewrite texts_of_cons, without_cons, Ht, fmap_cons. cbn [default concat].
  rewrite (lines_in_delete d f t Ht), <- (assoc (++)). f_equiv; [done|].
  rewrite <- (texts_of_delete_ne files d f) by done.
  apply IH; [done|]. intros g Hg.
  rewrite lookup_delete_ne by (intros ->; done). apply Hin. by right.
Qed.

Lemma size_without files : forall d : gmap string string,
  NoDup files -> (forall f, f ∈ files -> is_Some (d !! f)) ->
  size (without files d) + length files = size d.
Proof.
  induction files as [|f files IH]; intros d Hnd Hin; [simpl; lia|].
  apply NoDup_cons in Hnd as [Hf Hnd]. rewrite without_cons.
  pose proof (map_size_delete_Some f d (Hin f ltac:(by left))) as Hsz.
  destruct (Hin f) as [t Ht]; [by left|].
  assert (size d <> 0) as Hne by (by eapply map_size_ne_0_lookup_2).
  cbn [length]. specialize (IH (delete f d) Hnd).
  rewrite <- IH in Hsz; [lia|].
  intros g Hg. rewrite lookup_delete_ne by (intros ->; done).
  apply Hin. by right.
Qed.

Lemma without_good files (d : gmap string string) :
  map_Forall (fun _ text => good_text text) d ->
  map_Forall (fun _ text => good_text text) (without files d).
Proof.
  intros Hd k t. rewrite without_lookup. case_decide; [done|]. apply Hd.
Qed.

Lemma texts_of_good files (d : gmap string string) :
  map_Forall (fun _ text => good_text text) d ->
  (forall f, f ∈ files -> is_Some (d !! f)) ->
  Forall good_text (texts_of files d).
Proof.
  intros Hd Hin. unfold texts_of. apply Forall_fmap, Forall_forall.
  intros f Hf. destruct (Hin f Hf) as [t Ht]. simpl. rewrite Ht. simpl.
  by apply (Hd f).
Qed.

Lemma merged_lines files (d : gmap string string) :
  map_Forall (fun _ text => good_text text) d ->
  (forall f, f ∈ files -> is_Some (d !! f)) ->
  good_text (merged files d) /\
  lines_of (merged files d) ≡ₚ concat (lines_of <$> texts_of files d).
Proof.
  intros Hd Hin. pose proof (texts_of_good files d Hd Hin) as Hgood.
  unfold merged.
  pose proof (MergeFacts.merge_Permutation str_lt str_lt_irrefl str_lt_trans
                str_lt_total (lines_of <$> texts_of files d)) as Hperm.
  assert (Forall (fun l => is_line l = true)
            (Heapq.merge str_lt (lines_of <$> texts_of files d))) as Hlines.
  { rewrite Hperm. apply Forall_concat, Forall_fmap.
    eapply Forall_impl; [exact Hgood|]. by intros t [? _]. }
  split.
  - apply good_text_written; [done|].
    apply (MergeFacts.merge_sorted str_lt str_lt_irrefl str_lt_trans
             str_lt_total).
    apply Forall_fmap. eapply Forall_impl; [exact Hgood|]. by intros t [_ ?].
  - by rewrite lines_of_written.
Qed.

Lemma merge_step_ok files save_path (d : gmap string string) :
  map_Forall (fun _ text => good_text text) d ->
  NoDup files -> (forall f, f ∈ files -> is_Some (d !! f)) ->
  d !! save_path = None ->
  let d1 := <[save_path := merged files d]> (without files d) in
  size d1 + length files = S (size d) /\
  map_Forall (fun _ text => good_text text) d1 /\
  lines_in d1 ≡ₚ lines_in d.
Proof.
  intros Hgood Hnd Hin Hsp d1.
  assert (without files d !! save_path = None) as Hsp'.
  { rewrite without_lookup. by case_decide. }
  destruct (merged_lines files d Hgood Hin) as [Hm1 Hm2].
  split; [|split].
  - unfold d1. rewrite map_size_insert_None by done.
    pose proof (size_without files d Hnd Hin). lia.
  - apply map_Forall_insert_2; [done|by apply without_good].
  - unfold d1. rewrite lines_in_insert by done.
    by rewrite Hm2, <- lines_in_without.
Qed.

(** ** One pass: the groups of [X] files are merged one after the other *)

Lemma groups_0 X : groups 0 X = 0.
Proof.
  unfold groups. destruct X as [|X]; [done|].
  apply Nat.div_small. lia.
Qed.

Lemma groups_step m X : 1 <= X -> 0 < m -> groups m X = S (groups (m - X) X).
Proof.
  intros HX Hm. unfold groups.
  destruct (decide (X <= m)) as [Hle|Hgt].
  - replace (m + (X - 1)) with ((m - X + (X - 1)) + 1 * X) by lia.
    rewrite Nat.div_add by lia. lia.
  - replace (m - X) with 0 by lia.
    rewrite (Nat.div_small (0 + (X - 1))) by lia.
    symmetry. apply (Nat.div_unique _ _ _ (m - 1)); lia.
Qed.

Lemma file_index_eq j X : 1 <= X -> (j * X + (X - 1)) / X = j.
Proof.
  intros HX. rewrite Nat.add_comm, Nat.div_add by lia.
  rewrite Nat.div_small; lia.
Qed.

Section pass.
Variables (X p : nat) (L : list string).
Hypothesis X_pos : 1 <= X.
Hypothesis L_NoDup : NoDup L.

Lemma _merge_groups_S fuel s spt :
  _merge_groups (S fuel) X L s p spt =
  if s <? length L then
    let* save_path_tmp := _make_tempfile_path ((s + (X - 1)) / X) (Some p) in
    _merge_files (take X (drop s L)) save_path_tmp;;
    _merge_groups fuel X L (s + X) p (Some save_path_tmp)
  else ret spt.
Proof. reflexivity. Qed.

Lemma drop_group j :
  drop (j * X) L = take X (drop (j * X) L) ++ drop (S j * X) L.
Proof.
  rewrite <- (take_drop X (drop (j * X) L)) at 1. f_equal.
  rewrite drop_drop. f_equal. lia.
Qed.

Lemma _merge_groups_spec fuel : forall j spt w dc,
  temp_dir w = Some dc -> mode w = "merge" -> opens (buffer_size w) ->
  length L <= fuel + j * X ->
  (forall f, f ∈ drop (j * X) L -> is_Some (dc !! f)) ->
  (forall i, j <= i -> dc !! merge_name p i = None) ->
  size dc = length (drop (j * X) L) + j ->
  map_Forall (fun _ text => good_text text) dc ->
  exists w' d' spt',
    _merge_groups fuel X L (j * X) p spt w = (Ok spt', w') /\
    temp_dir w' = Some d' /\ config w' = config w /\
    size d' = j + groups (length L - j * X) X /\
    map_Forall (fun _ text => good_text text) d' /\
    lines_in d' ≡ₚ lines_in dc /\
    (forall q, q <> p -> fresh_for q dc -> fresh_for q d') /\
    (j * X < length L -> exists name, spt' = Some name /\ is_Some (d' !! name)) /\
    (length L <= j * X -> spt' = spt /\ d' = dc).
Proof.
  induction fuel as [|fuel IH]; intros j spt w dc Hd Hm Hb Hfuel Hin Hfresh Hsize Hgood.
  { exists w, dc, spt. simpl. rewrite drop_ge in Hsize by lia. simpl in Hsize.
    replace (length L - j * X) with 0 by lia. rewrite groups_0.
    split_and!; first [done | lia | intros; lia]. }
  rewrite _merge_groups_S.
  destruct (j * X <? length L) eqn:Hlt;
    [apply Nat.ltb_lt in Hlt|apply Nat.ltb_ge in Hlt].
  2:{ exists w, dc, spt. rewrite drop_ge in Hsize by lia. simpl in Hsize.
      replace (length L - j * X) with 0 by lia. rewrite groups_0.
      split_and!; first [done | lia | intros; lia]. }
  rewrite file_index_eq by done.
  rewrite (bindM_Ok _ _ _ _ _ (_make_tempfile_path_merge w j p Hm)).
  set (files := take X (drop (j * X) L)).
  set (sp := merge_name p j).
  pose proof (drop_group j) as Hsplit. fold files in Hsplit.
  assert (NoDup (drop (j * X) L)) as Hnd.
  { rewrite <- (take_drop (j * X) L) in L_NoDup.
    by apply NoDup_app in L_NoDup as (_ & _ & ?). }
  rewrite Hsplit in Hnd. apply NoDup_app in Hnd as (Hnd1 & Hdisj & Hnd2).
  assert (forall f, f ∈ files -> is_Some (dc !! f)) as Hin1.
  { intros f Hf. apply Hin. rewrite Hsplit. apply elem_of_app. by left. }
  assert (dc !! sp = None) as Hsp by (by apply Hfresh).
  assert (sp ∉ files) as Hspf.
  { intros Hf. apply Hin1 in Hf as [t Ht]. congruence. }
  rewrite (bindM_Ok _ _ _ _ _ (_merge_files_Ok files sp w dc Hd Hb Hnd1 Hin1 Hspf)).
  destruct (merge_step_ok files sp dc Hgood Hnd1 Hin1 Hsp) as (Hs1 & Hg1 & Hl1).
  set (d1 := <[sp := merged files dc]> (without files dc)) in *.
  replace (j * X + X) with (S j * X) by lia.
  assert (length files + length (drop (S j * X) L) = length (drop (j * X) L))
    as Hlen by (rewrite <- length_app; by rewrite <- Hsplit).
  assert (0 < length files) as Hfiles.
  { unfold files. rewrite length_take, length_drop. lia. }
  destruct (IH (S j) (Some sp)
              (set_temp_dir (Some d1) (log (MergeFiles files sp) w)) d1)
    as (w' & d' & spt' & Hrun & Hd' & Hcfg & Hsz & Hg' & Hl' & Hfr & Hlast & Hstop).
  - done.
  - done.
  - done.
  - lia.
  - intros f Hf. unfold d1. rewrite lookup_insert_ne.
    + rewrite without_lookup, decide_False by (intros ?; by eapply Hdisj).
      apply Hin. rewrite Hsplit. apply elem_of_app. by right.
    + intros <-. assert (is_Some (dc !! sp)) as [? ?]; [|congruence].
      apply Hin. rewrite Hsplit. apply elem_of_app. by right.
  - intros i Hi. unfold d1. rewrite lookup_insert_ne.
    + rewrite without_lookup. case_decide; [done|]. apply Hfresh. lia.
    + intros [_ E]%merge_name_inj. lia.
  - lia.
  - done.
  - exists w', d', spt'. split; [done|]. split; [done|]. split; [done|].
    split. { rewrite Hsz, (groups_step (length L - j * X)) by lia.
             replace (length L - j * X - X) with (length L - S j * X) by lia. lia. }
    split; [done|]. split; [by rewrite Hl'|].
    split. { intros q Hq Hfq. apply Hfr; [done|]. intros i. unfold d1.
             rewrite lookup_insert_ne by (intros [E _]%merge_name_inj; done).
             rewrite without_lookup. case_decide; [done|]. apply Hfq. }
    split; [|lia]. intros _.
    destruct (decide (S j * X < length L)) as [Hmore|Hdone].
    + by apply Hlast.
    + destruct Hstop as [-> ->]; [lia|]. exists sp. split; [done|].
      unfold d1. rewrite lookup_insert_eq. by eexists.
Qed.
End pass.

(** ** The final move *)

Lemma _move_to_save_path_last name text w d :
  temp_dir w = Some d -> size d = 1 -> d !! name = Some text ->
  _move_to_save_path name w =
  (Ok tt,
   log RemoveDirs
     (set_temp_dir None
        (log (Rename name)
           (write_saved text
              (set_temp_dir (Some (delete name d)) w))))) /\
  lines_in d ≡ₚ lines_of text.
Proof.
  intros Hd Hsize Ht.
  assert (delete name d = ∅) as Hempty.
  { apply map_size_empty_inv. rewrite map_size_delete_Some by done.
    by rewrite Hsize. }
  split.
  - unfold _move_to_save_path, bindM, get, modify. rewrite Hd, Ht.
    by rewrite decide_True.
  - by rewrite (lines_in_delete d name text Ht), Hempty, lines_in_empty, app_nil_r.
Qed.

Lemma _move_to_save_path_inv name w w' :
  _move_to_save_path name w = (Ok tt, w') ->
  exists d text,
    temp_dir w = Some d /\ d !! name = Some text /\ delete name d = ∅ /\
    w' = log RemoveDirs
           (set_temp_dir None
              (log (Rename name)
                 (write_saved text
                    (set_temp_dir (Some (delete name d)) w)))).
Proof.
  unfold _move_to_save_path, bindM, get, modify.
  destruct (temp_dir w) as [d|] eqn:Hd; [|done].
  destruct (d !! name) as [text|] eqn:Ht; [|done].
  destruct (decide (delete name d = ∅)) as [He|]; [|done].
  intros [= <-]. by exists d, text.
Qed.

(** ** The passes *)

Lemma groups_bound n X Y :
  1 <= X -> 1 <= n -> n <= X * Y -> 1 <= groups n X <= Y.
Proof.
  intros HX Hn HY. unfold groups. split.
  - apply Nat.div_le_lower_bound; lia.
  - apply Nat.lt_succ_r, Nat.Div0.div_lt_upper_bound.
    rewrite Nat.mul_succ_r. lia.
Qed.

Section listing.
Variable iterdir : gmap string string -> list string.
Hypothesis iterdir_Permutation :
  forall d, iterdir d ≡ₚ (map_to_list d).*1.

Lemma iterdir_NoDup d : NoDup (iterdir d).
Proof. rewrite iterdir_Permutation. apply NoDup_fst_map_to_list. Qed.

Lemma iterdir_length d : length (iterdir d) = size d.
Proof.
  by rewrite iterdir_Permutation, length_fmap, length_map_to_list.
Qed.

Lemma elem_of_iterdir d f : f ∈ iterdir d -> is_Some (d !! f).
Proof.
  rewrite iterdir_Permutation. intros [[k t] [-> Hkt]]%list_elem_of_fmap.
  apply elem_of_map_to_list in Hkt. by eexists.
Qed.

Lemma _merge_pass_spec X p spt n L w d :
  temp_dir w = Some d -> mode w = "merge" -> opens (buffer_size w) ->
  (1 <= X)%Z -> workspace_ok p n L d ->
  exists w' d' spt',
    _merge_pass iterdir X p spt w = (Ok spt', w') /\
    temp_dir w' = Some d' /\ config w' = config w /\
    workspace_ok (S p) (groups n (Z.to_nat X)) L d' /\
    (0 < n -> exists name, spt' = Some name /\ is_Some (d' !! name)).
Proof.
  intros Hd Hm Hb HX (Hsize & Hgood & Hlines & Hfresh).
  unfold _merge_pass. unfold bindM at 1, get at 1. rewrite Hd.
  rewrite (proj2 (Z.eqb_neq X 0)) by lia.
  rewrite (proj2 (Z.ltb_ge X 0)) by lia.
  destruct (_merge_groups_spec (Z.to_nat X) p (iterdir d) ltac:(lia)
              (iterdir_NoDup d) (length (iterdir d)) 0 spt w d)
    as (w' & d' & spt' & Hrun & Hd' & Hcfg & Hsz & Hg' & Hl' & Hfr & Hlast & _).
  - done.
  - done.
  - done.
  - cbn [Nat.mul]. lia.
  - intros f Hf. cbn [Nat.mul drop] in Hf. by apply elem_of_iterdir.
  - intros i _. by apply (Hfresh p).
  - cbn [Nat.mul]. rewrite drop_0, iterdir_length. lia.
  - done.
  - exists w', d', spt'. cbn [Nat.mul] in *. split; [done|].
    split; [done|]. split; [done|]. split.
    + rewrite Nat.sub_0_r, iterdir_length, Hsize in Hsz.
      split; [done|]. split; [done|]. split; [by rewrite Hl'|].
      intros q Hq. apply Hfr; [lia|]. apply Hfresh. lia.
    + intros Hn. apply Hlast. rewrite iterdir_length. lia.
Qed.

Lemma _merge_passes_spec X count : forall p spt n L w d,
  temp_dir w = Some d -> mode w = "merge" -> opens (buffer_size w) ->
  (1 <= X)%Z -> workspace_ok p n L d ->
  1 <= n <= Z.to_nat X ^ count ->
  exists w' d' spt',
    _merge_passes iterdir count X p spt w = (Ok spt', w') /\
    temp_dir w' = Some d' /\ config w' = config w /\
    workspace_ok (p + count) 1 L d' /\
    (0 < count -> exists name, spt' = Some name /\ is_Some (d' !! name)).
Proof.
  induction count as [|count IH]; intros p spt n L w d Hd Hm Hb HX Hok Hn.
  { exists w, d, spt. simpl in Hn. replace n with 1 in Hok by lia.
    rewrite Nat.add_0_r. split_and!; try done. lia. }
  cbn [_merge_passes].
  destruct (_merge_pass_spec X p spt n L w d Hd Hm Hb HX Hok)
    as (w1 & d1 & spt1 & Hrun1 & Hd1 & Hcfg1 & Hok1 & Hlast1).
  rewrite (bindM_Ok _ _ _ _ _ Hrun1).
  assert (mode w1 = "merge" /\ opens (buffer_size w1)) as [Hm1 Hb1].
  { apply config_inv in Hcfg1 as (_ & E1 & _ & E2 & _).
    split; [congruence|by rewrite E1]. }
  destruct (groups_bound n (Z.to_nat X) (Z.to_nat X ^ count)) as [Hg1 Hg2];
    [lia|lia|rewrite <- Nat.pow_succ_r'; lia|].
  destruct (IH (p + 1) spt1 (groups n (Z.to_nat X)) L w1 d1 Hd1 Hm1 Hb1 HX) as
    (w' & d' & spt' & Hrun & Hd' & Hcfg & Hok' & Hlast).
  { by rewrite Nat.add_1_r. }
  { done. }
  exists w', d', spt'. split; [done|]. split; [done|].
  split; [by rewrite Hcfg|]. split.
  { by replace (p + S count) with (p + 1 + count) by lia. }
  intros _. destruct count as [|count].
  - simpl in Hrun. unfold ret in Hrun. simplify_eq. apply Hlast1. lia.
  - apply Hlast. lia.
Qed.



(** A pass that cannot run, raises; a pass that returns keeps the
    workspace in order, whatever the plan. *)
Lemma _merge_files_unbuffered f files save_path w d t :
  temp_dir w = Some d -> d !! f = Some t -> ~ opens (buffer_size w) ->
  exists e w', _merge_files (f :: files) save_path w = (Raise e, w').
Proof.
  intros Hd Ht Hb. unfold _merge_files.
  unfold bindM at 1, modify at 1.
  assert (exists e, open_read f (log (MergeFiles (f :: files) save_path) w)
                    = (Raise e, log (MergeFiles (f :: files) save_path) w))
    as [e He].
  { unfold open_read, bindM, get. cbn [temp_dir buffer_size log].
    destruct (c_int_ok (buffer_size w)) eqn:Hc; cbn [negb]; [|by eexists].
    rewrite Hd, Ht. destruct (buffer_size w =? 0)%Z eqn:E0; [by eexists|].
    exfalso. apply Hb. split; [done|]. by apply Z.eqb_neq. }
  exists e. eexists.
  erewrite bindM_Raise; [done|].
  cbn [open_all]. erewrite bindM_Raise; [done|]. exact He.
Qed.

Lemma _merge_pass_partial X p spt n L w d spt' w' :
  temp_dir w = Some d -> mode w = "merge" -> workspace_ok p n L d ->
  _merge_pass iterdir X p spt w = (Ok spt', w') ->
  exists d' n',
    temp_dir w' = Some d' /\ config w' = config w /\
    workspace_ok (S p) n' L d'.
Proof.
  intros Hd Hm Hok Hrun.
  assert (workspace_ok (S p) n L d) as Hok'.
  { destruct Hok as (? & ? & ? & Hfresh). split_and!; try done.
    intros q Hq. apply Hfresh. lia. }
  destruct (decide (1 <= X)%Z) as [HX|HX].
  - destruct (decide (c_int_ok (buffer_size w) = true /\
                      buffer_size w <> 0%Z)) as [Hb|Hb]; [|rename Hb into Hb'].
    2:{ (* no buffer: the first merge raises, unless there is no file *)
      assert (~ opens (buffer_size w)) as Hb by done.
      unfold _merge_pass in Hrun. unfold bindM at 1, get at 1 in Hrun.
      rewrite Hd in Hrun.
      rewrite (proj2 (Z.eqb_neq X 0)) in Hrun by lia.
      rewrite (proj2 (Z.ltb_ge X 0)) in Hrun by lia.
      destruct (iterdir d) as [|f files] eqn:HL.
      { simpl in Hrun. unfold ret in Hrun. injection Hrun as <- <-.
        exists d, n. by split_and!. }
      exfalso. cbn [length] in Hrun. rewrite _merge_groups_S in Hrun.
      cbn [length Nat.ltb Nat.leb] in Hrun.
      rewrite (bindM_Ok _ _ _ _ _ (_make_tempfile_path_merge w _ p Hm)) in Hrun.
      destruct (elem_of_iterdir d f) as [t Ht]; [rewrite HL; by left|].
      cbn [drop] in Hrun.
      destruct (Z.to_nat X) as [|X'] eqn:EX; [lia|]. cbn [take] in Hrun.
      destruct (_merge_files_unbuffered f (take X' files)
                  (merge_name p ((0 + (S X' - 1)) / S X')) w d t Hd Ht Hb)
        as (e & w1 & Hraise).
      by rewrite (bindM_Raise _ _ _ _ _ Hraise) in Hrun. }
    destruct (_merge_pass_spec X p spt n L w d Hd Hm Hb HX Hok)
      as (w1 & d1 & spt1 & Hrun1 & Hd1 & Hcfg1 & Hok1 & _).
    rewrite Hrun1 in Hrun. injection Hrun as <- <-.
    exists d1, (groups n (Z.to_nat X)). by split_and!.
  - unfold _merge_pass in Hrun. unfold bindM at 1, get at 1 in Hrun.
    rewrite Hd in Hrun. destruct (X =? 0)%Z eqn:E0; [done|].
    rewrite (proj2 (Z.ltb_lt X 0)) in Hrun by lia.
    unfold ret in Hrun. injection Hrun as <- <-. exists d, n. by split_and!.
Qed.

Lemma _merge_passes_partial X count : forall p spt n L w d spt' w',
  temp_dir w = Some d -> mode w = "merge" -> workspace_ok p n L d ->
  _merge_passes iterdir count X p spt w = (Ok spt', w') ->
  exists d' n',
    temp_dir w' = Some d' /\ config w' = config w /\
    workspace_ok (p + count) n' L d'.
Proof.
  induction count as [|count IH]; intros p spt n L w d spt' w' Hd Hm Hok Hrun.
  { simpl in Hrun. unfold ret in Hrun. injection Hrun as <- <-. exists d, n.
    rewrite Nat.add_0_r. by split_and!. }
  cbn [_merge_passes] in Hrun. unfold bindM at 1 in Hrun.
  destruct (_merge_pass iterdir X p spt w) as [[spt1|e] w1] eqn:Hrun1; [|done].
  destruct (_merge_pass_partial _ _ _ _ _ _ _ _ _ Hd Hm Hok Hrun1)
    as (d1 & n1 & Hd1 & Hcfg1 & Hok1).
  assert (mode w1 = "merge") as Hm1.
  { apply config_inv in Hcfg1 as (_ & _ & _ & E & _). congruence. }
  rewrite <- Nat.add_1_r in Hok1.
  destruct (IH _ _ _ _ _ _ _ _ Hd1 Hm1 Hok1 Hrun) as (d' & n' & Hd' & Hcfg & Hok').
  exists d', n'. split; [done|]. split; [by rewrite Hcfg|].
  by replace (p + S count) with (p + 1 + count) by lia.
Qed.

(** ** [_merge] and [sort] *)

Lemma finish_ok p n L name w d w' :
  temp_dir w = Some d -> workspace_ok p n L d ->
  _move_to_save_path name w = (Ok tt, w') ->
  exists text,
    saved w' = Some text /\ temp_dir w' = None /\ good_text text /\
    lines_of text ≡ₚ L /\ memory_limit w' = memory_limit w.
Proof.
  intros Hd (Hsize & Hgood & Hlines & _) Hrun.
  apply _move_to_save_path_inv in Hrun as (d0 & text & Hd0 & Ht & He & ->).
  rewrite Hd in Hd0. injection Hd0 as <-.
  exists text. split_and!; try done.
  - apply saved_moved.
  - by apply (Hgood name).
  - by rewrite <- Hlines, (lines_in_delete d name text Ht), He, lines_in_empty,
      app_nil_r.
Qed.

Lemma _merge_unfold w :
  _merge iterdir w =
  if num_split_files w =? 1 then
    _move_to_save_path "split_0.txt" (set_mode "merge" w)
  else
    match Planner._get_pass_params (memory_limit w) (buffer_size w)
            (num_split_files w) (update_buffer_size w) with
    | Ok (num_merges, num_files_to_merge, buffer_size) =>
        match _merge_passes iterdir (Z.to_nat num_merges) num_files_to_merge
                0 None (set_buffer_size buffer_size (set_mode "merge" w)) with
        | (Ok (Some save_path_tmp), w') => _move_to_save_path save_path_tmp w'
        | (Ok None, w') => (Raise UnboundLocalError, w')
        | (Raise e, w') => (Raise e, w')
        end
    | Raise e => (Raise e, set_mode "merge" w)
    end.
Proof.
  unfold _merge. unfold bindM at 1, modify at 1. unfold bindM at 1, get at 1.
  cbn [num_split_files set_mode memory_limit buffer_size update_buffer_size].
  destruct (num_split_files w =? 1); [done|].
  unfold bindM at 1, lift at 1.
  destruct (Planner._get_pass_params _ _ _ _) as [[[K X] buf]|e]; [|done].
  unfold bindM at 1, modify at 1. unfold bindM at 1.
  destruct (_merge_passes _ _ _ _ _ _) as [[[name|]|e] w']; done.
Qed.

Lemma _merge_partial n L w d w' :
  temp_dir w = Some d -> workspace_ok 0 n L d ->
  _merge iterdir w = (Ok tt, w') ->
  exists text,
    saved w' = Some text /\ temp_dir w' = None /\ good_text text /\
    lines_of text ≡ₚ L /\ memory_limit w' = memory_limit w.
Proof.
  intros Hd Hok. rewrite _merge_unfold.
  destruct (num_split_files w =? 1).
  { intros Hrun. by eapply (finish_ok 0 n L) in Hrun. }
  destruct (Planner._get_pass_params _ _ _ _) as [[[K X] buf]|e]; [|done].
  destruct (_merge_passes _ _ _ _ _ _) as [[[name|]|e] w1] eqn:Hrun1; try done.
  eapply _merge_passes_partial in Hrun1 as (d1 & n1 & Hd1 & Hcfg1 & Hok1); try done.
  intros Hrun. eapply finish_ok in Hrun as (text & ? & ? & ? & ? & Hft); try done.
  exists text. split_and!; try done. rewrite Hft.
  by apply config_inv in Hcfg1 as (E & _).
Qed.

Lemma sort_unfold w :
  sort iterdir w =
  match _split (set_temp_dir (Some (default ∅ (temp_dir w))) w) with
  | (Ok _, w') => _merge iterdir w'
  | (Raise e, w') => (Raise e, w')
  end.
Proof.
  unfold sort. unfold bindM at 1, _make_temp_dir at 1, modify at 1.
  unfold bindM at 1. by destruct (_split _) as [[[]|e] w'].
Qed.

(** Whatever the configuration, a run that returns has written the
    lines of the input, in order, and has removed its workspace. *)
Lemma sort_partial w w' :
  default ∅ (temp_dir w) = ∅ -> terminated (file_text w) = true ->
  sort iterdir w = (Ok tt, w') ->
  exists text,
    saved w' = Some text /\ temp_dir w' = None /\ good_text text /\
    lines_of text ≡ₚ lines_of (file_text w).
Proof.
  intros Hfresh Hterm. rewrite sort_unfold, Hfresh.
  rewrite (_split_spec _ ∅) by done.
  cbn [memory_limit file_text set_temp_dir].
  intros Hrun.
  eapply _merge_partial in Hrun as (text & ? & ? & ? & ? & _).
  - by exists text.
  - done.
  - by apply split_workspace_ok.
Qed.

Lemma blocks_of_length hint text :
  text <> EmptyString -> 1 <= length (blocks_of hint text).
Proof.
  intros Hne. destruct (blocks_of hint text) as [|b bs] eqn:E; [|simpl; lia].
  exfalso. apply Hne, lines_of_nil. by rewrite <- (blocks_of_concat hint), E.
Qed.

(** An input that is not empty and needs one pass at most: the run
    returns. *)
Lemma sort_one_pass w :
  default ∅ (temp_dir w) = ∅ -> terminated (file_text w) = true ->
  file_text w <> EmptyString -> one_pass w ->
  exists w', sort iterdir w = (Ok tt, w').
Proof.
  intros Hfresh Hterm Hne [_ Hplan]. rewrite sort_unfold, Hfresh.
  rewrite (_split_spec _ ∅) by done.
  cbn [memory_limit file_text set_temp_dir].
  pose proof (split_workspace_ok (memory_limit w) (file_text w) Hterm) as Hok.
  pose proof (blocks_of_length (memory_limit w) (file_text w) Hne) as HN.
  cbv zeta in Hplan. unfold planned_buffer in Hplan.
  set (bs := blocks_of (memory_limit w) (file_text w)) in *.
  set (d0 := chunk_files 0 bs ∅) in *.
  rewrite _merge_unfold.
  cbn [num_split_files set_num_split_files memory_limit buffer_size
       update_buffer_size set_temp_dir set_mode].
  destruct (length bs =? 1) eqn:E1;
    [apply Nat.eqb_eq in E1|apply Nat.eqb_neq in E1].
  - (* a single chunk *)
    destruct bs as [|b [|? ?]] eqn:Ebs; try done.
    pose proof (chunk_files_lookup [b] 0 ∅ 0 b eq_refl) as Hb.
    eexists. eapply _move_to_save_path_last; [reflexivity| |exact Hb].
    by destruct Hok as [? _].
  - destruct Hplan as [?|(HB & Hfit & H53 & Hc)]; [done|].
    assert (2 * buffer_size w < memory_limit w)%Z as HM by nia.
    assert (memory_limit w < 2 ^ 1023)%Z as Hfin.
    { eapply Z.lt_trans; [exact H53|by vm_compute]. }
    rewrite (PlanFacts._get_pass_params_eval (memory_limit w) (buffer_size w)
               (length bs) (update_buffer_size w) HB HM ltac:(lia) Hfin
               1 (Z.of_nat (length bs)));
      [|lia|lia
       |change (1 - 1)%Z with 0%Z; rewrite !Z.pow_0_r; lia
       |rewrite !Z.pow_1_r; lia
       |rewrite !Z.pow_1_r; lia].
    set (buf := if update_buffer_size w then _ else _) in *.
    assert (opens buf) as Hbuf.
    { split; [done|]. unfold buf. destruct (update_buffer_size w); [|lia].
      assert (buffer_size w <= memory_limit w / (Z.of_nat (length bs) + 1))%Z
        by (apply Z.div_le_lower_bound; lia).
      lia. }
    match goal with |- context [_merge_passes iterdir _ _ _ _ ?w0] =>
      destruct (_merge_passes_spec (Z.of_nat (length bs)) (Z.to_nat 1) 0 None
                  (length bs) (lines_of (file_text w)) w0 d0)
        as (w1 & d1 & spt1 & Hrun1 & Hd1 & Hcfg1 & Hok1 & Hlast1)
    end; try done; try lia.
    { rewrite Nat2Z.id. change (Z.to_nat 1) with 1.
      rewrite Nat.pow_1_r. lia. }
    rewrite Hrun1.
    destruct Hlast1 as (name & -> & [text Ht]); [lia|].
    eexists. eapply _move_to_save_path_last; [exact Hd1| |exact Ht].
    by destruct Hok1 as [? _].
Qed.

(** A single chunk is moved to the destination as it is, without a
    merge. *)
Lemma sort_single_chunk w block :
  default ∅ (temp_dir w) = ∅ ->
  blocks_of (memory_limit w) (file_text w) = [block] ->
  exists w',
    sort iterdir w = (Ok tt, w') /\
    saved w' = Some (written (Heapq.heapsort str_lt block)) /\
    temp_dir w' = None /\ num_split_files w' = 1 /\
    trace w' = trace w ++ [Rename "split_0.txt"; RemoveDirs].
Proof.
  intros Hfresh Hbs. rewrite sort_unfold, Hfresh.
  rewrite (_split_spec _ ∅) by done.
  cbn [memory_limit file_text set_temp_dir]. rewrite Hbs.
  rewrite _merge_unfold.
  cbn [num_split_files set_num_split_files length Nat.eqb].
  pose proof (chunk_files_lookup [block] 0 ∅ 0 block eq_refl) as Hb.
  assert (size (chunk_files 0 [block] ∅) = 1) as Hsize.
  { cbn [chunk_files]. rewrite map_size_insert_None by apply lookup_empty.
    by rewrite map_size_empty. }
  match goal with |- context [_move_to_save_path _ ?w0] =>
    destruct (_move_to_save_path_last "split_0.txt" _ w0 _ eq_refl Hsize Hb)
      as [Hrun _]
  end.
  eexists. split; [exact Hrun|]. split; [apply saved_moved|].
  cbn [temp_dir trace log set_temp_dir write_saved set_mode
       set_num_split_files num_split_files].
  split; [reflexivity|]. split; [reflexivity|].
  by rewrite <- (assoc (++)).
Qed.

End listing.
End SortFacts.


(** * Facts about the sample inputs *)

Module SampleFacts.
Import Py PyStr SplitSpec Sorter SortSpec Samples.

Lemma two_files_present f :
  f ∈ ["x.txt"; "y.txt"] ->
  is_Some (default ∅ (temp_dir two_files_world) !! f).
Proof.
  intros [->|[->|[]%elem_of_nil]%elem_of_cons]%elem_of_cons; vm_compute; eauto.
Qed.

Lemma two_files_NoDup : NoDup ["x.txt"; "y.txt"].
Proof. apply (bool_decide_unpack _). by vm_compute. Qed.

Lemma two_files_other : "z.txt" ∉ ["x.txt"; "y.txt"].
Proof. apply (bool_decide_unpack _). by vm_compute. Qed.

Lemma two_files_opens : opens (buffer_size two_files_world).
Proof. split; [reflexivity|discriminate]. Qed.

Lemma two_files_workspace_ok :
  workspace_ok 0 2 (lines_in (default ∅ (temp_dir two_files_world)))
    (default ∅ (temp_dir two_files_world)).
Proof.
  split; [by vm_compute|]. split; [|split; [reflexivity|]].
  - cbn [temp_dir two_files_world default].
    apply map_Forall_insert_2; [split; vm_compute; repeat constructor|].
    apply map_Forall_insert_2; [split; vm_compute; repeat constructor|].
    apply map_Forall_empty.
  - intros q _ i. unfold two_files_world. cbn [temp_dir from_option].
    unfold Datatypes.id.
    rewrite !lookup_insert_ne by done. apply lookup_empty.
Qed.

Lemma fruit_blocks : length (blocks_of 12 fruit) = 2.
Proof. by vm_compute. Qed.

Lemma fruit_one_pass : one_pass fruit_world.
Proof.
  unfold one_pass. cbv zeta. split; [reflexivity|]. right.
  change (memory_limit fruit_world) with 12%Z.
  change (file_text fruit_world) with fruit. rewrite fruit_blocks.
  split_and!; by vm_compute.
Qed.
End SampleFacts.

(** * The properties of the specification *)

Module Claims.
Import Py PyStr SplitSpec Sorter SortSpec Samples.
Import StrFacts SortFacts SampleFacts.

(** ** Helpers *)

Lemma sorted_adjacent {A} (R : A -> A -> Prop) (l : list A) i a b :
  StronglySorted R l -> l !! i = Some a -> l !! S i = Some b -> R a b.
Proof.
  intros Hs. revert i. induction Hs as [|x l Hs IH Hall]; intros i Ha Hb; [done|].
  destruct i as [|i]; simplify_eq/=.
  - rewrite Forall_forall in Hall. apply Hall. by eapply list_elem_of_lookup_2.
  - by eapply IH.
Qed.

Lemma sorted_lines_adjacent lines i a b :
  sorted_lines lines -> lines !! i = Some a -> lines !! S i = Some b ->
  str_le a b = true.
Proof.
  intros Hs Ha Hb. rewrite str_le_lt.
  by rewrite (sorted_adjacent _ lines i a b Hs Ha Hb).
Qed.

Lemma sorted_lines_unique l1 l2 :
  sorted_lines l1 -> sorted_lines l2 -> l1 ≡ₚ l2 -> l1 = l2.
Proof.
  apply StronglySorted_unique_strong.
  intros a b _ _ Hab Hba. by apply str_lt_total.
Qed.

Lemma listdir_Permutation d : listdir d ≡ₚ (map_to_list d).*1.
Proof. done. Qed.

(** ** The k-way merge *)

Example merge_equal_heads :
  Heapq.merge_tagged str_lt
    [["a" +:+ nl; "c" +:+ nl]; ["a" +:+ nl; "b" +:+ nl]] =
  [("a" +:+ nl, 0); ("a" +:+ nl, 1); ("b" +:+ nl, 1); ("c" +:+ nl, 0)].
Proof. reflexivity. Qed.

(** C10: the k-way merge of [_merge_files] is a function of its inputs
    that breaks ties by the index of the input.  A call of
    [_merge_files] on files that exist, with a buffer size that [open]
    takes, returns, and the file that it leaves at [save_path] holds the
    lines that [heapq.merge] yields.  That sequence, each line with the
    index of the file it was read from, is the one obtained by serving
    at every step the file that [pick] names: the one whose head line is
    least and, among equal head lines, the earliest in the list of
    files.  For files that are sorted it is therefore in order for the
    lexicographic order on (line, index of the file). *)
Theorem merge_ties_by_input_order (files : list string) (save_path : string)
    (w : world) (d : gmap string string) :
  temp_dir w = Some d -> opens (buffer_size w) -> NoDup files ->
  (forall f, f ∈ files -> is_Some (d !! f)) -> save_path ∉ files ->
  exists w' d',
    _merge_files files save_path w = (Ok tt, w') /\
    temp_dir w' = Some d' /\
    d' !! save_path =
      Some (written (Heapq.merge_tagged str_lt
                       (lines_of <$> texts_of files d)).*1) /\
    Heapq.merge_tagged str_lt (lines_of <$> texts_of files d) =
      MergeSpec.merge_by_pick str_lt
        (S (length (concat (lines_of <$> texts_of files d))))
        (lines_of <$> texts_of files d) /\
    (Forall sorted_lines (lines_of <$> texts_of files d) ->
     StronglySorted (fun a b => Heapq.entry_lt str_lt b a = false)
       (Heapq.merge_tagged str_lt (lines_of <$> texts_of files d))).
Proof.
  intros Hd Hb Hnd Hin Hsp.
  eexists _, _. split; [by apply (_merge_files_Ok files save_path w d)|].
  split; [reflexivity|]. split; [by rewrite lookup_insert_eq|]. split.
  - apply (MergeFacts.merge_tagged_refines str_lt str_lt_irrefl str_lt_trans
             str_lt_total).
  - intros Hsorted.
    rewrite (MergeFacts.merge_tagged_refines str_lt str_lt_irrefl str_lt_trans
               str_lt_total).
    by apply (MergeFacts.merge_by_pick_sorted str_lt str_lt_irrefl str_lt_trans
                str_lt_total).
Qed.

Lemma merge_ties_by_input_order_witness :
  (temp_dir two_files_world = Some (default ∅ (temp_dir two_files_world)) /\
   opens (buffer_size two_files_world) /\ NoDup ["x.txt"; "y.txt"] /\
   ("z.txt" ∉ ["x.txt"; "y.txt"])) /\
  exists w' d',
    _merge_files ["x.txt"; "y.txt"] "z.txt" two_files_world = (Ok tt, w') /\
    temp_dir w' = Some d' /\
    d' !! "z.txt" =
      Some (written (Heapq.merge_tagged str_lt
                       (lines_of <$> texts_of ["x.txt"; "y.txt"]
                          (default ∅ (temp_dir two_files_world)))).*1) /\
    Heapq.merge_tagged str_lt
      (lines_of <$> texts_of ["x.txt"; "y.txt"]
         (default ∅ (temp_dir two_files_world))) =
      MergeSpec.merge_by_pick str_lt
        (S (length (concat (lines_of <$> texts_of ["x.txt"; "y.txt"]
                              (default ∅ (temp_dir two_files_world))))))
        (lines_of <$> texts_of ["x.txt"; "y.txt"]
           (default ∅ (temp_dir two_files_world))) /\
    (Forall sorted_lines
       (lines_of <$> texts_of ["x.txt"; "y.txt"]
          (default ∅ (temp_dir two_files_world))) ->
     StronglySorted (fun a b => Heapq.entry_lt str_lt b a = false)
       (Heapq.merge_tagged str_lt
          (lines_of <$> texts_of ["x.txt"; "y.txt"]
             (default ∅ (temp_dir two_files_world))))).
Proof.
  split.
  - split; [reflexivity|]. split; [exact two_files_opens|].
    split; [exact two_files_NoDup|exact two_files_other].
  - apply (merge_ties_by_input_order ["x.txt"; "y.txt"] "z.txt" two_files_world
             (default ∅ (temp_dir two_files_world)));
      [reflexivity|exact two_files_opens|exact two_files_NoDup
      |exact two_files_present|exact two_files_other].
Defined.

(** ** The blocks of the split phase *)




(** ** The pass planner *)

(** C5 fails when the buffer size of the caller is kept: with a memory
    limit of 7, a buffer size of 2 and 6 chunks the plan is 2 passes
    with fan-in 3, and 4 buffers of size 2 do not fit in 7. *)
Theorem kept_buffer_exceeds_memory :
  Planner._get_pass_params 7 2 6 false = Ok (2, 3, 2)%Z /\
  ((3 + 1) * 2 > 7)%Z.
Proof.
  split; [|lia].
  apply (PlanFacts._get_pass_params_eval 7 2 6 false); try lia; by vm_compute.
Qed.

(** C7, as stated, fails: the planner has no guard on the buffer size
    that it recomputes.  With a memory limit of 5, a buffer size of 2
    and 2 chunks it returns, and the recomputed buffer size is 1. *)
Lemma planner_returns_buffer_of_one :
  Planner._get_pass_params 5 2 2 true = Ok (2, 2, 1)%Z.
Proof.
  apply (PlanFacts._get_pass_params_eval 5 2 2 true); try lia; by vm_compute.
Qed.

(** C7, amended: the planner raises no configuration error.  When a
    buffer for each of the [N >= 2] chunks and one more fit in a memory
    limit below [2 ^ 53], it returns the plan of one pass with fan-in
    [N], and the buffer size that it recomputes is
    [memory_limit // (N + 1)], which is at least the buffer size given;
    for a buffer size of 1 and a memory limit of [N + 1] that is a
    buffer of one character. *)
Theorem planner_has_no_buffer_guard (M B : Z) (N : nat) :
  (0 < B)%Z -> 2 <= N -> ((Z.of_nat N + 1) * B <= M)%Z -> (M < 2 ^ 53)%Z ->
  Planner._get_pass_params M B N true =
    Ok (1, Z.of_nat N, M / (Z.of_nat N + 1))%Z /\
  (B <= M / (Z.of_nat N + 1))%Z /\
  (B = 1%Z -> M = (Z.of_nat N + 1)%Z -> (M / (Z.of_nat N + 1) = 1)%Z).
Proof.
  intros HB HN Hfit H53. split; [|split].
  - assert (2 * B < M)%Z as HM by nia.
    assert (M < 2 ^ 1023)%Z as Hfin.
    { eapply Z.lt_trans; [exact H53|by vm_compute]. }
    apply (PlanFacts._get_pass_params_eval M B N true HB HM HN Hfin
             1 (Z.of_nat N)); [lia|lia| | |].
    + change (1 - 1)%Z with 0%Z. rewrite !Z.pow_0_r. lia.
    + rewrite !Z.pow_1_r. lia.
    + rewrite !Z.pow_1_r. lia.
  - apply Z.div_le_lower_bound; lia.
  - intros -> ->. apply Z.div_same. lia.
Qed.

Lemma planner_has_no_buffer_guard_witness :
  ((0 < 1)%Z /\ 2 <= 2 /\ ((Z.of_nat 2 + 1) * 1 <= 3)%Z /\ (3 < 2 ^ 53)%Z) /\
  Planner._get_pass_params 3 1 2 true = Ok (1, Z.of_nat 2, 3 / (Z.of_nat 2 + 1))%Z /\
  (1 <= 3 / (Z.of_nat 2 + 1))%Z /\
  (1%Z = 1%Z -> 3%Z = (Z.of_nat 2 + 1)%Z -> (3 / (Z.of_nat 2 + 1) = 1)%Z).
Proof.
  split; [split_and!; by vm_compute|].
  apply (planner_has_no_buffer_guard 3 1 2); by vm_compute.
Defined.

(** ** A plan without enough capacity *)



(** ** Runs of [sort] *)

Lemma blocks_of_empty hint : blocks_of hint EmptyString = [].
Proof. unfold blocks_of, readlines. by destruct (hint <=? 0)%Z. Qed.

(** The example of the specification: two chunks, one pass, fan-in 2. *)
Example sort_fruit :
  exists w',
    sort listdir fruit_world = (Ok tt, w') /\
    saved w' =
      Some ("apple" +:+ nl +:+ "apple" +:+ nl +:+ "banana" +:+ nl
              +:+ "cherry" +:+ nl) /\
    temp_dir w' = None /\
    trace w' =
      [MergeFiles ["split_1.txt"; "split_0.txt"] "merge_0_0.txt";
       Rename "merge_0_0.txt"; RemoveDirs].
Proof.
  rewrite sort_unfold.
  set (r := _split _). vm_compute in r. subst r. cbv iota beta.
  rewrite _merge_unfold.
  cbv [num_split_files memory_limit buffer_size update_buffer_size Nat.eqb].
  rewrite (PlanFacts._get_pass_params_eval 12 4 2 true ltac:(lia) ltac:(lia)
             ltac:(lia) ltac:(by vm_compute) 1 2) by (try lia; by vm_compute).
  eexists. split; [vm_compute; reflexivity|]. by vm_compute.
Qed.

(** C1: for every input of line-terminated records and every
    configuration, the file that a run of [sort] produces has its lines
    in non-decreasing order: [line[i] <= line[i+1]] for every adjacent
    pair.  The run starts with no leftover file in its workspace.  This
    holds of every run that returns, whatever plan the planner gave it.
    A run does return when the input is not empty and one pass at most
    is needed, [one_pass]. *)
Theorem sort_output_sorted (iterdir : gmap string string -> list string)
    (w : world) :
  (forall d, iterdir d ≡ₚ (map_to_list d).*1) ->
  default ∅ (temp_dir w) = ∅ -> terminated (file_text w) = true ->
  (forall w', sort iterdir w = (Ok tt, w') ->
     exists text, saved w' = Some text /\
       forall i a b, lines_of text !! i = Some a ->
                     lines_of text !! S i = Some b -> str_le a b = true) /\
  (file_text w <> EmptyString -> one_pass w ->
   exists w', sort iterdir w = (Ok tt, w')).
Proof.
  intros Hiter Hfresh Hterm. split.
  - intros w' Hrun.
    destruct (sort_partial iterdir Hiter w w' Hfresh Hterm Hrun)
      as (text & Hsaved & _ & [_ Hsorted] & _).
    exists text. split; [done|]. intros i a b. by apply sorted_lines_adjacent.
  - intros Hne Hone. by apply sort_one_pass.
Qed.

Lemma sort_output_sorted_witness :
  ((forall d, listdir d ≡ₚ (map_to_list d).*1) /\
   default ∅ (temp_dir fruit_world) = ∅ /\
   terminated (file_text fruit_world) = true) /\
  (forall w', sort listdir fruit_world = (Ok tt, w') ->
     exists text, saved w' = Some text /\
       forall i a b, lines_of text !! i = Some a ->
                     lines_of text !! S i = Some b -> str_le a b = true) /\
  (file_text fruit_world <> EmptyString -> one_pass fruit_world ->
   exists w', sort listdir fruit_world = (Ok tt, w')).
Proof.
  split.
  - split; [exact listdir_Permutation|]. split; reflexivity.
  - apply (sort_output_sorted listdir fruit_world);
      [exact listdir_Permutation|reflexivity|reflexivity].
Defined.

(** C2: for every input of line-terminated records, every memory limit
    and every buffer size, the lines of the file that a run of [sort]
    produces are the lines of the input, each as many times as in the
    input.  The run starts with no leftover file in its workspace.  This
    holds of every run that returns, whatever plan the planner gave it.
    A run does return when the input is not empty and one pass at most
    is needed, [one_pass]. *)
Theorem sort_output_permutation (iterdir : gmap string string -> list string)
    (w : world) :
  (forall d, iterdir d ≡ₚ (map_to_list d).*1) ->
  default ∅ (temp_dir w) = ∅ -> terminated (file_text w) = true ->
  (forall w', sort iterdir w = (Ok tt, w') ->
     exists text, saved w' = Some text /\
       lines_of text ≡ₚ lines_of (file_text w)) /\
  (file_text w <> EmptyString -> one_pass w ->
   exists w', sort iterdir w = (Ok tt, w')).
Proof.
  intros Hiter Hfresh Hterm. split.
  - intros w' Hrun.
    destruct (sort_partial iterdir Hiter w w' Hfresh Hterm Hrun)
      as (text & Hsaved & _ & _ & Hperm).
    by exists text.
  - intros Hne Hone. by apply sort_one_pass.
Qed.

Lemma sort_output_permutation_witness :
  ((forall d, listdir d ≡ₚ (map_to_list d).*1) /\
   default ∅ (temp_dir fruit_world) = ∅ /\
   terminated (file_text fruit_world) = true) /\
  (forall w', sort listdir fruit_world = (Ok tt, w') ->
     exists text, saved w' = Some text /\
       lines_of text ≡ₚ lines_of (file_text fruit_world)) /\
  (file_text fruit_world <> EmptyString -> one_pass fruit_world ->
   exists w', sort listdir fruit_world = (Ok tt, w')).
Proof.
  split.
  - split; [exact listdir_Permutation|]. split; reflexivity.
  - apply (sort_output_permutation listdir fruit_world);
      [exact listdir_Permutation|reflexivity|reflexivity].
Defined.

(** C3 fails on the code: on an empty input the split phase writes no
    chunk, and [_merge] then asks the planner for a plan for 0 chunks;
    [np.log(0)] is an infinity and [int] raises [OverflowError].  No
    output file is written and the workspace directory stays. *)
Theorem sort_empty_input_raises (iterdir : gmap string string -> list string)
    (w : world) :
  default ∅ (temp_dir w) = ∅ -> file_text w = EmptyString ->
  (0 < buffer_size w < memory_limit w)%Z ->
  exists w',
    sort iterdir w = (Raise OverflowError, w') /\
    num_split_files w' = 0 /\ saved w' = saved w /\ temp_dir w' = Some ∅.
Proof.
  intros Hfresh Htext HM. rewrite sort_unfold, Hfresh.
  rewrite (_split_spec _ ∅) by done.
  cbn [memory_limit file_text set_temp_dir]. rewrite Htext, blocks_of_empty.
  rewrite _merge_unfold.
  cbn [num_split_files set_num_split_files length Nat.eqb memory_limit
       buffer_size update_buffer_size set_temp_dir set_mode].
  rewrite PlanFacts._get_pass_params_0_overflow by done.
  eexists. split; [reflexivity|]. by split_and!.
Qed.

Lemma sort_empty_input_raises_witness :
  (default ∅ (temp_dir empty_world) = ∅ /\
   file_text empty_world = EmptyString /\
   (0 < buffer_size empty_world < memory_limit empty_world)%Z) /\
  exists w',
    sort listdir empty_world = (Raise OverflowError, w') /\
    num_split_files w' = 0 /\ saved w' = saved empty_world /\
    temp_dir w' = Some ∅.
Proof.
  split.
  - split; [reflexivity|]. split; [reflexivity|]. by vm_compute.
  - apply (sort_empty_input_raises listdir empty_world);
      [reflexivity|reflexivity|by vm_compute].
Defined.

(** C8, as stated, fails: an input of two lines that are not in order
    gives one chunk, no merge is run and the chunk file is renamed, but
    the output is the sorted chunk, not the input. *)
Lemma single_chunk_output_differs :
  exists w',
    sort listdir ba_world = (Ok tt, w') /\
    num_split_files w' = 1 /\
    trace w' = [Rename "split_0.txt"; RemoveDirs] /\
    saved w' = Some ("a" +:+ nl +:+ "b" +:+ nl) /\
    saved w' <> Some (file_text ba_world).
Proof.
  eexists. split; [vm_compute; reflexivity|]. by vm_compute.
Qed.

(** C8, amended: for every input that the split phase reads as exactly
    one block, [_merge] calls no merge: it renames the chunk file
    [split_0.txt] to the destination and removes the workspace.  The
    output holds the lines of the block in sorted order; it is the input
    itself when the lines of the input are already in order, as for an
    input of a single line. *)
Theorem sort_single_chunk_renames
    (iterdir : gmap string string -> list string) (w : world)
    (block : list string) :
  default ∅ (temp_dir w) = ∅ ->
  blocks_of (memory_limit w) (file_text w) = [block] ->
  exists w',
    sort iterdir w = (Ok tt, w') /\
    num_split_files w' = 1 /\
    trace w' = trace w ++ [Rename "split_0.txt"; RemoveDirs] /\
    saved w' = Some (written (Heapq.heapsort str_lt block)) /\
    (sorted_lines (lines_of (file_text w)) ->
     saved w' = Some (file_text w)).
Proof.
  intros Hfresh Hbs.
  destruct (sort_single_chunk iterdir w block Hfresh Hbs)
    as (w' & Hrun & Hsaved & _ & HN & Htrace).
  exists w'. split_and!; try done.
  intros Hsorted. rewrite Hsaved. f_equal.
  pose proof (blocks_of_concat (memory_limit w) (file_text w)) as Hlines.
  rewrite Hbs in Hlines. simpl in Hlines. rewrite app_nil_r in Hlines.
  rewrite <- Hlines in Hsorted.
  rewrite (sorted_lines_unique (Heapq.heapsort str_lt block) block).
  - by rewrite Hlines, written_lines_of.
  - apply heapsort_sorted.
  - done.
  - apply heapsort_Permutation.
Qed.

Lemma sort_single_chunk_renames_witness :
  (default ∅ (temp_dir ba_world) = ∅ /\
   blocks_of (memory_limit ba_world) (file_text ba_world)
   = [["b" +:+ nl; "a" +:+ nl]]) /\
  exists w',
    sort listdir ba_world = (Ok tt, w') /\
    num_split_files w' = 1 /\
    trace w' = trace ba_world ++ [Rename "split_0.txt"; RemoveDirs] /\
    saved w' =
      Some (written (Heapq.heapsort str_lt ["b" +:+ nl; "a" +:+ nl])) /\
    (sorted_lines (lines_of (file_text ba_world)) ->
     saved w' = Some (file_text ba_world)).
Proof.
  split.
  - split; reflexivity.
  - apply (sort_single_chunk_renames listdir ba_world); reflexivity.
Defined.

(** C9: after every run of [sort] that returns, the workspace directory
    does not exist any more, and with it no temporary file of the split
    or merge phase; and every call of [_merge_files] that returns has
    deleted all the files it was given. *)
Theorem successful_run_cleans_up
    (iterdir : gmap string string -> list string) :
  (forall w w', sort iterdir w = (Ok tt, w') -> temp_dir w' = None) /\
  (forall files save_path w w',
     _merge_files files save_path w = (Ok tt, w') ->
     exists d', temp_dir w' = Some d' /\
                forall f, f ∈ files -> d' !! f = None).
Proof.
  split; [|apply _merge_files_removes].
  intros w w'. rewrite sort_unfold, (_split_spec _ (default ∅ (temp_dir w)))
    by done.
  rewrite _merge_unfold.
  destruct (_ =? 1).
  { intros Hmv. apply _move_to_save_path_inv in Hmv.
    by destruct Hmv as (d & text & _ & _ & _ & ->). }
  destruct (Planner._get_pass_params _ _ _ _) as [[[K X] buf]|e]; [|done].
  destruct (_merge_passes _ _ _ _ _ _) as [[[name|]|e] w1]; try done.
  intros Hmv. apply _move_to_save_path_inv in Hmv.
  by destruct Hmv as (d & text & _ & _ & _ & ->).
Qed.

Lemma successful_run_cleans_up_witness :
  (sort listdir ba_world = (Ok tt, (sort listdir ba_world).2) /\
   _merge_files ["x.txt"; "y.txt"] "z.txt" two_files_world
   = (Ok tt, (_merge_files ["x.txt"; "y.txt"] "z.txt" two_files_world).2)) /\
  temp_dir (sort listdir ba_world).2 = None /\
  exists d',
    temp_dir (_merge_files ["x.txt"; "y.txt"] "z.txt" two_files_world).2
    = Some d' /\
    forall f, f ∈ ["x.txt"; "y.txt"] -> d' !! f = None.
Proof.
  assert (sort listdir ba_world = (Ok tt, (sort listdir ba_world).2)) as H1
    by (vm_compute; reflexivity).
  assert (_merge_files ["x.txt"; "y.txt"] "z.txt" two_files_world
          = (Ok tt, (_merge_files ["x.txt"; "y.txt"] "z.txt"
                       two_files_world).2)) as H2
    by (vm_compute; reflexivity).
  split; [by split|]. split.
  - exact (proj1 (successful_run_cleans_up listdir) _ _ H1).
  - exact (proj2 (successful_run_cleans_up listdir) _ _ _ _ H2).
Defined.

End Claims.


(** * Further properties of the code *)

Module Extras.
Import Py PyStr HeapSpec SplitSpec Sorter SortSpec Samples MoreSamples.
Import FrameSpec Generator Cli.
Import StrFacts SortFacts SampleFacts.

(** ** The heap of [_split] *)

Lemma str_lt_false_le a b : str_lt b a = false -> str_le a b = true.
Proof. intros H. by rewrite str_le_lt, H. Qed.

Lemma parent_left k : parent (2 * k + 1) = k.
Proof.
  unfold parent. replace (2 * k + 1 - 1) with (k * 2) by lia.
  by rewrite Nat.div_mul.
Qed.

Lemma parent_right k : parent (2 * k + 2) = k.
Proof.
  unfold parent. replace (2 * k + 2 - 1) with (1 + k * 2) by lia.
  by rewrite Nat.div_add.
Qed.

(** X1: [heapq.heapify] on a block of lines rearranges it into a heap:
    the result holds the same lines, and
    [heap[k] <= heap[2*k+1]] and [heap[k] <= heap[2*k+2]] for every [k]
    for which the compared items exist. *)
Theorem heapify_heap_invariant (x : list string) :
  Heapq.heapify str_lt x ≡ₚ x /\
  forall k item, Heapq.heapify str_lt x !! k = Some item ->
    (forall c, Heapq.heapify str_lt x !! (2 * k + 1) = Some c ->
               str_le item c = true) /\
    (forall c, Heapq.heapify str_lt x !! (2 * k + 2) = Some c ->
               str_le item c = true).
Proof.
  destruct (HeapFacts.heapify_spec str_lt str_lt_irrefl str_lt_trans
              str_lt_total x) as [Hheap Hperm].
  split; [done|]. intros k item Hk. split; intros c Hc.
  - apply str_lt_false_le.
    apply (Hheap (2 * k + 1)); rewrite ?parent_left; auto; lia.
  - apply str_lt_false_le.
    apply (Hheap (2 * k + 2)); rewrite ?parent_right; auto; lia.
Qed.

(** X2: [heapq.heappop] on a heap that is not empty returns a smallest
    item, and leaves a heap that holds the other items. *)
Theorem heappop_returns_smallest (heap : list string) :
  is_heap str_lt heap -> heap <> [] ->
  exists item heap',
    Heapq.heappop str_lt heap = Some (item, heap') /\
    is_heap str_lt heap' /\
    heap ≡ₚ item :: heap' /\
    forall y, y ∈ heap -> str_le item y = true.
Proof.
  intros Hheap Hne.
  destruct (HeapFacts.heappop_is_Some str_lt heap Hne) as [[item heap'] Hpop].
  destruct (HeapFacts.heappop_spec str_lt str_lt_irrefl str_lt_trans
              str_lt_total heap item heap' Hheap Hpop) as (H1 & H2 & H3).
  exists item, heap'. split_and!; try done.
  intros y Hy. apply str_lt_false_le. by apply H3.
Qed.

Lemma heappop_returns_smallest_witness :
  (is_heap str_lt ["a"; "c"; "b"] /\ ["a"; "c"; "b"] <> []) /\
  exists item heap',
    Heapq.heappop str_lt ["a"; "c"; "b"] = Some (item, heap') /\
    is_heap str_lt heap' /\
    ["a"; "c"; "b"] ≡ₚ item :: heap' /\
    forall y, y ∈ ["a"; "c"; "b"] -> str_le item y = true.
Proof.
  assert (is_heap str_lt ["a"; "c"; "b"]) as Hheap.
  { intros [|[|[|i]]] x y Hi _; simpl; intros Hx Hy;
      try lia; try discriminate;
      injection Hx as <-; injection Hy as <-; reflexivity. }
  split; [split; [exact Hheap|discriminate]|].
  apply (heappop_returns_smallest ["a"; "c"; "b"]); [exact Hheap|discriminate].
Defined.

Lemma heapsort_is_the_sorted_block_aux (block sorted : list string) :
  sorted_lines sorted -> sorted ≡ₚ block ->
  Heapq.heapsort str_lt block = sorted.
Proof.
  intros Hs Hp. apply Claims.sorted_lines_unique.
  - apply heapsort_sorted.
  - done.
  - by rewrite heapsort_Permutation.
Qed.

(** X3: the loop of [_split] that pops a heapified block until it is
    empty writes the one sorted arrangement of the block: [sorted] is
    what it writes exactly when [sorted] is in order and holds the lines
    of the block, each as many times.  So a chunk depends on its lines,
    not on their order in the input. *)
Theorem heapsort_is_the_sorted_block (block sorted : list string) :
  Heapq.heapsort str_lt block = sorted <->
  sorted_lines sorted /\ sorted ≡ₚ block.
Proof.
  split.
  - intros <-. split; [apply heapsort_sorted|apply heapsort_Permutation].
  - intros [Hs Hp]. by apply heapsort_is_the_sorted_block_aux.
Qed.

(** ** The merge of [_merge_files] *)

(** X4: [heapq.merge] loses no line and invents none, whatever the
    inputs hold, in order or not: its output has the lines of all the
    inputs, each as many times. *)
Theorem merge_keeps_every_line (iterables : list (list string)) :
  Heapq.merge str_lt iterables ≡ₚ concat iterables.
Proof.
  apply (MergeFacts.merge_Permutation str_lt str_lt_irrefl str_lt_trans
           str_lt_total).
Qed.

(** X5: merging inputs that are each in order gives what sorting all
    their lines at once gives. *)
Theorem merge_of_sorted_is_sort (iterables : list (list string)) :
  Forall sorted_lines iterables ->
  Heapq.merge str_lt iterables = Heapq.heapsort str_lt (concat iterables).
Proof.
  intros Hs. apply Claims.sorted_lines_unique.
  - by apply (MergeFacts.merge_sorted str_lt str_lt_irrefl str_lt_trans
                str_lt_total).
  - apply heapsort_sorted.
  - rewrite heapsort_Permutation.
    apply (MergeFacts.merge_Permutation str_lt str_lt_irrefl str_lt_trans
             str_lt_total).
Qed.

Lemma merge_of_sorted_is_sort_witness :
  Forall sorted_lines [["a"; "c"]; ["b"]] /\
  Heapq.merge str_lt [["a"; "c"]; ["b"]]
  = Heapq.heapsort str_lt (concat [["a"; "c"]; ["b"]]).
Proof.
  assert (Forall sorted_lines [["a"; "c"]; ["b"]]) as Hs.
  { repeat constructor. }
  split; [exact Hs|]. apply (merge_of_sorted_is_sort _ Hs).
Defined.

(** ** The split phase *)

(** X6: [_split] on an existing workspace returns, whatever the input,
    for every memory limit that [readlines] takes.  It cuts the lines of
    the input, in their order, into blocks none of which is empty,
    writes the sorted block number [i] to [split_i.txt], records the
    number of blocks, and leaves every file with another name as it
    was. *)
Theorem _split_writes_sorted_chunks (w : world) (d : gmap string string) :
  temp_dir w = Some d -> ssize_ok (memory_limit w) = true ->
  exists blocks d',
    _split w =
      (Ok tt, set_num_split_files (length blocks)
                (set_temp_dir (Some d') (set_mode "split" w))) /\
    concat blocks = lines_of (file_text w) /\
    Forall (fun block => block <> []) blocks /\
    (forall i block, blocks !! i = Some block ->
       d' !! split_name i = Some (written (Heapq.heapsort str_lt block))) /\
    (forall name, (forall i, name <> split_name i) -> d' !! name = d !! name).
Proof.
  intros Hd _.
  exists (blocks_of (memory_limit w) (file_text w)),
         (chunk_files 0 (blocks_of (memory_limit w) (file_text w)) d).
  split; [by apply _split_spec|]. split; [apply blocks_of_concat|]. split.
  { unfold blocks_of. destruct (readlines _ _). apply split_blocks_nonempty. }
  split.
  - intros i block Hi. by apply (chunk_files_lookup _ 0 d i block).
  - intros name Hname. apply chunk_files_lookup_lt. intros j _. apply Hname.
Qed.

Lemma _split_writes_sorted_chunks_witness :
  (temp_dir two_files_world
   = Some (default ∅ (temp_dir two_files_world)) /\
   ssize_ok (memory_limit two_files_world) = true) /\
  exists blocks d',
    _split two_files_world =
      (Ok tt, set_num_split_files (length blocks)
                (set_temp_dir (Some d') (set_mode "split" two_files_world))) /\
    concat blocks = lines_of (file_text two_files_world) /\
    Forall (fun block => block <> []) blocks /\
    (forall i block, blocks !! i = Some block ->
       d' !! split_name i = Some (written (Heapq.heapsort str_lt block))) /\
    (forall name, (forall i, name <> split_name i) ->
       d' !! name = default ∅ (temp_dir two_files_world) !! name).
Proof.
  split; [split; reflexivity|].
  apply (_split_writes_sorted_chunks two_files_world); reflexivity.
Defined.

Lemma len_append a b : len (a +:+ b) = (len a + len b)%Z.
Proof.
  unfold len. rewrite <- Nat2Z.inj_add. f_equal.
  induction a as [|c a IH]; simpl; [done|]. by rewrite IH.
Qed.

Lemma block_size_written lines : block_size lines = len (written lines).
Proof.
  induction lines as [|l lines IH]; [done|].
  simpl. by rewrite len_append, IH.
Qed.

Lemma readlines_loop_all hint lines : forall length,
  (length + block_size lines <= hint)%Z ->
  readlines_loop hint length lines = (lines, []).
Proof.
  induction lines as [|l lines IH]; intros n Hn; [done|].
  simpl in Hn |- *. pose proof (block_size_nonneg lines).
  destruct (len l >? hint - n)%Z eqn:E; [lia|].
  rewrite IH by lia. done.
Qed.

Lemma readlines_all hint lines :
  (hint <= 0 \/ block_size lines <= hint)%Z -> readlines hint lines = (lines, []).
Proof.
  intros H. unfold readlines. destruct (hint <=? 0)%Z eqn:E; [done|].
  apply readlines_loop_all. lia.
Qed.

Lemma blocks_of_whole hint text :
  text <> EmptyString -> (hint <= 0 \/ len text <= hint)%Z ->
  blocks_of hint text = [lines_of text].
Proof.
  intros Hne Hfit. unfold blocks_of. rewrite readlines_all.
  2:{ by rewrite block_size_written, written_lines_of. }
  destruct (lines_of text) as [|l lines] eqn:E.
  { by apply lines_of_nil in E. }
  change (length (l :: lines)) with (S (length lines)).
  rewrite split_blocks_S. rewrite (readlines_all hint []) by (simpl; lia).
  cbn [fst snd]. by destruct (length lines).
Qed.

(** X7: an input that is not empty and is not longer than
    [memory_limit], or any such input when [memory_limit] is not
    positive, is sorted in memory, for a memory limit that [readlines]
    takes: [sort] returns for every buffer size, one chunk is written
    and renamed, no merge is called, and the output is the sorted lines
    of the input. *)
Theorem sort_in_memory (iterdir : gmap string string -> list string)
    (w : world) :
  default ∅ (temp_dir w) = ∅ -> file_text w <> EmptyString ->
  ssize_ok (memory_limit w) = true ->
  (memory_limit w <= 0 \/ len (file_text w) <= memory_limit w)%Z ->
  exists w',
    sort iterdir w = (Ok tt, w') /\
    num_split_files w' = 1 /\
    saved w' = Some (written (Heapq.heapsort str_lt (lines_of (file_text w)))) /\
    trace w' = trace w ++ [Rename "split_0.txt"; RemoveDirs].
Proof.
  intros Hfresh Hne _ Hfit.
  destruct (sort_single_chunk iterdir w (lines_of (file_text w)) Hfresh)
    as (w' & Hrun & Hsaved & _ & HN & Htrace).
  { by apply blocks_of_whole. }
  by exists w'.
Qed.

Lemma sort_in_memory_witness :
  (default ∅ (temp_dir ba_world) = ∅ /\ file_text ba_world <> EmptyString /\
   ssize_ok (memory_limit ba_world) = true /\
   (memory_limit ba_world <= 0 \/
    len (file_text ba_world) <= memory_limit ba_world)%Z) /\
  exists w',
    sort listdir ba_world = (Ok tt, w') /\
    num_split_files w' = 1 /\
    saved w'
    = Some (written (Heapq.heapsort str_lt (lines_of (file_text ba_world)))) /\
    trace w' = trace ba_world ++ [Rename "split_0.txt"; RemoveDirs].
Proof.
  assert ((memory_limit ba_world <= 0 \/
           len (file_text ba_world) <= memory_limit ba_world)%Z) as Hfit.
  { right. by vm_compute. }
  split; [split; [reflexivity|split; [discriminate|split; [reflexivity|exact Hfit]]]|].
  apply (sort_in_memory listdir ba_world);
    [reflexivity|discriminate|reflexivity|exact Hfit].
Defined.

(** ** The names of the temporary files *)

Lemma to_uint_nonnil n : Nat.to_uint n <> Decimal.Nil.
Proof.
  rewrite <- (DecimalNat.Unsigned.of_to n) at 1.
  rewrite DecimalNat.Unsigned.to_of. apply DecimalFacts.unorm_nonnil.
Qed.

Lemma format_nat_not_None n r1 r2 :
  String "N" r1 <> format_nat n +:+ r2.
Proof.
  unfold format_nat. pose proof (to_uint_nonnil n) as Hn.
  destruct (Nat.to_uint n); try done; simpl; discriminate.
Qed.

Lemma Ok_pair_inj {A W} (a b : A) (w w' : W) :
  (Ok a, w) = (Ok b, w') -> a = b /\ w = w'.
Proof. by intros [= -> ->]. Qed.

(** X8: the path that [_make_tempfile_path] returns tells the file
    apart: two calls that return the same path were made in the same
    mode, for the same file index and, in mode [merge], the same pass
    index.  The call changes nothing. *)
Theorem _make_tempfile_path_determines_file (w1 w2 : world) (i j : nat)
    (o1 o2 : option nat) (p : string) (w1' w2' : world) :
  _make_tempfile_path i o1 w1 = (Ok p, w1') ->
  _make_tempfile_path j o2 w2 = (Ok p, w2') ->
  w1' = w1 /\ w2' = w2 /\ mode w1 = mode w2 /\ i = j /\
  (mode w1 = "merge" -> o1 = o2).
Proof.
  unfold _make_tempfile_path, bindM, get, ret, raise.
  destruct (String.eqb (mode w1) "split") eqn:E1;
    [|destruct (String.eqb (mode w1) "merge") eqn:E1'; [|done]];
    (destruct (String.eqb (mode w2) "split") eqn:E2;
     [|destruct (String.eqb (mode w2) "merge") eqn:E2'; [|done]]);
    intros [<- <-]%Ok_pair_inj [E <-]%Ok_pair_inj;
    repeat match goal with
           | H : String.eqb _ _ = true |- _ => apply String.eqb_eq in H
           end.
  - apply (split_name_inj j i) in E as ->. split_and!; try done; congruence.
  - discriminate E.
  - discriminate E.
  - assert (o1 = o2 /\ i = j) as [-> ->].
    { destruct o1 as [p1|], o2 as [p2|].
      - apply (merge_name_inj p2 j p1 i) in E as [-> ->]. done.
      - simpl in E. injection E as E.
        by destruct (format_nat_not_None p1 _ _ E).
      - simpl in E. injection E as E. symmetry in E.
        by destruct (format_nat_not_None p2 _ _ E).
      - unfold format_nat in E. simpl in E. injection E as E.
        apply string_of_uint_sep in E as [E _]; [|done].
        apply to_uint_inj in E as ->. done. }
    split_and!; try done; congruence.
Qed.

Lemma _make_tempfile_path_determines_file_witness :
  (_make_tempfile_path 3 (Some 1) two_files_world
   = (Ok "merge_1_3.txt", two_files_world) /\
   _make_tempfile_path 3 (Some 1) two_files_world
   = (Ok "merge_1_3.txt", two_files_world)) /\
  two_files_world = two_files_world /\ two_files_world = two_files_world /\
  mode two_files_world = mode two_files_world /\ 3 = 3 /\
  (mode two_files_world = "merge" -> Some 1 = Some 1).
Proof.
  split; [split; reflexivity|].
  apply (_make_tempfile_path_determines_file two_files_world two_files_world
           3 3 (Some 1) (Some 1) "merge_1_3.txt"); reflexivity.
Defined.

(** ** One call of [_merge_files] *)

(** X9: [_merge_files], called with a buffer size that [open] takes,
    one that fits a C [int] and is not 0, on distinct files of the
    workspace and a destination that is not one of them, returns.  The destination then holds the lines of all the
    inputs, each as many times, in order when every input is in order;
    the inputs are gone; every other file is as it was; and nothing but
    the workspace has changed. *)
Theorem _merge_files_contract (files : list string) (save_path : string)
    (w : world) (d : gmap string string) :
  temp_dir w = Some d -> opens (buffer_size w) -> NoDup files ->
  (forall f, f ∈ files -> is_Some (d !! f)) -> save_path ∉ files ->
  exists w' d' lines,
    _merge_files files save_path w = (Ok tt, w') /\
    temp_dir w' = Some d' /\ config w' = config w /\
    trace w' = trace w ++ [MergeFiles files save_path] /\
    d' !! save_path = Some (written lines) /\
    lines ≡ₚ concat (lines_of <$> texts_of files d) /\
    (Forall sorted_lines (lines_of <$> texts_of files d) ->
     sorted_lines lines) /\
    (forall f, f ∈ files -> d' !! f = None) /\
    (forall name, name ∉ files -> name <> save_path ->
       d' !! name = d !! name).
Proof.
  intros Hd Hb Hnd Hin Hsp.
  eexists _, _, (Heapq.merge str_lt (lines_of <$> texts_of files d)).
  split; [by apply _merge_files_Ok|].
  split; [reflexivity|]. split; [reflexivity|]. split; [reflexivity|].
  split; [by rewrite lookup_insert_eq|].
  split.
  { apply (MergeFacts.merge_Permutation str_lt str_lt_irrefl str_lt_trans
             str_lt_total). }
  split.
  { apply (MergeFacts.merge_sorted str_lt str_lt_irrefl str_lt_trans
             str_lt_total). }
  split.
  - intros f Hf. rewrite lookup_insert_ne by (intros ->; done).
    rewrite without_lookup. by rewrite decide_True.
  - intros name Hname Hne. rewrite lookup_insert_ne by done.
    rewrite without_lookup. by rewrite decide_False.
Qed.

Lemma _merge_files_contract_witness :
  (temp_dir two_files_world = Some (default ∅ (temp_dir two_files_world)) /\
   opens (buffer_size two_files_world) /\ NoDup ["x.txt"; "y.txt"] /\
   "z.txt" ∉ ["x.txt"; "y.txt"]) /\
  exists w' d' lines,
    _merge_files ["x.txt"; "y.txt"] "z.txt" two_files_world = (Ok tt, w') /\
    temp_dir w' = Some d' /\ config w' = config two_files_world /\
    trace w' = trace two_files_world
               ++ [MergeFiles ["x.txt"; "y.txt"] "z.txt"] /\
    d' !! "z.txt" = Some (written lines) /\
    lines ≡ₚ concat (lines_of <$> texts_of ["x.txt"; "y.txt"]
                       (default ∅ (temp_dir two_files_world))) /\
    (Forall sorted_lines
       (lines_of <$> texts_of ["x.txt"; "y.txt"]
          (default ∅ (temp_dir two_files_world))) ->
     sorted_lines lines) /\
    (forall f, f ∈ ["x.txt"; "y.txt"] -> d' !! f = None) /\
    (forall name, name ∉ ["x.txt"; "y.txt"] -> name <> "z.txt" ->
       d' !! name = default ∅ (temp_dir two_files_world) !! name).
Proof.
  assert (NoDup ["x.txt"; "y.txt"]) as Hnd by (apply (bool_decide_unpack _); by vm_compute).
  assert ("z.txt" ∉ ["x.txt"; "y.txt"]) as Hsp
    by (apply (bool_decide_unpack _); by vm_compute).
  split; [split; [reflexivity|split; [exact two_files_opens|split; [exact Hnd|exact Hsp]]]|].
  apply (_merge_files_contract ["x.txt"; "y.txt"] "z.txt" two_files_world);
    [reflexivity|exact two_files_opens|exact Hnd|exact two_files_present|exact Hsp].
Defined.

Lemma open_read_result f w d :
  temp_dir w = Some d ->
  open_read f w =
  if negb (c_int_ok (buffer_size w)) then (Raise OverflowError, w) else
  match d !! f with
  | Some _ =>
      if (buffer_size w =? 0)%Z then (Raise ValueError, w) else (Ok tt, w)
  | None => (Raise FileNotFoundError, w)
  end.
Proof.
  intros Hd. unfold open_read, bindM, get.
  destruct (negb _); [done|]. rewrite Hd.
  destruct (d !! f); [|done]. by destruct (_ =? _)%Z.
Qed.

Lemma open_all_result files : forall w d,
  temp_dir w = Some d ->
  (open_all files w = (Ok tt, w) /\
   (forall f, f ∈ files -> is_Some (d !! f)) /\
   (files <> [] -> opens (buffer_size w))) \/
  (open_all files w = (Raise FileNotFoundError, w) /\
   exists f, f ∈ files /\ d !! f = None) \/
  (open_all files w = (Raise ValueError, w) /\ buffer_size w = 0%Z) \/
  (open_all files w = (Raise OverflowError, w) /\
   c_int_ok (buffer_size w) = false).
Proof.
  induction files as [|f files IH]; intros w d Hd.
  { left. split; [done|]. split; [by intros f []%elem_of_nil|done]. }
  cbn [open_all]. unfold bindM. rewrite (open_read_result f w d Hd).
  destruct (c_int_ok (buffer_size w)) eqn:Hc; cbn [negb].
  2:{ right. right. right. done. }
  destruct (d !! f) as [t|] eqn:Hf.
  2:{ right. left. split; [done|]. exists f. split; [by left|done]. }
  destruct (buffer_size w =? 0)%Z eqn:Hb.
  { right. right. left. split; [done|]. by apply Z.eqb_eq. }
  apply Z.eqb_neq in Hb.
  destruct (IH w d Hd)
    as [(H1 & H2 & H3)|[(H1 & g & Hg & Hnone)|[[H1 H2]|[H1 H2]]]].
  - left. split; [done|]. split; [|by intros _; split].
    intros g [->|Hg]%elem_of_cons; [by rewrite Hf|by apply H2].
  - right. left. split; [done|]. exists g. split; [by right|done].
  - right. right. left. done.
  - congruence.
Qed.

(** X10: a call of [_merge_files] that raises has deleted nothing.  For
    distinct inputs and a destination that is not one of them, the
    exception is [FileNotFoundError], for an input that does not exist,
    [ValueError], for a buffer size of 0, or [OverflowError], for a
    buffer size that does not fit a C [int]; and every file but the
    destination is as it was. *)
Theorem _merge_files_failure_keeps_inputs (files : list string)
    (save_path : string) (w : world) (d : gmap string string)
    (e : exn) (w' : world) :
  temp_dir w = Some d -> NoDup files -> save_path ∉ files ->
  _merge_files files save_path w = (Raise e, w') ->
  ((e = FileNotFoundError /\ exists f, f ∈ files /\ d !! f = None) \/
   (e = ValueError /\ buffer_size w = 0%Z) \/
   (e = OverflowError /\ c_int_ok (buffer_size w) = false)) /\
  exists d',
    temp_dir w' = Some d' /\
    forall name, name <> save_path -> d' !! name = d !! name.
Proof.
  intros Hd Hnd Hsp. unfold _merge_files.
  unfold bindM at 1, modify at 1.
  set (w0 := log (MergeFiles files save_path) w).
  assert (temp_dir w0 = Some d) as Hd0 by done.
  unfold bindM at 1.
  destruct (open_all_result files w0 d Hd0)
    as [(H1 & H2 & H3)|[(H1 & g & Hg & Hnone)|[[H1 H2]|[H1 H2]]]]; rewrite H1.
  - unfold bindM at 1, get at 1.
    destruct (c_int_ok (buffer_size w0)) eqn:Hc; cbn [negb].
    2:{ intros [= <- <-]. split; [right; right; by split|]. by exists d. }
    rewrite (bind_write_file _ _ _ d) by done.
    unfold bindM at 1, get at 1.
    destruct (buffer_size _ =? 0)%Z eqn:Hb.
    + intros [= <- <-].
      split; [right; left; split; [done|by apply Z.eqb_eq]|].
      eexists. split; [reflexivity|].
      intros name Hname. by rewrite lookup_insert_ne.
    + rewrite (bind_write_file _ _ _ (<[save_path := ""]> d)) by done.
      cbn [set_temp_dir temp_dir]. intros Hrun.
      match type of Hrun with
      | (remove_all _ ?W = _) =>
          rewrite (remove_all_Ok files W _ eq_refl Hnd) in Hrun; [done|]
      end.
      intros f Hf. rewrite !lookup_insert_ne by (intros ->; done).
      by apply H2.
  - intros [= <- <-]. split; [left; split; [done|by exists g]|].
    by exists d.
  - intros [= <- <-]. split; [right; left; by split|]. by exists d.
  - intros [= <- <-]. split; [right; right; by split|]. by exists d.
Qed.

Lemma _merge_files_failure_keeps_inputs_witness :
  (temp_dir two_files_world = Some (default ∅ (temp_dir two_files_world)) /\
   NoDup ["x.txt"; "w.txt"] /\ ("z.txt" ∉ ["x.txt"; "w.txt"]) /\
   _merge_files ["x.txt"; "w.txt"] "z.txt" two_files_world
   = (Raise FileNotFoundError,
      (_merge_files ["x.txt"; "w.txt"] "z.txt" two_files_world).2)) /\
  ((FileNotFoundError = FileNotFoundError /\
    exists f, f ∈ ["x.txt"; "w.txt"] /\
              default ∅ (temp_dir two_files_world) !! f = None) \/
   (FileNotFoundError = ValueError /\ buffer_size two_files_world = 0%Z) \/
   (FileNotFoundError = OverflowError /\
    c_int_ok (buffer_size two_files_world) = false)) /\
  exists d',
    temp_dir (_merge_files ["x.txt"; "w.txt"] "z.txt" two_files_world).2
    = Some d' /\
    forall name, name <> "z.txt" ->
      d' !! name = default ∅ (temp_dir two_files_world) !! name.
Proof.
  assert (NoDup ["x.txt"; "w.txt"]) as Hnd by (apply (bool_decide_unpack _); by vm_compute).
  assert ("z.txt" ∉ ["x.txt"; "w.txt"]) as Hsp
    by (apply (bool_decide_unpack _); by vm_compute).
  assert (_merge_files ["x.txt"; "w.txt"] "z.txt" two_files_world
          = (Raise FileNotFoundError,
             (_merge_files ["x.txt"; "w.txt"] "z.txt" two_files_world).2))
    as Hrun by (vm_compute; reflexivity).
  split; [split; [reflexivity|split; [exact Hnd|split; [exact Hsp|exact Hrun]]]|].
  exact (_merge_files_failure_keeps_inputs ["x.txt"; "w.txt"] "z.txt"
           two_files_world _ _ _ eq_refl Hnd Hsp Hrun).
Defined.

(** ** A workspace that is not empty at the start *)

(** X11: [_make_temp_dir] accepts a workspace directory that exists.
    When it holds a file and the input makes one chunk, [sort] raises
    [OSError], from [os.removedirs], after [os.rename] has put the
    sorted chunk at the destination: the run fails and its output is
    there, with the workspace left in place. *)
Theorem sort_stale_workspace_fails_after_output
    (iterdir : gmap string string -> list string) (w : world)
    (d0 : gmap string string) (block : list string) (name : string) :
  temp_dir w = Some d0 -> name <> "split_0.txt" -> is_Some (d0 !! name) ->
  blocks_of (memory_limit w) (file_text w) = [block] ->
  exists w',
    sort iterdir w = (Raise OSError, w') /\
    saved w' = Some (written (Heapq.heapsort str_lt block)) /\
    temp_dir w' = Some (delete "split_0.txt" d0) /\
    trace w' = trace w ++ [Rename "split_0.txt"].
Proof.
  intros Hd Hname [t Ht] Hbs. rewrite sort_unfold, Hd. cbn [default].
  rewrite (_split_spec _ d0) by done.
  cbn [memory_limit file_text set_temp_dir]. rewrite Hbs.
  rewrite _merge_unfold.
  cbn [num_split_files set_num_split_files length Nat.eqb chunk_files].
  unfold _move_to_save_path, bindM, get, modify, raise.
  cbn [temp_dir set_temp_dir set_mode set_num_split_files].
  change split_name with (fun i => "split_" +:+ format_nat i +:+ ".txt").
  cbn beta. change (format_nat 0) with "0".
  change ("split_" +:+ "0" +:+ ".txt") with "split_0.txt".
  rewrite lookup_insert_eq, delete_insert_eq.
  destruct (decide (delete "split_0.txt" d0 = ∅)) as [He|_].
  { exfalso. assert (delete "split_0.txt" d0 !! name = Some t) as Hl
      by (by rewrite lookup_delete_ne).
    by rewrite He, lookup_empty in Hl. }
  eexists. split; [reflexivity|].
  split; [by rewrite saved_log, saved_write_saved|done].
Qed.

Lemma sort_stale_workspace_fails_after_output_witness :
  (temp_dir stale_small_world = Some stale_dir /\
   "old.txt" <> "split_0.txt" /\ is_Some (stale_dir !! "old.txt") /\
   blocks_of (memory_limit stale_small_world) (file_text stale_small_world)
   = [["b" +:+ nl; "a" +:+ nl]]) /\
  exists w',
    sort listdir stale_small_world = (Raise OSError, w') /\
    saved w'
    = Some (written (Heapq.heapsort str_lt ["b" +:+ nl; "a" +:+ nl])) /\
    temp_dir w' = Some (delete "split_0.txt" stale_dir) /\
    trace w' = trace stale_small_world ++ [Rename "split_0.txt"].
Proof.
  assert (is_Some (stale_dir !! "old.txt")) as Hold by (vm_compute; eauto).
  split; [split; [reflexivity|split; [discriminate|split; [exact Hold|reflexivity]]]|].
  apply (sort_stale_workspace_fails_after_output listdir stale_small_world
           stale_dir _ "old.txt"); [reflexivity|discriminate|exact Hold|reflexivity].
Defined.

(** X12: the merge phase merges whatever [iterdir] lists.  A run that
    starts with files in its workspace, each of complete lines in order
    and none with a name of the split or merge phase, and that returns,
    has written an output of complete lines in order that holds the
    lines of the input and the lines of those files. *)
Theorem sort_merges_stale_files
    (iterdir : gmap string string -> list string) (w w' : world)
    (d0 : gmap string string) :
  (forall d, iterdir d ≡ₚ (map_to_list d).*1) ->
  temp_dir w = Some d0 ->
  map_Forall (fun _ text => good_text text) d0 ->
  (forall i, d0 !! split_name i = None) ->
  (forall p i, d0 !! merge_name p i = None) ->
  terminated (file_text w) = true ->
  sort iterdir w = (Ok tt, w') ->
  exists text,
    saved w' = Some text /\ good_text text /\
    lines_of text ≡ₚ lines_of (file_text w) ++ lines_in d0.
Proof.
  intros Hiter Hd Hgood Hsplit Hmerge Hterm.
  rewrite sort_unfold, Hd. cbn [default].
  rewrite (_split_spec _ d0) by done.
  cbn [memory_limit file_text set_temp_dir]. intros Hrun.
  pose proof (blocks_of_lines (memory_limit w) (file_text w) Hterm) as Hl.
  eapply (_merge_partial iterdir Hiter
            (length (blocks_of (memory_limit w) (file_text w)) + size d0)
            (lines_of (file_text w) ++ lines_in d0))
    in Hrun as (text & ? & ? & ? & ? & _); [by exists text|reflexivity|].
  split; [|split; [|split]].
  - by rewrite chunk_files_size by (intros; apply Hsplit).
  - by apply chunk_files_good.
  - rewrite chunk_files_lines; [|intros; apply Hsplit|done].
    by rewrite blocks_of_concat.
  - intros q _. apply chunk_files_fresh. intros i. apply Hmerge.
Qed.

Lemma stale_dir_good : map_Forall (fun _ text => good_text text) stale_dir.
Proof.
  apply map_Forall_insert_2; [|apply map_Forall_empty].
  split; vm_compute; repeat constructor.
Qed.

Lemma stale_dir_lookup name :
  name <> "old.txt" -> stale_dir !! name = None.
Proof.
  intros Hne. unfold stale_dir. rewrite lookup_insert_ne by done.
  apply lookup_empty.
Qed.

Lemma stale_run :
  sort listdir stale_world = (Ok tt, (sort listdir stale_world).2).
Proof.
  rewrite sort_unfold.
  set (r := _split _). vm_compute in r. subst r. cbv iota beta.
  rewrite _merge_unfold.
  cbv [num_split_files memory_limit buffer_size update_buffer_size Nat.eqb].
  rewrite (PlanFacts._get_pass_params_eval 12 4 3 true ltac:(lia) ltac:(lia)
             ltac:(lia) ltac:(by vm_compute) 2 2) by (try lia; by vm_compute).
  vm_compute. reflexivity.
Qed.

Lemma sort_merges_stale_files_witness :
  ((forall d, listdir d ≡ₚ (map_to_list d).*1) /\
   temp_dir stale_world = Some stale_dir /\
   map_Forall (fun _ text => good_text text) stale_dir /\
   (forall i, stale_dir !! split_name i = None) /\
   (forall p i, stale_dir !! merge_name p i = None) /\
   terminated (file_text stale_world) = true /\
   sort listdir stale_world = (Ok tt, (sort listdir stale_world).2)) /\
  exists text,
    saved (sort listdir stale_world).2 = Some text /\ good_text text /\
    lines_of text ≡ₚ lines_of (file_text stale_world) ++ lines_in stale_dir.
Proof.
  assert (forall i, stale_dir !! split_name i = None) as Hsplit.
  { intros i. by apply stale_dir_lookup. }
  assert (forall p i, stale_dir !! merge_name p i = None) as Hmerge.
  { intros p i. by apply stale_dir_lookup. }
  split.
  - split; [exact Claims.listdir_Permutation|]. split; [reflexivity|].
    split; [exact stale_dir_good|]. split; [exact Hsplit|].
    split; [exact Hmerge|]. split; [reflexivity|exact stale_run].
  - exact (sort_merges_stale_files listdir stale_world _ stale_dir
             Claims.listdir_Permutation eq_refl stale_dir_good Hsplit Hmerge
             eq_refl stale_run).
Defined.

(** What the run on the stale workspace writes: the five lines of the
    input and the line of the old file. *)
Example sort_stale_world_output :
  saved (sort listdir stale_world).2
  = Some ("apple" +:+ nl +:+ "apple" +:+ nl +:+ "banana" +:+ nl
            +:+ "cherry" +:+ nl +:+ "date" +:+ nl +:+ "zebra" +:+ nl).
Proof.
  rewrite sort_unfold.
  set (r := _split _). vm_compute in r. subst r. cbv iota beta.
  rewrite _merge_unfold.
  cbv [num_split_files memory_limit buffer_size update_buffer_size Nat.eqb].
  rewrite (PlanFacts._get_pass_params_eval 12 4 3 true ltac:(lia) ltac:(lia)
             ltac:(lia) ltac:(by vm_compute) 2 2) by (try lia; by vm_compute).
  by vm_compute.
Qed.

(** ** The pass planner outside its domain *)

Lemma np_div_0_0 : Planner.np_div (Planner.Fin 0) (Planner.Fin 0) = Planner.NaN.
Proof.
  unfold Planner.np_div. destruct (Req_dec_T 0 0) as [_|Hn]; [|by destruct Hn].
  done.
Qed.

Lemma Zceil_0 : Zceil 0 = 0%Z.
Proof. apply Zceil_eq. lra. Qed.

Lemma Zceil_neg x : (x < 0)%R -> (Zceil x <= 0)%Z.
Proof.
  intros Hx. pose proof (Zceil_bound x) as [Hb _].
  assert (IZR (Zceil x) < 1)%R as H1 by lra.
  apply lt_IZR in H1. lia.
Qed.

(** X13: the planner has no plan for fewer than two chunks: for 0 or 1
    chunk it raises, for every memory limit and buffer size.  [_merge]
    calls it for no chunk, and not for one. *)
Theorem planner_raises_below_two_chunks (memory_limit buffer_size : Z)
    (num_split_files : nat) (update_buffer_size : bool) :
  num_split_files <= 1 ->
  exists e,
    Planner._get_pass_params memory_limit buffer_size num_split_files
      update_buffer_size = Raise e /\
    (e = ZeroDivisionError \/ e = OverflowError \/ e = ValueError).
Proof.
  intros HN. unfold Planner._get_pass_params.
  unfold Planner.truediv at 1.
  destruct (buffer_size =? 0)%Z; [eexists; split; [reflexivity|auto]|].
  destruct (Rle_dec _ _) as [_|_]; [eexists; split; [reflexivity|auto]|].
  cbn [bind]. destruct num_split_files as [|[|n']]; [| |lia].
  - change (INR 0) with 0%R. rewrite PlanFacts.np_log_0.
    destruct (Planner.np_log _) as [x| |].
    + change (Planner.np_div (Planner.Fin x) Planner.Inf) with (Planner.Fin 0).
      rewrite PlanFacts.np_div_Fin_0 by lra.
      eexists; split; [reflexivity|auto].
    + eexists; split; [reflexivity|auto].
    + eexists; split; [reflexivity|auto].
  - change (INR 1) with 1%R. rewrite (PlanFacts.np_log_pos 1) by lra. rewrite ln_1.
    destruct (Planner.np_log _) as [x| |].
    + destruct (Req_dec_T x 0) as [->|Hx].
      * rewrite np_div_0_0. eexists; split; [reflexivity|auto].
      * rewrite PlanFacts.np_div_Fin_0 by done.
        cbn [Planner.np_div Planner.np_ceil Planner.py_int bind].
        rewrite Zceil_0, PlanFacts.trunc_IZR.
        eexists; split; [reflexivity|auto].
    + cbn [Planner.np_div Planner.np_ceil Planner.py_int bind].
      rewrite Zceil_0, PlanFacts.trunc_IZR.
      eexists; split; [reflexivity|auto].
    + eexists; split; [reflexivity|auto].
Qed.

Lemma planner_raises_below_two_chunks_witness :
  1 <= 1 /\
  exists e,
    Planner._get_pass_params 100 4 1 true = Raise e /\
    (e = ZeroDivisionError \/ e = OverflowError \/ e = ValueError).
Proof.
  split; [lia|]. apply (planner_raises_below_two_chunks 100 4 1 true). lia.
Defined.

Lemma ratio_le_1 (M B : Z) :
  (0 < B)%Z -> (M <= 2 * B)%Z -> (IZR M / IZR B - 1 <= 1)%R.
Proof.
  intros HB HM. assert (0 < IZR B)%R as HbR by (by apply IZR_lt).
  assert (IZR M <= 2 * IZR B)%R as HmR.
  { rewrite <- mult_IZR. by apply IZR_le. }
  assert (IZR M / IZR B <= 2)%R; [|lra].
  apply (Rmult_le_reg_r (IZR B)); [done|].
  replace (IZR M / IZR B * IZR B)%R with (IZR M) by (field; lra). lra.
Qed.

(** X14: with [memory_limit <= 2 * buffer_size] the planner gives no
    plan that [_merge] can run: for two chunks or more it raises, or it
    returns a number of passes below 0. *)
Theorem planner_needs_three_buffers (memory_limit buffer_size : Z)
    (num_split_files : nat) (update_buffer_size : bool) :
  (0 < buffer_size)%Z -> (memory_limit <= 2 * buffer_size)%Z ->
  2 <= num_split_files ->
  (exists e,
     Planner._get_pass_params memory_limit buffer_size num_split_files
       update_buffer_size = Raise e) \/
  (exists K X buf : Z,
     Planner._get_pass_params memory_limit buffer_size num_split_files
       update_buffer_size = Ok (K, X, buf) /\ (K < 0)%Z).
Proof.
  intros HB HM HN. pose proof (ratio_le_1 _ _ HB HM) as Ha.
  assert (1 < INR num_split_files)%R as Hn.
  { change 1%R with (INR 1). apply lt_INR. lia. }
  pose proof (PlanFacts.ln_pos _ Hn) as Hln.
  destruct (Planner._get_pass_params _ _ _ _) as [[[K X] buf]|e] eqn:E;
    [right|left; by eexists].
  eexists K, X, buf. split; [done|]. revert E.
  unfold Planner._get_pass_params, Planner.truediv.
  rewrite (proj2 (Z.eqb_neq buffer_size 0)) by lia.
  destruct (Rle_dec _ _); [done|]. cbn [bind].
  rewrite (PlanFacts.np_log_pos (INR num_split_files)) by lra.
  set (a := (IZR memory_limit / IZR buffer_size - 1)%R) in *.
  unfold Planner.np_log.
  destruct (Rlt_dec 0 a) as [Hpos|Hnpos].
  2:{ destruct (Req_dec_T a 0) as [_|_]; [|done].
      cbn [Planner.np_div Planner.np_ceil Planner.py_int bind].
      by rewrite Zceil_0, PlanFacts.trunc_IZR. }
  rewrite PlanFacts.np_div_Fin by lra.
  destruct (Req_dec_T a 1) as [Ha1|Ha1].
  { rewrite Ha1, ln_1. unfold Rdiv at 1. rewrite Rmult_0_l.
    by rewrite PlanFacts.np_div_Fin_0 by lra. }
  assert (ln a < 0)%R as Hla.
  { rewrite <- ln_1. apply ln_increasing; lra. }
  assert (ln a / ln (INR num_split_files) < 0)%R as Hr.
  { assert (0 < - ln a / ln (INR num_split_files))%R as H0
      by (apply Rdiv_lt_0_compat; lra).
    replace (ln a / ln (INR num_split_files))%R
      with (- (- ln a / ln (INR num_split_files)))%R by (field; lra).
    lra. }
  rewrite PlanFacts.np_div_Fin by lra.
  cbn [Planner.np_ceil Planner.py_int bind]. rewrite PlanFacts.trunc_IZR.
  assert (1 / (ln a / ln (INR num_split_files)) < 0)%R as Hinv.
  { unfold Rdiv at 1. rewrite Rmult_1_l. by apply Rinv_lt_0_compat. }
  pose proof (Zceil_neg _ Hinv) as HK. set (K' := Zceil _) in *.
  destruct (K' =? 0)%Z eqn:HK0; [done|].
  apply Z.eqb_neq in HK0. destruct (Rle_dec _ _); [done|]. cbn [bind].
  rewrite PlanFacts.py_pow_pos by lia.
  cbn [bind Planner.np_ceil Planner.py_int].
  destruct update_buffer_size.
  - destruct (_ =? 0)%Z; [done|]. destruct (Rle_dec _ _); [done|].
    cbn [bind Planner.py_int]. intros [= <- _ _]. lia.
  - cbn [bind]. intros [= <- _ _]. lia.
Qed.

Lemma planner_needs_three_buffers_witness :
  ((0 < 6)%Z /\ (12 <= 2 * 6)%Z /\ 2 <= 2) /\
  ((exists e, Planner._get_pass_params 12 6 2 true = Raise e) \/
   (exists K X buf : Z,
      Planner._get_pass_params 12 6 2 true = Ok (K, X, buf) /\ (K < 0)%Z)).
Proof.
  split; [lia|]. apply (planner_needs_three_buffers 12 6 2 true); lia.
Defined.

(** X15: so [sort] cannot merge with [memory_limit <= 2 * buffer_size]:
    on every input that makes two chunks or more it raises, nothing is
    written to the destination, and the chunks stay in the workspace. *)
Theorem sort_needs_three_buffers
    (iterdir : gmap string string -> list string) (w : world) :
  default ∅ (temp_dir w) = ∅ ->
  (0 < buffer_size w)%Z -> (memory_limit w <= 2 * buffer_size w)%Z ->
  2 <= length (blocks_of (memory_limit w) (file_text w)) ->
  exists e w',
    sort iterdir w = (Raise e, w') /\ saved w' = saved w /\
    temp_dir w'
    = Some (chunk_files 0 (blocks_of (memory_limit w) (file_text w)) ∅).
Proof.
  intros Hfresh HB HM HN. rewrite sort_unfold, Hfresh.
  rewrite (_split_spec _ ∅) by done.
  cbn [memory_limit file_text set_temp_dir].
  rewrite _merge_unfold.
  cbn [num_split_files set_num_split_files memory_limit buffer_size
       update_buffer_size set_temp_dir set_mode].
  destruct (_ =? 1) eqn:E1; [apply Nat.eqb_eq in E1; lia|].
  destruct (planner_needs_three_buffers (memory_limit w) (buffer_size w)
              (length (blocks_of (memory_limit w) (file_text w)))
              (update_buffer_size w) HB HM HN)
    as [[e ->]|(K & X & buf & -> & HK)].
  - eexists _, _. split; [reflexivity|]. done.
  - replace (Z.to_nat K) with 0 by lia.
    cbn [_merge_passes]. unfold ret.
    eexists _, _. split; [reflexivity|]. done.
Qed.

Lemma sort_needs_three_buffers_witness :
  (default ∅ (temp_dir tight_world) = ∅ /\
   (0 < buffer_size tight_world)%Z /\
   (memory_limit tight_world <= 2 * buffer_size tight_world)%Z /\
   2 <= length (blocks_of (memory_limit tight_world)
                  (file_text tight_world))) /\
  exists e w',
    sort listdir tight_world = (Raise e, w') /\
    saved w' = saved tight_world /\
    temp_dir w'
    = Some (chunk_files 0 (blocks_of (memory_limit tight_world)
                             (file_text tight_world)) ∅).
Proof.
  assert (2 <= length (blocks_of (memory_limit tight_world)
                         (file_text tight_world))) as HN
    by (vm_compute; lia).
  split; [split; [reflexivity|split; [by vm_compute|split; [by vm_compute|exact HN]]]|].
  apply (sort_needs_three_buffers listdir tight_world);
    [reflexivity|by vm_compute|by vm_compute|exact HN].
Defined.

(** ** The plan inside the domain *)

(** X17: when a buffer for every chunk and one more fit in memory,
    [(chunk_count + 1) * buffer_size <= memory_limit], for a memory
    limit below [2 ^ 53], the plan is one pass that merges all the
    chunks at once; the buffer size that the planner recomputes is then
    not below the one given. *)
Theorem planner_single_pass (memory_limit buffer_size : Z)
    (num_split_files : nat) (update_buffer_size : bool) :
  (0 < buffer_size)%Z -> 2 <= num_split_files ->
  ((Z.of_nat num_split_files + 1) * buffer_size <= memory_limit)%Z ->
  (memory_limit < 2 ^ 53)%Z ->
  exists buf : Z,
    Planner._get_pass_params memory_limit buffer_size num_split_files
      update_buffer_size = Ok (1%Z, Z.of_nat num_split_files, buf) /\
    (buffer_size <= buf)%Z /\
    ((Z.of_nat num_split_files + 1) * buf <= memory_limit)%Z.
Proof.
  intros HB HN Hfit H53.
  assert (2 * buffer_size < memory_limit)%Z as HM by nia.
  assert (memory_limit < 2 ^ 1023)%Z as Hfin.
  { eapply Z.lt_trans; [exact H53|by vm_compute]. }
  eexists. split.
  - apply (PlanFacts._get_pass_params_eval memory_limit buffer_size
             num_split_files update_buffer_size HB HM HN Hfin 1
             (Z.of_nat num_split_files));
      change (1 - 1)%Z with 0%Z; rewrite ?Z.pow_0_r, ?Z.pow_1_r; lia.
  - destruct update_buffer_size; [|lia]. split.
    + apply Z.div_le_lower_bound; lia.
    + apply Z.mul_div_le. lia.
Qed.

Lemma planner_single_pass_witness :
  ((0 < 4)%Z /\ 2 <= 2 /\ ((Z.of_nat 2 + 1) * 4 <= 12)%Z /\
   (12 < 2 ^ 53)%Z) /\
  exists buf : Z,
    Planner._get_pass_params 12 4 2 true = Ok (1%Z, Z.of_nat 2, buf) /\
    (4 <= buf)%Z /\ ((Z.of_nat 2 + 1) * buf <= 12)%Z.
Proof.
  split; [split_and!; by vm_compute|].
  apply (planner_single_pass 12 4 2 true); by vm_compute.
Defined.

(** ** What a whole run computes *)

Lemma fruit_run :
  sort listdir fruit_world = (Ok tt, (sort listdir fruit_world).2).
Proof.
  rewrite sort_unfold.
  set (r := _split _). vm_compute in r. subst r. cbv iota beta.
  rewrite _merge_unfold.
  cbv [num_split_files memory_limit buffer_size update_buffer_size Nat.eqb].
  rewrite (PlanFacts._get_pass_params_eval 12 4 2 true ltac:(lia) ltac:(lia)
             ltac:(lia) ltac:(by vm_compute) 1 2) by (try lia; by vm_compute).
  vm_compute. reflexivity.
Qed.

(** X19: a run of [sort] that returns, on an input of line-terminated
    records and an empty workspace, has written exactly what sorting
    the lines of the input in memory writes.  So the output does not
    depend on the memory limit, on the buffer size, on the number of
    chunks and passes, or on the order in which [iterdir] lists the
    workspace. *)
Theorem sort_output_is_sorted_input
    (iterdir : gmap string string -> list string) (w w' : world) :
  (forall d, iterdir d ≡ₚ (map_to_list d).*1) ->
  default ∅ (temp_dir w) = ∅ -> terminated (file_text w) = true ->
  sort iterdir w = (Ok tt, w') ->
  saved w' = Some (written (Heapq.heapsort str_lt (lines_of (file_text w)))).
Proof.
  intros Hiter Hfresh Hterm Hrun.
  destruct (sort_partial iterdir Hiter w w' Hfresh Hterm Hrun)
    as (text & -> & _ & [_ Hsorted] & Hperm).
  f_equal. rewrite <- (written_lines_of text) at 1. f_equal.
  symmetry. by apply heapsort_is_the_sorted_block_aux.
Qed.

Lemma sort_output_is_sorted_input_witness :
  ((forall d, listdir d ≡ₚ (map_to_list d).*1) /\
   default ∅ (temp_dir fruit_world) = ∅ /\
   terminated (file_text fruit_world) = true /\
   sort listdir fruit_world = (Ok tt, (sort listdir fruit_world).2)) /\
  saved (sort listdir fruit_world).2
  = Some (written (Heapq.heapsort str_lt (lines_of (file_text fruit_world)))).
Proof.
  split.
  - split; [exact Claims.listdir_Permutation|].
    split; [reflexivity|]. split; [reflexivity|exact fruit_run].
  - exact (sort_output_is_sorted_input listdir fruit_world _
             Claims.listdir_Permutation eq_refl eq_refl fruit_run).
Defined.

(** ** What a run leaves alone *)

Lemma same_input_refl w : same_input w w.
Proof. by split_and!. Qed.

Lemma same_input_trans w1 w2 w3 :
  same_input w1 w2 -> same_input w2 w3 -> same_input w1 w3.
Proof.
  intros (E1 & ? & ? & H1) (E2 & ? & ? & H2). split_and!; try congruence.
  intros Hs. rewrite H2, H1; [done|done|congruence].
Qed.

Lemma keeps_ret {A} (a : A) : keeps (ret a).
Proof. intros w r w' [= _ <-]. apply same_input_refl. Qed.

Lemma keeps_raise {A} e : keeps (@raise A e).
Proof. intros w r w' [= _ <-]. apply same_input_refl. Qed.

Lemma keeps_get : keeps get.
Proof. intros w r w' [= _ <-]. apply same_input_refl. Qed.

Lemma keeps_lift {A} (x : result A) : keeps (lift x).
Proof. intros w r w' [= _ <-]. apply same_input_refl. Qed.

Lemma keeps_modify f : (forall w, same_input w (f w)) -> keeps (modify f).
Proof. intros Hf w r w' [= _ <-]. apply Hf. Qed.

Lemma keeps_bind {A B} (m : M A) (k : A -> M B) :
  keeps m -> (forall a, keeps (k a)) -> keeps (bindM m k).
Proof.
  intros Hm Hk w r w'. unfold bindM.
  destruct (m w) as [[a|e] w1] eqn:E.
  - intros Hrun. eapply same_input_trans; [by eapply Hm|by eapply Hk].
  - intros [= _ <-]. by eapply Hm.
Qed.

Ltac keeps_step :=
  first
    [ apply keeps_ret | apply keeps_raise | apply keeps_get | apply keeps_lift
    | apply keeps_modify; intros; split_and!; try done; cbn; by intros ->
    | apply keeps_bind; [|intros ?]
    | match goal with
      | |- keeps (match ?x with _ => _ end) => destruct x
      end ].

Lemma keeps_write_file name text : keeps (write_file name text).
Proof. unfold write_file. repeat keeps_step. Qed.

Lemma keeps__make_tempfile_path i o : keeps (_make_tempfile_path i o).
Proof. unfold _make_tempfile_path. repeat keeps_step. Qed.

Lemma keeps__split_loop fuel : forall bi block f,
  keeps (_split_loop fuel bi block f).
Proof.
  induction fuel as [|fuel IH]; intros bi block f; cbn [_split_loop].
  { apply keeps_ret. }
  destruct block; [apply keeps_ret|].
  apply keeps_bind; [apply keeps__make_tempfile_path|intros ?].
  apply keeps_bind; [apply keeps_write_file|intros ?].
  apply keeps_bind; [apply keeps_get|intros w0].
  destruct (readlines _ _). apply IH.
Qed.

Lemma keeps__split : keeps _split.
Proof.
  unfold _split. apply keeps_bind; [by keeps_step|intros ?].
  apply keeps_bind; [apply keeps_get|intros w0].
  destruct (readlines _ _).
  apply keeps_bind; [apply keeps__split_loop|intros ?]. by keeps_step.
Qed.

Lemma keeps_open_all files : keeps (open_all files).
Proof.
  induction files as [|f files IH]; cbn [open_all]; [apply keeps_ret|].
  apply keeps_bind; [|by intros ?]. unfold open_read. repeat keeps_step.
Qed.

Lemma keeps_remove_all files : keeps (remove_all files).
Proof.
  induction files as [|f files IH]; cbn [remove_all]; [apply keeps_ret|].
  apply keeps_bind; [|by intros ?]. unfold remove. repeat keeps_step.
Qed.

Lemma keeps__merge_files files save_path : keeps (_merge_files files save_path).
Proof.
  unfold _merge_files. apply keeps_bind; [by keeps_step|intros ?].
  apply keeps_bind; [apply keeps_open_all|intros ?].
  apply keeps_bind; [apply keeps_get|intros w0].
  destruct (negb _); [apply keeps_raise|].
  apply keeps_bind; [apply keeps_write_file|intros ?].
  apply keeps_bind; [apply keeps_get|intros w1].
  destruct (_ =? _)%Z; [apply keeps_raise|].
  apply keeps_bind; [apply keeps_write_file|intros ?].
  apply keeps_remove_all.
Qed.

Lemma keeps__move_to_save_path temp_path : keeps (_move_to_save_path temp_path).
Proof. unfold _move_to_save_path. repeat keeps_step. Qed.

Lemma keeps__merge_groups fuel X L p : forall s spt,
  keeps (_merge_groups fuel X L s p spt).
Proof.
  induction fuel as [|fuel IH]; intros s spt; cbn [_merge_groups].
  { apply keeps_ret. }
  destruct (_ <? _); [|apply keeps_ret].
  apply keeps_bind; [apply keeps__make_tempfile_path|intros ?].
  apply keeps_bind; [apply keeps__merge_files|intros ?]. apply IH.
Qed.

Lemma keeps__merge_passes iterdir count X : forall p spt,
  keeps (_merge_passes iterdir count X p spt).
Proof.
  induction count as [|count IH]; intros p spt; cbn [_merge_passes].
  { apply keeps_ret. }
  apply keeps_bind; [|intros ?; apply IH].
  unfold _merge_pass. apply keeps_bind; [apply keeps_get|intros w0].
  destruct (temp_dir w0); [|apply keeps_raise].
  destruct (_ =? _)%Z; [apply keeps_raise|].
  destruct (_ <? _)%Z; [apply keeps_ret|]. apply keeps__merge_groups.
Qed.

Lemma keeps_sort iterdir : keeps (sort iterdir).
Proof.
  unfold sort, _make_temp_dir.
  apply keeps_bind; [by keeps_step|intros ?].
  apply keeps_bind; [apply keeps__split|intros ?].
  unfold _merge. apply keeps_bind; [by keeps_step|intros ?].
  apply keeps_bind; [apply keeps_get|intros w0].
  destruct (_ =? 1); [apply keeps__move_to_save_path|].
  apply keeps_bind; [apply keeps_lift|intros [[K X] buf]].
  apply keeps_bind; [by keeps_step|intros ?].
  apply keeps_bind; [apply keeps__merge_passes|intros [name|]].
  - apply keeps__move_to_save_path.
  - apply keeps_raise.
Qed.

Lemma in_place_run :
  sort listdir in_place_world = (Ok tt, (sort listdir in_place_world).2).
Proof.
  rewrite sort_unfold.
  set (r := _split _). vm_compute in r. subst r. cbv iota beta.
  rewrite _merge_unfold.
  cbv [num_split_files memory_limit buffer_size update_buffer_size Nat.eqb].
  rewrite (PlanFacts._get_pass_params_eval 12 4 2 true ltac:(lia) ltac:(lia)
             ltac:(lia) ltac:(by vm_compute) 1 2) by (try lia; by vm_compute).
  vm_compute. reflexivity.
Qed.

(** X20: what a run of [sort] does to the input file depends on where
    its result goes.  With a [save_path] that is another file, the
    input file is after the run as it was before, whatever the outcome
    of the run.  With a [save_path] that is the input file itself, a run
    that returns, on line-terminated records and an empty workspace, has
    replaced the input by its lines in sorted order.  In both cases the
    memory limit and the switch [update_buffer_size] of the sorter are
    as they were. *)
Theorem sort_leaves_input_alone
    (iterdir : gmap string string -> list string) (w : world) :
  (forall d, iterdir d ≡ₚ (map_to_list d).*1) ->
  (save_path w = Elsewhere -> file_text (sort iterdir w).2 = file_text w) /\
  (save_path w = Input -> default ∅ (temp_dir w) = ∅ ->
   terminated (file_text w) = true -> (sort iterdir w).1 = Ok tt ->
   file_text (sort iterdir w).2
   = written (Heapq.heapsort str_lt (lines_of (file_text w)))) /\
  memory_limit (sort iterdir w).2 = memory_limit w /\
  update_buffer_size (sort iterdir w).2 = update_buffer_size w.
Proof.
  intros Hiter.
  destruct (keeps_sort iterdir w (sort iterdir w).1 (sort iterdir w).2)
    as (Hsp & HM & Hu & Hft); [by destruct (sort iterdir w)|].
  split; [done|]. split; [|done].
  intros Hin Hfresh Hterm Hok.
  destruct (sort_partial iterdir Hiter w (sort iterdir w).2 Hfresh Hterm)
    as (text & Hsaved & _ & [_ Hsorted] & Hperm).
  { rewrite <- Hok. by destruct (sort iterdir w). }
  unfold saved in Hsaved. rewrite Hsp, Hin in Hsaved.
  injection Hsaved as Heq. rewrite Heq.
  rewrite <- (written_lines_of text) at 1. f_equal.
  symmetry. by apply heapsort_is_the_sorted_block_aux.
Qed.

Lemma sort_leaves_input_alone_witness :
  (forall d, listdir d ≡ₚ (map_to_list d).*1) /\
  (save_path in_place_world = Input /\
   default ∅ (temp_dir in_place_world) = ∅ /\
   terminated (file_text in_place_world) = true /\
   (sort listdir in_place_world).1 = Ok tt) /\
  file_text (sort listdir in_place_world).2
  = written (Heapq.heapsort str_lt (lines_of (file_text in_place_world))).
Proof.
  assert ((sort listdir in_place_world).1 = Ok tt) as Hok
    by (by rewrite in_place_run).
  split; [exact Claims.listdir_Permutation|].
  split; [split; [reflexivity|split; [reflexivity|split; [reflexivity|exact Hok]]]|].
  exact (proj1 (proj2 (sort_leaves_input_alone listdir in_place_world
                         Claims.listdir_Permutation))
           eq_refl eq_refl eq_refl Hok).
Defined.

(** The input file after that run. *)
Example sort_in_place_output :
  file_text (sort listdir in_place_world).2
  = "apple" +:+ nl +:+ "apple" +:+ nl +:+ "banana" +:+ nl +:+ "cherry" +:+ nl.
Proof.
  rewrite sort_unfold.
  set (r := _split _). vm_compute in r. subst r. cbv iota beta.
  rewrite _merge_unfold.
  cbv [num_split_files memory_limit buffer_size update_buffer_size Nat.eqb].
  rewrite (PlanFacts._get_pass_params_eval 12 4 2 true ltac:(lia) ltac:(lia)
             ltac:(lia) ltac:(by vm_compute) 1 2) by (try lia; by vm_compute).
  by vm_compute.
Qed.

(** ** An input whose last line has no newline *)

Lemma str_app_assoc a b c : (a +:+ b) +:+ c = a +:+ (b +:+ c).
Proof.
  induction a as [|x a IH]; [done|].
  change (String x ((a +:+ b) +:+ c) = String x (a +:+ (b +:+ c))).
  by rewrite IH.
Qed.

Lemma written_app l1 l2 : written (l1 ++ l2) = written l1 +:+ written l2.
Proof.
  induction l1 as [|l l1 IH]; simpl; [done|].
  by rewrite IH, str_app_assoc.
Qed.

Lemma is_line_app a l :
  no_newline a = true -> is_line l = true -> is_line (a +:+ l) = true.
Proof.
  intros Ha Hl. induction a as [|c a IH]; simpl in *; [done|].
  apply andb_true_iff in Ha as [Hc Ha].
  destruct (Ascii.eqb c newline); [done|]. by apply IH.
Qed.

Lemma lines_of_open last :
  no_newline last = true -> last <> EmptyString -> lines_of last = [last].
Proof.
  induction last as [|c rest IH]; [done|]. intros Hn _. simpl in *.
  apply andb_true_iff in Hn as [Hc Hn].
  destruct (Ascii.eqb c newline); [done|].
  destruct rest as [|c' rest']; [done|]. by rewrite IH.
Qed.

Lemma lines_of_written_open block last :
  Forall (fun l => is_line l = true) block ->
  no_newline last = true -> last <> EmptyString ->
  lines_of (written block +:+ last) = block ++ [last].
Proof.
  intros Hb Hn Hne. induction Hb as [|l block Hl Hb IH]; simpl.
  { by apply lines_of_open. }
  rewrite str_app_assoc, lines_of_app_line by done. by rewrite IH.
Qed.

(** X21: the lines that the chunks hold are written back as they were
    read, so a last line without a newline is glued to the line that
    sorting puts after it.  For an input sorted in one chunk whose last
    line has no newline and is below some other line, the run returns
    and its output has one line fewer than the input. *)
Theorem sort_glues_unterminated_last_line
    (iterdir : gmap string string -> list string) (w : world)
    (block : list string) (last x : string) :
  default ∅ (temp_dir w) = ∅ ->
  file_text w = written block +:+ last ->
  Forall (fun l => is_line l = true) block ->
  no_newline last = true -> last <> EmptyString ->
  (memory_limit w <= 0 \/ len (file_text w) <= memory_limit w)%Z ->
  x ∈ block -> str_lt last x = true ->
  exists w' text,
    sort iterdir w = (Ok tt, w') /\ saved w' = Some text /\
    length (lines_of (file_text w)) = S (length block) /\
    length (lines_of text) = length block.
Proof.
  intros Hfresh Htext Hb Hn Hne Hfit Hx Hlt.
  pose proof (lines_of_written_open block last Hb Hn Hne) as Hlines.
  rewrite <- Htext in Hlines.
  assert (file_text w <> EmptyString) as Hne'.
  { intros E. rewrite E in Hlines. by destruct block. }
  destruct (sort_single_chunk iterdir w (lines_of (file_text w)) Hfresh)
    as (w' & Hrun & Hsaved & _).
  { by apply blocks_of_whole. }
  eexists w', _. split; [exact Hrun|]. split; [exact Hsaved|].
  split; [rewrite Hlines, length_app; simpl; lia|].
  rewrite Hlines.
  pose proof (heapsort_sorted (block ++ [last])) as Hs.
  assert (Heapq.heapsort str_lt (block ++ [last]) ≡ₚ last :: block) as Hp.
  { rewrite heapsort_Permutation. symmetry. apply Permutation_cons_append. }
  apply Permutation_cons_inv_r in Hp as (pre & post & Hsplit & Hp).
  rewrite Hsplit in Hs |- *.
  destruct post as [|p0 post].
  { exfalso. rewrite app_nil_r in Hp. rewrite Hp in Hx.
    pose proof (StronglySorted_app_1_elem_of _ pre [last] x last Hs Hx
                  ltac:(by left)) as Hle.
    simpl in Hle. congruence. }
  assert (Forall (fun l => is_line l = true) (pre ++ p0 :: post)) as Hall.
  { by rewrite <- Hp. }
  apply Forall_app in Hall as [Hpre Hpost].
  apply Forall_cons in Hpost as [Hp0 Hpost].
  replace (written (pre ++ last :: p0 :: post))
    with (written (pre ++ (last +:+ p0) :: post)).
  2:{ rewrite !written_app. simpl. by rewrite str_app_assoc. }
  rewrite lines_of_written.
  - apply Permutation_length in Hp. rewrite !length_app in *. simpl in *. lia.
  - apply Forall_app. split; [done|]. constructor; [|done].
    by apply is_line_app.
Qed.

Lemma sort_glues_unterminated_last_line_witness :
  (default ∅ (temp_dir open_ended_world) = ∅ /\
   file_text open_ended_world = written ["b" +:+ nl] +:+ "a" /\
   Forall (fun l => is_line l = true) ["b" +:+ nl] /\
   no_newline "a" = true /\ "a" <> EmptyString /\
   (memory_limit open_ended_world <= 0 \/
    len (file_text open_ended_world) <= memory_limit open_ended_world)%Z /\
   "b" +:+ nl ∈ ["b" +:+ nl] /\ str_lt "a" ("b" +:+ nl) = true) /\
  exists w' text,
    sort listdir open_ended_world = (Ok tt, w') /\ saved w' = Some text /\
    length (lines_of (file_text open_ended_world)) = S (length ["b" +:+ nl]) /\
    length (lines_of text) = length ["b" +:+ nl].
Proof.
  assert (Forall (fun l => is_line l = true) ["b" +:+ nl]) as Hb
    by (by repeat constructor).
  assert ((memory_limit open_ended_world <= 0 \/
           len (file_text open_ended_world)
           <= memory_limit open_ended_world)%Z) as Hfit
    by (right; by vm_compute).
  assert ("b" +:+ nl ∈ ["b" +:+ nl]) as Hx by (by left).
  split.
  - split; [reflexivity|]. split; [reflexivity|]. split; [exact Hb|].
    split; [reflexivity|]. split; [discriminate|]. split; [exact Hfit|].
    split; [exact Hx|reflexivity].
  - apply (sort_glues_unterminated_last_line listdir open_ended_world
             ["b" +:+ nl] "a" ("b" +:+ nl));
      [reflexivity|reflexivity|exact Hb|reflexivity|discriminate|exact Hfit
      |exact Hx|reflexivity].
Defined.

(** The glued output of that run. *)
Example sort_open_ended_output :
  saved (sort listdir open_ended_world).2 = Some ("ab" +:+ nl).
Proof. by vm_compute. Qed.

(** ** The generator of test files *)

Lemma len_string_of_list_ascii cs :
  len (string_of_list_ascii cs) = Z.of_nat (length cs).
Proof. unfold len. f_equal. induction cs as [|c cs IH]; simpl; congruence. Qed.

Lemma randint_in_range (m : Z) (g : rng) :
  (2 <= m)%Z ->
  exists n, randint 1 (Some m) g = (Ok n, (next_draw g).2) /\ (1 <= n < m)%Z.
Proof.
  intros Hm. unfold randint.
  rewrite (proj2 (Z.leb_gt m 1)) by lia.
  destruct (next_draw g) as [x g1]. eexists. split; [reflexivity|].
  pose proof (Z.mod_pos_bound (Z.of_nat x) (m - 1) ltac:(lia)). lia.
Qed.

Lemma choice_loop_spec (P : ascii -> Prop) (a : list ascii) :
  a <> [] -> Forall P a ->
  forall size g,
    length (choice_loop a size g).1 = size /\
    Forall P (choice_loop a size g).1.
Proof.
  intros Ha HP. induction size as [|size IH]; intros g; [by split|].
  cbn [choice_loop]. destruct (next_draw g) as [x g1].
  specialize (IH g1). destruct (choice_loop a size g1) as [chars g2].
  cbn [fst] in *. destruct IH as [IH1 IH2]. split; [simpl; by rewrite IH1|].
  constructor; [|done].
  rewrite Forall_forall in HP. apply HP. apply list_elem_of_In, nth_In.
  apply Nat.mod_upper_bound. by destruct a.
Qed.

Lemma VOCABULARY_letters : Forall (fun c => is_letter c = true) VOCABULARY.
Proof. by repeat constructor. Qed.

Lemma generate_random_string_spec (string_len : Z) (g : rng) :
  (0 <= string_len)%Z ->
  exists s g',
    generate_random_string string_len g = (Ok s, g') /\
    len s = string_len /\
    Forall (fun c => is_letter c = true) (list_ascii_of_string s).
Proof.
  intros Hlen. unfold generate_random_string, choice.
  rewrite (proj2 (Z.ltb_ge string_len 0)) by lia.
  destruct (decide _) as [[H _]|_]; [done|].
  destruct (choice_loop_spec (fun c => is_letter c = true) VOCABULARY
              ltac:(done) VOCABULARY_letters (Z.to_nat string_len) g)
    as [H1 H2].
  destruct (choice_loop _ _ _) as [chars g']. cbn [fst] in *.
  eexists _, _. split; [reflexivity|]. split.
  - rewrite len_string_of_list_ascii, H1. lia.
  - by rewrite list_ascii_of_string_of_list_ascii.
Qed.

Lemma write_lines_spec (m : Z) : forall (n : nat) (text : string) (g : rng),
  (2 <= m)%Z ->
  exists lines g',
    write_lines n (Some m) text g = (Ok tt, text +:+ written lines, g') /\
    length lines = n /\ Forall (generated_line m) lines.
Proof.
  induction n as [|n IH]; intros text g Hm.
  { exists [], g. split; [|by split]. simpl.
    replace (text +:+ "") with text; [done|].
    clear. induction text as [|c t IHt]; [done|].
    change (String c t = String c (t +:+ "")). by rewrite <- IHt. }
  cbn [write_lines].
  destruct (randint_in_range m g Hm) as (len_s & -> & Hrange).
  destruct (generate_random_string_spec len_s (next_draw g).2 ltac:(lia))
    as (s & g2 & -> & Hlen & Hletters).
  destruct (IH (text +:+ s +:+ String newline EmptyString) g2 Hm)
    as (lines & g' & -> & Hn & Hall).
  exists ((s +:+ String newline EmptyString) :: lines), g'.
  split; [|split].
  - f_equal. f_equal. simpl. by rewrite !str_app_assoc.
  - simpl. by rewrite Hn.
  - constructor; [|done]. exists s. split_and!; try done; lia.
Qed.

Lemma letter_not_newline c : is_letter c = true -> Ascii.eqb c newline = false.
Proof.
  intros Hc. destruct (Ascii.eqb c newline) eqn:E; [|done].
  apply Ascii.eqb_eq in E as ->. done.
Qed.

Lemma letters_no_newline s :
  Forall (fun c => is_letter c = true) (list_ascii_of_string s) ->
  no_newline s = true.
Proof.
  induction s as [|c s IH]; [done|]. simpl.
  intros [Hc Hs]%Forall_cons. rewrite letter_not_newline by done. by apply IH.
Qed.

Lemma generated_line_is_line m line :
  generated_line m line -> is_line line = true.
Proof.
  intros (s & -> & Hs & _). apply is_line_app; [by apply letters_no_newline|done].
Qed.

Lemma written_generated_lines m lines :
  Forall (generated_line m) lines ->
  terminated (written lines) = true /\ lines_of (written lines) = lines.
Proof.
  intros Hall.
  assert (Forall (fun l => is_line l = true) lines) as Hlines.
  { eapply Forall_impl; [exact Hall|]. apply generated_line_is_line. }
  split; [by apply terminated_written|by apply lines_of_written].
Qed.

(** X22: for a bound [max_string_len] of 2 or more,
    [generate_text_file] returns for every state of the random
    generator, and the file it has written holds [num_lines] lines,
    none for a negative [num_lines], each made of letters, at least one
    and fewer than [max_string_len], and each ended by a newline, the
    last one included. *)
Theorem generate_text_file_writes_lines (num_lines max_string_len : Z)
    (g : rng) :
  (2 <= max_string_len)%Z ->
  exists text g',
    generate_text_file num_lines (Some max_string_len) g = (Ok tt, text, g') /\
    terminated text = true /\
    length (lines_of text) = Z.to_nat num_lines /\
    Forall (generated_line max_string_len) (lines_of text).
Proof.
  intros Hm. unfold generate_text_file.
  destruct (write_lines_spec max_string_len (Z.to_nat num_lines)
              EmptyString g Hm) as (lines & g' & -> & Hn & Hall).
  destruct (written_generated_lines _ _ Hall) as [Hterm Hlines].
  eexists _, _. split; [reflexivity|].
  change ("" +:+ written lines) with (written lines).
  by rewrite Hlines.
Qed.

Lemma generate_text_file_writes_lines_witness :
  (2 <= 3)%Z /\
  exists text g',
    generate_text_file 2 (Some 3%Z) count_rng = (Ok tt, text, g') /\
    terminated text = true /\
    length (lines_of text) = Z.to_nat 2 /\
    Forall (generated_line 3) (lines_of text).
Proof.
  split; [lia|]. apply (generate_text_file_writes_lines 2 3 count_rng). lia.
Defined.

(** X23: for a bound [max_string_len] of 1 or less and at least one
    line to write, [generate_text_file] raises [ValueError], from
    [np.random.randint] on an empty range; the file has been created
    and is empty, and no random number has been drawn. *)
Theorem generate_text_file_empty_range (num_lines max_string_len : Z)
    (g : rng) :
  (1 <= num_lines)%Z -> (max_string_len <= 1)%Z ->
  generate_text_file num_lines (Some max_string_len) g
  = (Raise ValueError, EmptyString, g).
Proof.
  intros Hn Hm. unfold generate_text_file.
  destruct (Z.to_nat num_lines) as [|n] eqn:E; [lia|].
  cbn [write_lines]. unfold randint.
  by rewrite (proj2 (Z.leb_le max_string_len 1)) by lia.
Qed.

Lemma generate_text_file_empty_range_witness :
  ((1 <= 5)%Z /\ (1 <= 1)%Z) /\
  generate_text_file 5 (Some 1%Z) count_rng
  = (Raise ValueError, EmptyString, count_rng).
Proof.
  split; [lia|]. apply (generate_text_file_empty_range 5 1 count_rng); lia.
Defined.

Lemma write_lines_None : forall (n : nat) (text : string) (g : rng),
  write_lines n None text g
  = (Ok tt, text +:+ written (replicate n (String newline EmptyString)),
     Rng (draws g) (taken g + n)).
Proof.
  induction n as [|n IH]; intros text g.
  { simpl. destruct g as [d t]. simpl. rewrite Nat.add_0_r.
    replace (text +:+ "") with text; [done|].
    clear. induction text as [|c t' IHt]; [done|].
    change (String c t' = String c (t' +:+ "")). by rewrite <- IHt. }
  cbn [write_lines]. unfold randint, next_draw.
  change (1 <=? 0)%Z with false. cbv iota beta.
  rewrite Z.mod_1_r.
  change (generate_random_string (0 + 0) ?g) with (Ok EmptyString, g).
  cbv iota beta. rewrite IH. cbn [draws taken].
  f_equal; [f_equal|f_equal; lia].
  simpl. by rewrite !str_app_assoc.
Qed.

(** X24: with no bound, [max_string_len] is [None], and
    [np.random.randint(1, None)] draws from [[0, 1)]: every line that
    [generate_text_file] writes is empty, so the file holds
    [num_lines] newlines and nothing else. *)
Theorem generate_text_file_without_bound (num_lines : Z) (g : rng) :
  exists g',
    generate_text_file num_lines None g
    = (Ok tt,
       written (replicate (Z.to_nat num_lines) (String newline EmptyString)),
       g').
Proof.
  unfold generate_text_file. rewrite write_lines_None. by eexists.
Qed.

(** X25: the files that [generate_text_file] writes are inputs that
    [sort] handles: for at least one line and a bound of 2 or more, and
    a sorter with an empty workspace that needs one pass at most,
    [one_pass], the run returns, and its output holds the [num_lines]
    generated lines in order. *)
Theorem sort_of_generated_file
    (iterdir : gmap string string -> list string) (w : world)
    (num_lines max_string_len : Z) (g g' : rng) (text : string) :
  (forall d, iterdir d ≡ₚ (map_to_list d).*1) ->
  (1 <= num_lines)%Z -> (2 <= max_string_len)%Z ->
  generate_text_file num_lines (Some max_string_len) g = (Ok tt, text, g') ->
  file_text w = text -> default ∅ (temp_dir w) = ∅ -> one_pass w ->
  exists w',
    sort iterdir w = (Ok tt, w') /\
    saved w' = Some (written (Heapq.heapsort str_lt (lines_of text))) /\
    length (Heapq.heapsort str_lt (lines_of text)) = Z.to_nat num_lines.
Proof.
  intros Hiter Hn Hm Hgen Htext Hfresh Hone.
  unfold generate_text_file in Hgen.
  destruct (write_lines_spec max_string_len (Z.to_nat num_lines)
              EmptyString g Hm) as (lines & g0 & Hgen0 & Hlen & Hall).
  rewrite Hgen in Hgen0. injection Hgen0 as -> _.
  change ("" +:+ written lines) with (written lines) in *.
  destruct (written_generated_lines _ _ Hall) as [Hterm Hlines].
  assert (file_text w <> EmptyString) as Hne.
  { rewrite Htext. intros E. rewrite E in Hlines. simpl in Hlines.
    subst lines. simpl in Hlen. lia. }
  rewrite <- Htext in Hterm.
  destruct (sort_one_pass iterdir Hiter w Hfresh Hterm Hne Hone) as [w' Hrun].
  destruct (sort_partial iterdir Hiter w w' Hfresh Hterm Hrun)
    as (text & Hsaved & _ & [_ Hsorted] & Hperm).
  rewrite Htext in Hperm. exists w'. split; [done|]. split.
  - rewrite Hsaved. f_equal. rewrite <- (written_lines_of text) at 1. f_equal.
    symmetry. by apply heapsort_is_the_sorted_block_aux.
  - by rewrite heapsort_Permutation, Hlines.
Qed.

Lemma generated_run :
  generate_text_file 2 (Some 3%Z) count_rng
  = (Ok tt, generated_text,
     (generate_text_file 2 (Some 3%Z) count_rng).2).
Proof. vm_compute. reflexivity. Qed.

Lemma generated_one_pass : one_pass generated_world.
Proof. split; [reflexivity|]. left. by vm_compute. Qed.

Lemma sort_of_generated_file_witness :
  ((forall d, listdir d ≡ₚ (map_to_list d).*1) /\
   (1 <= 2)%Z /\ (2 <= 3)%Z /\
   generate_text_file 2 (Some 3%Z) count_rng
   = (Ok tt, generated_text,
      (generate_text_file 2 (Some 3%Z) count_rng).2) /\
   file_text generated_world = generated_text /\
   default ∅ (temp_dir generated_world) = ∅ /\
   one_pass generated_world) /\
  exists w',
    sort listdir generated_world = (Ok tt, w') /\
    saved w'
    = Some (written (Heapq.heapsort str_lt (lines_of generated_text))) /\
    length (Heapq.heapsort str_lt (lines_of generated_text)) = Z.to_nat 2.
Proof.
  split.
  - split; [exact Claims.listdir_Permutation|]. split; [lia|]. split; [lia|].
    split; [exact generated_run|]. split; [reflexivity|].
    split; [reflexivity|exact generated_one_pass].
  - apply (sort_of_generated_file listdir generated_world 2 3 count_rng
             (generate_text_file 2 (Some 3%Z) count_rng).2
             generated_text Claims.listdir_Permutation);
      [lia|lia|exact generated_run|reflexivity|reflexivity
      |exact generated_one_pass].
Defined.

(** ** The command line *)

(** X26: [--update-buffer-size] is converted by [bool], which is true
    of every text but the empty one: whatever text is given for it,
    [False] and [0] included, the script builds the sorter that it
    builds without the option, the one that recomputes the buffer
    size; only an empty text switches that off. *)
Theorem cli_update_buffer_size_value_is_ignored
    (default_buffer_size available : Z) (memory_limit buffer_size : option Z)
    (given : string) (file_text : string)
    (temp_dir : option (gmap string string)) (saved : option string) :
  given <> EmptyString ->
  merge_sort default_buffer_size available
    (Args memory_limit buffer_size (Some given)) file_text temp_dir saved
  = merge_sort default_buffer_size available
      (Args memory_limit buffer_size None) file_text temp_dir saved /\
  update_buffer_size
    (merge_sort default_buffer_size available
       (Args memory_limit buffer_size (Some given)) file_text temp_dir saved)
  = true.
Proof.
  intros Hne. unfold merge_sort, py_bool.
  cbn [arg_update_buffer_size arg_memory_limit arg_buffer_size from_option].
  destruct (String.eqb given EmptyString) eqn:E;
    [by apply String.eqb_eq in E|]. done.
Qed.

Lemma cli_update_buffer_size_value_is_ignored_witness :
  "False" <> EmptyString /\
  (merge_sort 8192 1000000 (Args (Some 12%Z) (Some 4%Z) (Some "False"))
     fruit None None
   = merge_sort 8192 1000000 (Args (Some 12%Z) (Some 4%Z) None)
       fruit None None /\
   update_buffer_size
     (merge_sort 8192 1000000 (Args (Some 12%Z) (Some 4%Z) (Some "False"))
        fruit None None)
   = true).
Proof.
  split; [discriminate|].
  apply (cli_update_buffer_size_value_is_ignored 8192 1000000 (Some 12%Z)
           (Some 4%Z) "False" fruit None None).
  discriminate.
Defined.

(** ** One pass of the merge loop *)

(** X27: one iteration of the outer loop of [_merge], with a fan-in of
    1 or more and a buffer size that [open] takes, one that fits a C
    [int] and is not 0, on a workspace of [n]
    files of complete lines in order, none with a name of this pass or
    a later one: it returns, and leaves one file for each group of
    [fan_in] files, [ceil(n / fan_in)] files in all, again of complete
    lines in order and holding together the same lines; the path it
    hands on is a file of the workspace. *)
Theorem _merge_pass_groups_files
    (iterdir : gmap string string -> list string)
    (num_files_to_merge : Z) (merge_index : nat)
    (save_path_tmp : option string) (n : nat) (L : list string)
    (w : world) (d : gmap string string) :
  (forall d, iterdir d ≡ₚ (map_to_list d).*1) ->
  temp_dir w = Some d -> mode w = "merge" -> opens (buffer_size w) ->
  (1 <= num_files_to_merge)%Z -> workspace_ok merge_index n L d ->
  exists w' d' save_path_tmp',
    _merge_pass iterdir num_files_to_merge merge_index save_path_tmp w
    = (Ok save_path_tmp', w') /\
    temp_dir w' = Some d' /\
    size d' = (n + (Z.to_nat num_files_to_merge - 1))
              / Z.to_nat num_files_to_merge /\
    map_Forall (fun _ text => good_text text) d' /\
    lines_in d' ≡ₚ L /\
    (0 < n -> exists name,
       save_path_tmp' = Some name /\ is_Some (d' !! name)).
Proof.
  intros Hiter Hd Hmode Hb HX Hok.
  destruct (_merge_pass_spec iterdir Hiter num_files_to_merge merge_index
              save_path_tmp n L w d Hd Hmode Hb HX Hok)
    as (w' & d' & spt' & Hrun & Hd' & _ & (Hsize & Hgood & Hlines & _) & Hname).
  by exists w', d', spt'.
Qed.

Lemma _merge_pass_groups_files_witness :
  ((forall d, listdir d ≡ₚ (map_to_list d).*1) /\
   temp_dir two_files_world = Some (default ∅ (temp_dir two_files_world)) /\
   mode two_files_world = "merge" /\ opens (buffer_size two_files_world) /\
   (1 <= 2)%Z /\
   workspace_ok 0 2 (lines_in (default ∅ (temp_dir two_files_world)))
     (default ∅ (temp_dir two_files_world))) /\
  exists w' d' save_path_tmp',
    _merge_pass listdir 2 0 None two_files_world = (Ok save_path_tmp', w') /\
    temp_dir w' = Some d' /\
    size d' = (2 + (Z.to_nat 2 - 1)) / Z.to_nat 2 /\
    map_Forall (fun _ text => good_text text) d' /\
    lines_in d' ≡ₚ lines_in (default ∅ (temp_dir two_files_world)) /\
    (0 < 2 -> exists name,
       save_path_tmp' = Some name /\ is_Some (d' !! name)).
Proof.
  split.
  - split; [exact Claims.listdir_Permutation|]. split; [reflexivity|].
    split; [reflexivity|]. split; [exact two_files_opens|]. split; [lia|].
    exact two_files_workspace_ok.
  - apply (_merge_pass_groups_files listdir 2 0 None 2 _ two_files_world _
             Claims.listdir_Permutation eq_refl eq_refl);
      [exact two_files_opens|lia|exact two_files_workspace_ok].
Defined.

End Extras.

